(** * The city ingestion pipeline: a shallow embedding and its properties

    The development follows the TypeScript sources
    [scripts/lib/config.ts], [scripts/lib/rateLimiter.ts],
    [scripts/lib/googlePlaces.ts], [scripts/lib/vibeScorer.ts] and
    [scripts/ingestCity.ts].

    Part I embeds the data model and the functions; Part II states and
    proves the properties.

    Modelling conventions.
    - A JavaScript string is the list of its UTF-16 code units ([list N]);
      [length] is the JavaScript [length].
    - A JavaScript number that the code computes with (the scores of a
      cell, the composite score of a venue) is an IEEE 754 binary64 value,
      with the rounding of every operation.  The numeric fields of a place
      and the integers (counts, milliseconds, status codes) hold the value
      of the number ([Q], [Z]); the token bucket is followed in exact
      arithmetic.  [parseFloat] and [parseInt] return an [option], [None]
      standing for [NaN].
    - Asynchronous functions run strictly one after the other (every call is
      awaited), so they are functions on an explicit world: the in-run
      cache, the two tables written by the pipeline, and the list of
      external effects performed so far.  What the outside world answers is
      given by a record of oracles indexed by the number of external
      interactions made so far, so that the same request may succeed once
      and fail the next time.
    - Console output is not modelled, except the retry observer. *)

From Stdlib Require Import String Ascii ZArith NArith QArith Qround List Lia.
From Stdlib Require Import DecimalString Sorted Permutation Lqa Qminmax SpecFloat.
From stdpp Require Import gmap list.

Local Open Scope Z_scope.
Local Set Warnings "-register-all".

(* ================================================================= *)
(** * Part I: the embedding *)
(* ================================================================= *)

(** ** Strings *)

Abbreviation jsstring := (list N).

(** An ASCII literal as a list of code units. *)
Definition lit (s : string) : jsstring :=
  N_of_ascii <$> list_ascii_of_string s.

(** A literal in which the apostrophe stands for the double quote. *)
Definition litq (s : string) : jsstring :=
  (fun c => if (c =? 39)%N then 34%N else c) <$> lit s.

Definition jslength (s : jsstring) : Z := Z.of_nat (length s).

(** [WhiteSpace] and [LineTerminator] of ECMAScript: the characters removed
    by [String.prototype.trim] and matched by [\s]. *)
Definition isWhiteSpace (c : N) : bool :=
  ((9 <=? c) && (c <=? 13) || (c =? 32) || (c =? 160) || (c =? 5760)
   || (8192 <=? c) && (c <=? 8202) || (c =? 8232) || (c =? 8233)
   || (c =? 8239) || (c =? 8287) || (c =? 12288) || (c =? 65279))%N.

Definition isDigit (c : N) : bool := ((48 <=? c) && (c <=? 57))%N.

Definition digitValue (c : N) : Z := Z.of_N c - 48.

Fixpoint takeWhile (p : N -> bool) (s : jsstring) : jsstring :=
  match s with
  | c :: r => if p c then c :: takeWhile p r else []
  | [] => []
  end.

Fixpoint dropWhile (p : N -> bool) (s : jsstring) : jsstring :=
  match s with
  | c :: r => if p c then dropWhile p r else s
  | [] => []
  end.

Definition trimStart (s : jsstring) : jsstring := dropWhile isWhiteSpace s.
Definition trimEnd (s : jsstring) : jsstring := rev (dropWhile isWhiteSpace (rev s)).
Definition trim (s : jsstring) : jsstring := trimEnd (trimStart s).

Definition jsstring_eqb (a b : jsstring) : bool := bool_decide (a = b).

Fixpoint startsWith (s p : jsstring) : bool :=
  match p, s with
  | [], _ => true
  | _ :: _, [] => false
  | a :: p', b :: s' => (a =? b)%N && startsWith s' p'
  end.

(** [s.includes(p)] *)
Fixpoint includes (s p : jsstring) : bool :=
  startsWith s p ||
  match s with
  | [] => false
  | _ :: r => includes r p
  end.

(** Equality of code units under the [i] flag of a regular expression
    without the [u] flag: only the ASCII letters fold onto each other. *)
Definition upperAscii (c : N) : N :=
  if ((97 <=? c) && (c <=? 122))%N then (c - 32)%N else c.

Fixpoint startsWithNoCase (s p : jsstring) : bool :=
  match p, s with
  | [], _ => true
  | _ :: _, [] => false
  | a :: p', b :: s' => (upperAscii a =? upperAscii b)%N && startsWithNoCase s' p'
  end.

(** Decimal rendering of an integer, as in a template literal. *)
Definition string_of_Z (z : Z) : jsstring :=
  lit (NilEmpty.string_of_int (Z.to_int z)).

(** The value of a run of decimal digits. *)
Definition digitsValue (ds : jsstring) : Z :=
  fold_left (fun acc c => 10 * acc + digitValue c) ds 0.

(** ** Numbers

    The numeric fields of a place hold the value of the number.  Where the
    code computes with numbers (the composite score of a venue, the scores
    of a cell), the computation is done in binary64, see below. *)

(** The truthiness of a number (there is no [NaN] among the rationals). *)
Definition truthy (x : Q) : bool := negb (Qeq_bool x 0).

(** [x || 0] for an optional numeric field. *)
Definition orZero (x : option Q) : Q :=
  match x with
  | Some v => if truthy v then v else 0%Q
  | None => 0%Q
  end.

(** [x || null] for an optional numeric field. *)
Definition orNull (x : option Q) : option Q :=
  match x with
  | Some v => if truthy v then Some v else None
  | None => None
  end.

(** The integer nearest to a rational, halves towards plus infinity. *)
Definition Math_round (x : Q) : Z := Qfloor (x + (1 # 2)).

(** ** Numbers: binary64

    A JavaScript number is an IEEE 754 binary64 value.  The operations are
    the ones of the specification of floating-point arithmetic of the
    Standard Library, at precision 53 and maximal exponent 1024: each
    result is the exact result rounded to the nearest value, ties to the
    even mantissa. *)

Abbreviation number := spec_float.

Definition prec : Z := 53.
Definition emax : Z := 1024.

Definition Number_add : number -> number -> number := SFadd prec emax.
Definition Number_sub : number -> number -> number := SFsub prec emax.
Definition Number_mul : number -> number -> number := SFmul prec emax.
Definition Number_div : number -> number -> number := SFdiv prec emax.

(** The number that a decimal literal or a JSON number denotes: the
    binary64 value nearest to the rational, the quotient of two integers
    correctly rounded. *)
Definition toNumber (q : Q) : number :=
  match Qnum q with
  | Z0 => S754_zero false
  | Zpos n => Number_div (S754_finite false n 0) (S754_finite false (Qden q) 0)
  | Zneg n => Number_div (S754_finite true n 0) (S754_finite false (Qden q) 0)
  end.

(** The real value of a finite number, [m * 2 ^ e] with its sign. *)
Definition valueOf (x : number) : Q :=
  match x with
  | S754_finite s m (Zneg p) => cond_Zopp s (Zpos m) # 2 ^ p
  | S754_finite s m e => inject_Z (cond_Zopp s (Zpos m) * 2 ^ e)
  | _ => 0%Q
  end.

Definition isFinite (x : number) : bool :=
  match x with
  | S754_zero _ | S754_finite _ _ _ => true
  | _ => false
  end.

(** The comparison of two numbers, by their values; there is none when
    one of them is [NaN]. *)
Definition Number_compare (x y : number) : option comparison :=
  match x, y with
  | S754_nan, _ | _, S754_nan => None
  | S754_infinity s1, S754_infinity s2 =>
      Some (match s1, s2 with
            | true, true | false, false => Eq
            | true, false => Lt
            | false, true => Gt
            end)
  | S754_infinity s, _ => Some (if s then Lt else Gt)
  | _, S754_infinity s => Some (if s then Gt else Lt)
  | _, _ => Some (valueOf x ?= valueOf y)%Q
  end.

(** [x <= y] and [x < y] *)
Definition Number_leb (x y : number) : bool :=
  match Number_compare x y with
  | Some (Lt | Eq) => true
  | _ => false
  end.

Definition Number_ltb (x y : number) : bool :=
  match Number_compare x y with
  | Some Lt => true
  | _ => false
  end.

(** [z * 2 ^ e] *)
Definition scaled (z e : Z) : Q :=
  match e with
  | Zneg p => z # 2 ^ p
  | _ => inject_Z (z * 2 ^ e)
  end.

(** The exponent of a number is at least the least exponent of
    binary64. *)
Definition aboveEmin (x : number) : Prop :=
  match x with
  | S754_finite _ _ e => -1074 <= e
  | _ => True
  end.

(** The record [mrs] is [M] shifted right by [k] bits; where the bits
    shifted out are all zero, the record says so. *)
Definition shifted (M : Z) (k : Z) (mrs : shr_record) : Prop :=
  shr_m mrs = M / 2 ^ k /\
  (M mod 2 ^ k = 0 -> shr_r mrs = false /\ shr_s mrs = false).

(** [Math.round] on a number: the nearest integer, halves towards plus
    infinity; a result of zero keeps the sign of the argument. *)
Definition Number_round (x : number) : number :=
  match x with
  | S754_finite s _ _ =>
      match Math_round (valueOf x) with
      | Z0 => S754_zero s
      | k => toNumber (inject_Z k)
      end
  | _ => x
  end.

(** ** config.ts *)

Inductive PlaceType :=
  | restaurant | bar | cafe | night_club | park | tourist_attraction.

Definition PLACE_TYPES : list PlaceType :=
  [restaurant; bar; cafe; night_club; park; tourist_attraction].

Definition placeTypeName (t : PlaceType) : jsstring :=
  match t with
  | restaurant => lit "restaurant"
  | bar => lit "bar"
  | cafe => lit "cafe"
  | night_club => lit "night_club"
  | park => lit "park"
  | tourist_attraction => lit "tourist_attraction"
  end.

Definition MIN_REVIEW_COUNT : Q := 10%Q.
Definition TOP_VENUES_PER_CELL : nat := 5.
Definition betweenCells_delayMs : Z := 500.

Record RetryConfig := {
  maxRetries : Z;
  initialDelayMs : Z;
  maxDelayMs : Z;
  retryableStatusCodes : list Z
}.

Definition RETRY_CONFIG : RetryConfig :=
  {| maxRetries := 3; initialDelayMs := 1000; maxDelayMs := 10000;
     retryableStatusCodes := [429; 500; 503] |}.

Definition LLM_MODEL : jsstring := lit "gpt-4.1-mini".

Inductive VibeDimension :=
  | lively | social | upscale | casual | trendy | local | photogenic.

#[global] Instance VibeDimension_eq_dec : EqDecision VibeDimension.
Proof. solve_decision. Defined.

Definition VIBE_DIMENSIONS : list VibeDimension :=
  [lively; social; upscale; casual; trendy; local; photogenic].

Definition dimensionName (d : VibeDimension) : jsstring :=
  match d with
  | lively => lit "lively"
  | social => lit "social"
  | upscale => lit "upscale"
  | casual => lit "casual"
  | trendy => lit "trendy"
  | local => lit "local"
  | photogenic => lit "photogenic"
  end.

(** [Record<VibeDimension, number | null>] *)
Record VibeScores := {
  s_lively : option number;
  s_social : option number;
  s_upscale : option number;
  s_casual : option number;
  s_trendy : option number;
  s_local : option number;
  s_photogenic : option number
}.

Definition getScore (s : VibeScores) (d : VibeDimension) : option number :=
  match d with
  | lively => s_lively s
  | social => s_social s
  | upscale => s_upscale s
  | casual => s_casual s
  | trendy => s_trendy s
  | local => s_local s
  | photogenic => s_photogenic s
  end.

(** [scores[dim] = v] *)
Definition setScore (s : VibeScores) (d : VibeDimension) (v : option number)
  : VibeScores :=
  match d with
  | lively => {| s_lively := v; s_social := s_social s; s_upscale := s_upscale s;
                 s_casual := s_casual s; s_trendy := s_trendy s; s_local := s_local s;
                 s_photogenic := s_photogenic s |}
  | social => {| s_lively := s_lively s; s_social := v; s_upscale := s_upscale s;
                 s_casual := s_casual s; s_trendy := s_trendy s; s_local := s_local s;
                 s_photogenic := s_photogenic s |}
  | upscale => {| s_lively := s_lively s; s_social := s_social s; s_upscale := v;
                  s_casual := s_casual s; s_trendy := s_trendy s; s_local := s_local s;
                  s_photogenic := s_photogenic s |}
  | casual => {| s_lively := s_lively s; s_social := s_social s; s_upscale := s_upscale s;
                 s_casual := v; s_trendy := s_trendy s; s_local := s_local s;
                 s_photogenic := s_photogenic s |}
  | trendy => {| s_lively := s_lively s; s_social := s_social s; s_upscale := s_upscale s;
                 s_casual := s_casual s; s_trendy := v; s_local := s_local s;
                 s_photogenic := s_photogenic s |}
  | local => {| s_lively := s_lively s; s_social := s_social s; s_upscale := s_upscale s;
                s_casual := s_casual s; s_trendy := s_trendy s; s_local := v;
                s_photogenic := s_photogenic s |}
  | photogenic => {| s_lively := s_lively s; s_social := s_social s; s_upscale := s_upscale s;
                     s_casual := s_casual s; s_trendy := s_trendy s; s_local := s_local s;
                     s_photogenic := v |}
  end.

Record LatLng := { latitude : Q; longitude : Q }.

Record GooglePlace := {
  place_id : jsstring;
  displayName : option jsstring;
  rating : option Q;
  userRatingCount : option Q;
  types : option (list jsstring);
  location : option LatLng
}.

Record Review := {
  review_text : option jsstring;
  review_rating : option Q;
  relativePublishTimeDescription : option jsstring
}.

Record GooglePlaceDetails := {
  d_place : GooglePlace;
  reviews : option (list Review)
}.

Record GridCell := {
  cell_id : jsstring;
  city_id : jsstring;
  centroid : jsstring
}.

(** A coordinate read by [parseFloat]; [None] is [NaN]. *)
Record Coords := { lat : option Q; lng : option Q }.

(** The text [POINT(lng lat)] written into a venue row, kept as its two
    numbers: the decimal rendering of a number is not modelled. *)
Inductive PointWKT :=
  | PointOfPlace (longitude latitude : Q)
  | PointOfCentroid (lng lat : option Q).

Record VenueData := {
  google_place_id : jsstring;
  v_grid_cell_id : jsstring;
  v_name : jsstring;
  category : option jsstring;
  v_rating : option Q;
  review_count : option Q;
  v_location : PointWKT
}.

Record CellVibeData := {
  grid_cell_id : jsstring;
  scores : VibeScores;
  source_review_count : Z;
  model_name : option jsstring;
  computed_at : Z
}.

Record CliOptions := {
  citySlug : jsstring;
  force : bool;
  dryRun : bool;
  limit : option Z
}.

Record FailedCell := {
  cellId : jsstring;
  fc_error : jsstring;
  timestamp : Z
}.

(** ** googlePlaces.ts: the pure functions *)

Definition isCoordChar (c : N) : bool :=
  ((c =? 45) || isDigit c || (c =? 46))%N.

(** [parseFloat] on a run of the characters [-], [.] and digits (all that
    the capture groups of [parsePointWKT] can hold): the longest prefix of
    the form [-? digits? (. digits?)?] with at least one digit. *)
Definition parseFloat (s : jsstring) : option Q :=
  let '(neg, s1) :=
    match s with
    | 45%N :: r => (true, r)
    | _ => (false, s)
    end in
  let ip := takeWhile isDigit s1 in
  let s2 := dropWhile isDigit s1 in
  let fp :=
    match s2 with
    | 46%N :: r => takeWhile isDigit r
    | _ => []
    end in
  match ip, fp with
  | [], [] => None
  | _, _ =>
      let m := (inject_Z (digitsValue (ip ++ fp)) / inject_Z (10 ^ jslength fp))%Q in
      Some (if neg then - m else m)%Q
  end.

(** One attempt of [/POINT\s*\(\s*([-\d.]+)\s+([-\d.]+)\s*\)/i] at the
    start of [s].  The character classes that follow one another are
    disjoint, so the greedy match is the only one. *)
Definition matchPointAt (s : jsstring) : option (jsstring * jsstring) :=
  if startsWithNoCase s (lit "POINT") then
    match dropWhile isWhiteSpace (drop 5 s) with
    | 40%N :: r =>
        let r1 := dropWhile isWhiteSpace r in
        let g1 := takeWhile isCoordChar r1 in
        let r2 := dropWhile isCoordChar r1 in
        let r3 := dropWhile isWhiteSpace r2 in
        let g2 := takeWhile isCoordChar r3 in
        let r4 := dropWhile isWhiteSpace (dropWhile isCoordChar r3) in
        match g1, takeWhile isWhiteSpace r2, g2, r4 with
        | _ :: _, _ :: _, _ :: _, 41%N :: _ => Some (g1, g2)
        | _, _, _, _ => None
        end
    | _ => None
    end
  else None.

(** [wkt.match(...)]: the leftmost position at which the pattern matches. *)
Fixpoint matchPoint (s : jsstring) : option (jsstring * jsstring) :=
  match matchPointAt s with
  | Some m => Some m
  | None =>
      match s with
      | [] => None
      | _ :: r => matchPoint r
      end
  end.

Definition parsePointWKT (wkt : jsstring) : option Coords :=
  match matchPoint wkt with
  | Some (g1, g2) => Some {| lng := parseFloat g1; lat := parseFloat g2 |}
  | None => None
  end.

(** [Array.prototype.sort] with a comparison function.  ECMAScript fixes
    the result for a consistent comparator: the stable sorted permutation
    (it is unique, see [Array_sort_unique] in Part II).  It is computed here
    by insertion, an element going in front of the first element it does
    not compare greater than. *)
Fixpoint sortInsert {A} (cmp : A -> A -> Q) (x : A) (l : list A) : list A :=
  match l with
  | [] => [x]
  | y :: r => if Qle_bool (cmp x y) 0 then x :: y :: r else y :: sortInsert cmp x r
  end.

Fixpoint Array_sort {A} (cmp : A -> A -> Q) (l : list A) : list A :=
  match l with
  | [] => []
  | x :: r => sortInsert cmp x (Array_sort cmp r)
  end.

(** What the sort makes of the number [v] that the comparison function
    returns: [NaN] counts as [+0], and only the sign of [v] is looked at. *)
Definition comparatorSign (v : number) : Q :=
  if Number_ltb (toNumber 0) v then 1%Q
  else if Number_ltb v (toNumber 0) then (-1)%Q
  else 0%Q.

(** The composite score of [rankVenues], as the code computes it: the two
    products and their sum are each rounded to binary64. *)
Definition venueScore (a : GooglePlace) : number :=
  Number_add
    (Number_mul (toNumber (orZero (userRatingCount a))) (toNumber (7 # 10)))
    (Number_mul (toNumber (orZero (rating a))) (toNumber (3 # 10))).

Definition rankVenues (venues : list GooglePlace) : list GooglePlace :=
  Array_sort (fun a b => comparatorSign (Number_sub (venueScore b) (venueScore a))) venues.

Definition filterQualifiedVenues (venues : list GooglePlace) (minReviewCount : Q)
  : list GooglePlace :=
  List.filter (fun v => Qle_bool minReviewCount (orZero (userRatingCount v))) venues.

Definition priorityTypes : list jsstring :=
  [lit "night_club"; lit "bar"; lit "restaurant"; lit "cafe"; lit "park";
   lit "tourist_attraction"].

Definition getPrimaryCategory (types : option (list jsstring)) : option jsstring :=
  match types with
  | None => None
  | Some [] => None
  | Some (t0 :: ts) =>
      match List.find (fun ty => bool_decide (ty ∈ t0 :: ts)) priorityTypes with
      | Some ty => Some ty
      | None => Some t0
      end
  end.

(** ** Exceptions *)

(** An [Error] object: its message and, when present and numeric, its
    [status] property. *)
Record Error := { message : jsstring; status : option Z }.

(** What a [throw] can carry in this program: an [Error], or [null] (the
    initial [lastError] of [withRetry]). *)
Inductive Thrown :=
  | TErr (e : Error)
  | TNull.

Inductive Outcome (A : Type) :=
  | Ok (a : A)
  | Throw (t : Thrown).
Arguments Ok {A} a.
Arguments Throw {A} t.

Definition mkError (msg : jsstring) : Error := {| message := msg; status := None |}.

(** Reading [.message] of a caught [null]. *)
Definition nullMessageError : Thrown :=
  TErr (mkError (lit "Cannot read properties of null (reading 'message')")).

(** ** JSON.parse *)

Inductive json :=
  | JNull
  | JBool (b : bool)
  | JNum (x : number)
  | JStr (s : jsstring)
  | JArr (elems : list json)
  | JObj (members : list (jsstring * json)).

Inductive Token :=
  | TLBrace | TRBrace | TLBracket | TRBracket | TColon | TComma
  | TString (s : jsstring)
  | TNumber (x : number)
  | TTrue | TFalse | TNullLit.

(** The digits of a number read so far. *)
Record NumAcc := {
  n_neg : bool;
  n_mant : Z;
  n_frac : Z;
  n_eneg : bool;
  n_exp : Z
}.

Inductive NumState :=
  | NSign | NZero | NInt | NDot | NFrac | NExpMark | NExpSign | NExp.

Inductive LexMode :=
  | LTop
  | LString (rev_acc : jsstring)
  | LEscape (rev_acc : jsstring)
  | LUnicode (rev_acc : jsstring) (remaining : nat) (value : N)
  | LLiteral (rest : jsstring) (tok : Token)
  | LNumber (st : NumState) (acc : NumAcc).

(** The number that the digits denote: the binary64 value nearest to the
    decimal, with the sign read ([-0] is a number of its own). *)
Definition numValue (a : NumAcc) : number :=
  let e := (if n_eneg a then - n_exp a else n_exp a) - n_frac a in
  let magnitude := toNumber (inject_Z (n_mant a) * (10 ^ e))%Q in
  if n_neg a then SFopp magnitude else magnitude.

Definition numAccepting (st : NumState) : bool :=
  match st with
  | NZero | NInt | NFrac | NExp => true
  | _ => false
  end.

Definition isJsonWhiteSpace (c : N) : bool :=
  ((c =? 9) || (c =? 10) || (c =? 13) || (c =? 32))%N.

Definition hexValue (c : N) : option N :=
  if isDigit c then Some (c - 48)%N
  else if ((97 <=? c) && (c <=? 102))%N then Some (c - 87)%N
  else if ((65 <=? c) && (c <=? 70))%N then Some (c - 55)%N
  else None.

Definition numStart (neg : bool) (d : Z) : NumAcc :=
  {| n_neg := neg; n_mant := d; n_frac := 0; n_eneg := false; n_exp := 0 |}.

(** A character met between two tokens. *)
Definition lexTop (c : N) (rev_toks : list Token) : option (LexMode * list Token) :=
  if isJsonWhiteSpace c then Some (LTop, rev_toks)
  else if isDigit c then
    Some (LNumber (if (c =? 48)%N then NZero else NInt) (numStart false (digitValue c)), rev_toks)
  else
    match c with
    | 123%N => Some (LTop, TLBrace :: rev_toks)
    | 125%N => Some (LTop, TRBrace :: rev_toks)
    | 91%N => Some (LTop, TLBracket :: rev_toks)
    | 93%N => Some (LTop, TRBracket :: rev_toks)
    | 58%N => Some (LTop, TColon :: rev_toks)
    | 44%N => Some (LTop, TComma :: rev_toks)
    | 34%N => Some (LString [], rev_toks)
    | 45%N => Some (LNumber NSign (numStart true 0), rev_toks)
    | 116%N => Some (LLiteral (lit "rue") TTrue, rev_toks)
    | 102%N => Some (LLiteral (lit "alse") TFalse, rev_toks)
    | 110%N => Some (LLiteral (lit "ull") TNullLit, rev_toks)
    | _ => None
    end.

Definition isExpMark (c : N) : bool := ((c =? 101) || (c =? 69))%N.

(** A character met inside a number: it extends the number, or ends it and
    is read again as a character between tokens. *)
Definition lexNumber (st : NumState) (a : NumAcc) (c : N) (rev_toks : list Token)
  : option (LexMode * list Token) :=
  let d := digitValue c in
  let more_mant (st' : NumState) (frac : Z) :=
    Some (LNumber st' {| n_neg := n_neg a; n_mant := 10 * n_mant a + d;
                         n_frac := n_frac a + frac; n_eneg := n_eneg a;
                         n_exp := n_exp a |}, rev_toks) in
  let more_exp :=
    Some (LNumber NExp {| n_neg := n_neg a; n_mant := n_mant a; n_frac := n_frac a;
                          n_eneg := n_eneg a; n_exp := 10 * n_exp a + d |}, rev_toks) in
  let finish := lexTop c (TNumber (numValue a) :: rev_toks) in
  match st with
  | NSign =>
      if isDigit c then more_mant (if (c =? 48)%N then NZero else NInt) 0 else None
  | NZero =>
      if (c =? 46)%N then Some (LNumber NDot a, rev_toks)
      else if isExpMark c then Some (LNumber NExpMark a, rev_toks)
      else finish
  | NInt =>
      if isDigit c then more_mant NInt 0
      else if (c =? 46)%N then Some (LNumber NDot a, rev_toks)
      else if isExpMark c then Some (LNumber NExpMark a, rev_toks)
      else finish
  | NDot => if isDigit c then more_mant NFrac 1 else None
  | NFrac =>
      if isDigit c then more_mant NFrac 1
      else if isExpMark c then Some (LNumber NExpMark a, rev_toks)
      else finish
  | NExpMark =>
      if isDigit c then more_exp
      else if (c =? 43)%N then Some (LNumber NExpSign a, rev_toks)
      else if (c =? 45)%N then
        Some (LNumber NExpSign {| n_neg := n_neg a; n_mant := n_mant a;
                                  n_frac := n_frac a; n_eneg := true;
                                  n_exp := n_exp a |}, rev_toks)
      else None
  | NExpSign => if isDigit c then more_exp else None
  | NExp => if isDigit c then more_exp else finish
  end.

Definition lexStep (mode : LexMode) (rev_toks : list Token) (c : N)
  : option (LexMode * list Token) :=
  match mode with
  | LTop => lexTop c rev_toks
  | LString acc =>
      if (c =? 34)%N then Some (LTop, TString (rev acc) :: rev_toks)
      else if (c =? 92)%N then Some (LEscape acc, rev_toks)
      else if (c <? 32)%N then None
      else Some (LString (c :: acc), rev_toks)
  | LEscape acc =>
      match c with
      | 34%N | 92%N | 47%N => Some (LString (c :: acc), rev_toks)
      | 98%N => Some (LString (8%N :: acc), rev_toks)
      | 102%N => Some (LString (12%N :: acc), rev_toks)
      | 110%N => Some (LString (10%N :: acc), rev_toks)
      | 114%N => Some (LString (13%N :: acc), rev_toks)
      | 116%N => Some (LString (9%N :: acc), rev_toks)
      | 117%N => Some (LUnicode acc 4 0, rev_toks)
      | _ => None
      end
  | LUnicode acc remaining value =>
      match hexValue c with
      | None => None
      | Some h =>
          let value' := (16 * value + h)%N in
          match remaining with
          | S (S k) => Some (LUnicode acc (S k) value', rev_toks)
          | _ => Some (LString (value' :: acc), rev_toks)
          end
      end
  | LLiteral rest tok =>
      match rest with
      | [] => None
      | x :: rest' =>
          if (c =? x)%N then
            match rest' with
            | [] => Some (LTop, tok :: rev_toks)
            | _ => Some (LLiteral rest' tok, rev_toks)
            end
          else None
      end
  | LNumber st a => lexNumber st a c rev_toks
  end.

Fixpoint lex (mode : LexMode) (rev_toks : list Token) (s : jsstring) : option (list Token) :=
  match s with
  | [] =>
      match mode with
      | LTop => Some (rev rev_toks)
      | LNumber st a =>
          if numAccepting st then Some (rev (TNumber (numValue a) :: rev_toks)) else None
      | _ => None
      end
  | c :: r =>
      match lexStep mode rev_toks c with
      | Some (mode', rev_toks') => lex mode' rev_toks' r
      | None => None
      end
  end.

(** A container under construction; an object remembers the key that
    waits for its value. *)
Inductive Frame :=
  | FArr (rev_elems : list json)
  | FObj (rev_members : list (jsstring * json)) (key : option jsstring).

Inductive PState :=
  | PValue | PValueOrEndArr | PKeyOrEndObj | PKey | PColon | PCommaOrEnd
  | PDone (v : json).

(** A finished value goes to the container on top of the stack. *)
Definition deliver (v : json) (stack : list Frame) : option (PState * list Frame) :=
  match stack with
  | [] => Some (PDone v, [])
  | FArr elems :: below => Some (PCommaOrEnd, FArr (v :: elems) :: below)
  | FObj members (Some k) :: below =>
      Some (PCommaOrEnd, FObj ((k, v) :: members) None :: below)
  | FObj _ None :: _ => None
  end.

Definition parseValue (t : Token) (stack : list Frame) : option (PState * list Frame) :=
  match t with
  | TLBrace => Some (PKeyOrEndObj, FObj [] None :: stack)
  | TLBracket => Some (PValueOrEndArr, FArr [] :: stack)
  | TString s => deliver (JStr s) stack
  | TNumber q => deliver (JNum q) stack
  | TTrue => deliver (JBool true) stack
  | TFalse => deliver (JBool false) stack
  | TNullLit => deliver JNull stack
  | TRBrace | TRBracket | TColon | TComma => None
  end.

Definition parseKey (t : Token) (stack : list Frame) : option (PState * list Frame) :=
  match t, stack with
  | TString k, FObj members _ :: below => Some (PColon, FObj members (Some k) :: below)
  | _, _ => None
  end.

Definition closeArray (stack : list Frame) : option (PState * list Frame) :=
  match stack with
  | FArr elems :: below => deliver (JArr (rev elems)) below
  | _ => None
  end.

Definition closeObject (stack : list Frame) : option (PState * list Frame) :=
  match stack with
  | FObj members None :: below => deliver (JObj (rev members)) below
  | _ => None
  end.

Definition parseStep (st : PState) (stack : list Frame) (t : Token)
  : option (PState * list Frame) :=
  match st with
  | PValue => parseValue t stack
  | PValueOrEndArr =>
      match t with
      | TRBracket => closeArray stack
      | _ => parseValue t stack
      end
  | PKeyOrEndObj =>
      match t with
      | TRBrace => closeObject stack
      | _ => parseKey t stack
      end
  | PKey => parseKey t stack
  | PColon =>
      match t with
      | TColon => Some (PValue, stack)
      | _ => None
      end
  | PCommaOrEnd =>
      match t, stack with
      | TComma, FArr _ :: _ => Some (PValue, stack)
      | TComma, FObj _ _ :: _ => Some (PKey, stack)
      | TRBracket, _ => closeArray stack
      | TRBrace, _ => closeObject stack
      | _, _ => None
      end
  | PDone _ => None
  end.

Fixpoint parseTokens (st : PState) (stack : list Frame) (toks : list Token) : option json :=
  match toks with
  | [] =>
      match st with
      | PDone v => Some v
      | _ => None
      end
  | t :: r =>
      match parseStep st stack t with
      | Some (st', stack') => parseTokens st' stack' r
      | None => None
      end
  end.

Definition syntaxError : Thrown :=
  TErr (mkError (lit "Unexpected token in JSON")).

(** [JSON.parse(text)]: the value, or a [SyntaxError]. *)
Definition JSON_parse (text : jsstring) : Outcome json :=
  match lex LTop [] text with
  | Some toks =>
      match parseTokens PValue [] toks with
      | Some v => Ok v
      | None => Throw syntaxError
      end
  | None => Throw syntaxError
  end.

(** [parsed[dim]] for a dimension name: the last member of that name of an
    object, [undefined] ([None]) on any other value, a [TypeError] on
    [null]. *)
Definition getProperty (parsed : json) (key : jsstring) : Outcome (option json) :=
  match parsed with
  | JNull => Throw (TErr (mkError (lit "Cannot read properties of null")))
  | JObj members =>
      Ok (snd <$> List.find (fun m => jsstring_eqb (fst m) key) (rev members))
  | _ => Ok None
  end.

(** ** vibeScorer.ts: the pure functions *)

Definition emptyVibeScores : VibeScores :=
  {| s_lively := None; s_social := None; s_upscale := None; s_casual := None;
     s_trendy := None; s_local := None; s_photogenic := None |}.

Definition isNot (x : N) (c : N) : bool := negb (c =? x)%N.

(** [text.match(/\{[\s\S]*\}/)]: the star is greedy and matches every
    character, so the match runs from the first opening brace to the last
    closing brace after it. *)
Definition matchBraces (text : jsstring) : option jsstring :=
  match dropWhile (isNot 123) text with
  | [] => None
  | fromBrace =>
      match dropWhile (isNot 125) (rev fromBrace) with
      | [] => None
      | rev_match => Some (rev rev_match)
      end
  end.

(** [Math.round(value * 100) / 100] *)
Definition roundTwoPlaces (value : number) : number :=
  Number_div (Number_round (Number_mul value (toNumber 100))) (toNumber 100).

(** [value >= 0 && value <= 1] *)
Definition inUnitRange (value : number) : bool :=
  Number_leb (toNumber 0) value && Number_leb value (toNumber 1).

(** The loop over [VIBE_DIMENSIONS].  It updates [scores] in place, so an
    exception leaves the entries written before it. *)
Fixpoint scoreDimensions (parsed : json) (dims : list VibeDimension) (scores : VibeScores)
  : option Thrown * VibeScores :=
  match dims with
  | [] => (None, scores)
  | dim :: rest =>
      match getProperty parsed (dimensionName dim) with
      | Throw t => (Some t, scores)
      | Ok (Some (JNum value)) =>
          if inUnitRange value
          then scoreDimensions parsed rest (setScore scores dim (Some (roundTwoPlaces value)))
          else scoreDimensions parsed rest scores
      | Ok _ => scoreDimensions parsed rest scores
      end
  end.

(** The [try] block of [parseVibeScores]: what it threw, if anything, and
    the [scores] object as it stands when the block is left. *)
Definition parseVibeScores_try (text : jsstring) (scores : VibeScores)
  : option Thrown * VibeScores :=
  match matchBraces text with
  | None => (None, scores)
  | Some jsonMatch =>
      match JSON_parse jsonMatch with
      | Throw t => (Some t, scores)
      | Ok parsed => scoreDimensions parsed VIBE_DIMENSIONS scores
      end
  end.

(** The [catch] block reads [error.message] for the log and returns
    [scores]. *)
Definition parseVibeScores (text : jsstring) : Outcome VibeScores :=
  match parseVibeScores_try text emptyVibeScores with
  | (None, scores) => Ok scores
  | (Some (TErr _), scores) => Ok scores
  | (Some TNull, _) => Throw nullMessageError
  end.

Definition MAX_CHARS : Z := 8000.

Definition blankLine : jsstring := [10%N; 10%N].

(** The loop over the reviews of one place. *)
Fixpoint collectReviews (rs : list Review) (reviewTexts : list jsstring) (totalCount : Z)
  : list jsstring * Z :=
  match rs with
  | [] => (reviewTexts, totalCount)
  | review :: rest =>
      match review_text review with
      | Some (c :: text) =>
          match trim (c :: text) with
          | [] => collectReviews rest reviewTexts totalCount
          | trimmed => collectReviews rest (reviewTexts ++ [trimmed]) (totalCount + 1)
          end
      | _ => collectReviews rest reviewTexts totalCount
      end
  end.

(** The loop over the places. *)
Fixpoint collectPlaces (ps : list GooglePlaceDetails) (reviewTexts : list jsstring)
  (totalCount : Z) : list jsstring * Z :=
  match ps with
  | [] => (reviewTexts, totalCount)
  | p :: rest =>
      match reviews p with
      | None => collectPlaces rest reviewTexts totalCount
      | Some rs =>
          let '(reviewTexts', totalCount') := collectReviews rs reviewTexts totalCount in
          collectPlaces rest reviewTexts' totalCount'
      end
  end.

(** The loop that fills [aggregated]; it stops at the [break]. *)
Fixpoint appendWithinBudget (texts : list jsstring) (aggregated : jsstring) : jsstring :=
  match texts with
  | [] => aggregated
  | text :: rest =>
      if jslength aggregated + jslength text + 2 >? MAX_CHARS then aggregated
      else appendWithinBudget rest (aggregated ++ text ++ blankLine)
  end.

Record Aggregated := { agg_text : jsstring; agg_count : Z }.

Definition aggregateReviews (placeDetails : list GooglePlaceDetails) : Aggregated :=
  let '(reviewTexts, totalCount) := collectPlaces placeDetails [] 0 in
  {| agg_text := trim (appendWithinBudget reviewTexts []); agg_count := totalCount |}.

(** ** The world of a run *)

Inductive Limiter := PlacesLimiter | OpenAILimiter.

(** The effects a run performs on the outside, in the order performed.
    [EvInvoke] is the invocation of an operation known only by its name: the
    operations the properties of the retry executor speak of. *)
Inductive Event :=
  | EvAcquire (l : Limiter)
  | EvSleep (ms : Z)
  | EvRetryLog (what : jsstring) (attempt : Z) (e : Thrown)
  | EvFetchNearby (lat lng : option Q) (placeType : PlaceType)
  | EvFetchDetails (placeId : jsstring)
  | EvClassify (input : jsstring)
  | EvSelectCity (slug : jsstring)
  | EvRpcCentroids (cityId : jsstring)
  | EvSelectVibes (cellIds : list jsstring)
  | EvUpsertVenues (rows : list VenueData)
  | EvDeleteVibes (cellId : jsstring)
  | EvInsertVibes (row : CellVibeData)
  | EvSaveFailedCells (ledger : list FailedCell)
  | EvInvoke (operation : jsstring).

Record World := {
  detailsCache : gmap jsstring GooglePlaceDetails;
  venues : gmap jsstring VenueData;
  cell_vibes : list CellVibeData;
  trace : list Event
}.

(** The number of external interactions made so far; it indexes the
    oracles. *)
Definition tick (w : World) : nat := length (trace w).

Definition emit (e : Event) (w : World) : World :=
  {| detailsCache := detailsCache w; venues := venues w; cell_vibes := cell_vibes w;
     trace := trace w ++ [e] |}.

(** The answer to an HTTP request: [fetch] rejects, or there is a response
    with a status, a body text and the outcome of [response.json()] (an
    error on the left when the body is not JSON). *)
Record HttpResponse (B : Type) := {
  resp_status : Z;
  resp_text : jsstring;
  resp_json : Error + B
}.
Arguments resp_status {B} _.
Arguments resp_text {B} _.
Arguments resp_json {B} _.

Inductive HttpAnswer (B : Type) :=
  | FetchRejects (e : Error)
  | Responds (r : HttpResponse B).
Arguments FetchRejects {B} e.
Arguments Responds {B} r.

(** The body of a nearby search: [data.places] may be absent. *)
Record NearbyBody := { places : option (list GooglePlace) }.

(** What the outside answers; the first argument is [tick] at the time of
    the request. *)
Record Services := {
  http_nearby : nat -> option Q -> option Q -> PlaceType -> HttpAnswer NearbyBody;
  http_details : nat -> jsstring -> HttpAnswer GooglePlaceDetails;
  openai_create : nat -> jsstring -> Error + jsstring;
  db_city : nat -> jsstring -> option jsstring;
  db_centroids : nat -> jsstring -> option (list GridCell);
  db_select_vibes_fails : nat -> bool;
  db_upsert_venues : nat -> list VenueData -> option Error;
  db_delete_vibes : nat -> jsstring -> option Error;
  db_insert_vibes : nat -> CellVibeData -> option Error;
  date_now : nat -> Z
}.

(** An awaited computation. *)
Definition M (A : Type) : Type := World -> Outcome A * World.

Definition ret {A} (a : A) : M A := fun w => (Ok a, w).
Definition throw {A} (t : Thrown) : M A := fun w => (Throw t, w).
Definition bind {A B} (m : M A) (k : A -> M B) : M B :=
  fun w =>
    match m w with
    | (Ok a, w') => k a w'
    | (Throw t, w') => (Throw t, w')
    end.
Definition tryCatch {A} (m : M A) (handler : Thrown -> M A) : M A :=
  fun w =>
    match m w with
    | (Ok a, w') => (Ok a, w')
    | (Throw t, w') => handler t w'
    end.
Definition perform (e : Event) : M unit := fun w => (Ok tt, emit e w).
Definition liftOutcome {A} (o : Outcome A) : M A := fun w => (o, w).

(** A promise of the outside that rejects with an error or resolves. *)
Definition settled {A} (x : Error + A) : Outcome A :=
  match x with
  | inl e => Throw (TErr e)
  | inr a => Ok a
  end.

Notation "'let*' x ':=' m 'in' k" := (bind m (fun x => k))
  (at level 10, x pattern, m at level 100, k at level 200).

(** ** rateLimiter.ts *)

(** [RateLimiter.acquire] only delays its caller: it never rejects and
    never throws.  The token arithmetic depends on the wall clock and is
    not modelled; the admission is recorded. *)
Definition acquire (l : Limiter) : M unit := perform (EvAcquire l).

Definition sleep (ms : Z) : M unit := perform (EvSleep ms).

Definition isColonOrSpace (c : N) : bool := (c =? 58)%N || isWhiteSpace c.

(** One attempt of [/status[:\s]+(\d{3})/i] at the start of [s]; the two
    classes are disjoint, so the greedy match is the only one. *)
Definition matchStatusAt (s : jsstring) : option jsstring :=
  if startsWithNoCase s (lit "status") then
    match takeWhile isColonOrSpace (drop 6 s), dropWhile isColonOrSpace (drop 6 s) with
    | _ :: _, a :: b :: c :: _ =>
        if isDigit a && isDigit b && isDigit c then Some [a; b; c] else None
    | _, _ => None
    end
  else None.

Fixpoint matchStatus (s : jsstring) : option jsstring :=
  match matchStatusAt s with
  | Some m => Some m
  | None =>
      match s with
      | [] => None
      | _ :: r => matchStatus r
      end
  end.

Definition isRetryableError (error : Thrown) (retryableCodes : list Z) : bool :=
  match error with
  | TNull => false
  | TErr e =>
      if includes (message e) (lit "timeout") || includes (message e) (lit "ETIMEDOUT")
      then true
      else
        match matchStatus (message e) with
        | Some digits => bool_decide (digitsValue digits ∈ retryableCodes)
        | None =>
            match status e with
            | Some st => bool_decide (st ∈ retryableCodes)
            | None => false
            end
        end
  end.

Record RetryOptions := {
  retryConfig : RetryConfig;
  onRetry : option (Z -> Thrown -> M unit)
}.

Definition callOnRetry (options : RetryOptions) (attempt : Z) (e : Thrown) : M unit :=
  match onRetry options with
  | Some f => f attempt e
  | None => ret tt
  end.

Definition backoffDelay (c : RetryConfig) (attempt : Z) : Z :=
  Z.min (initialDelayMs c * 2 ^ attempt) (maxDelayMs c).

(** The [for] loop of [withRetry].  [iterations] is the number of
    iterations the loop condition [attempt <= maxRetries] still allows;
    when none is left, control reaches the [throw lastError] after the
    loop. *)
Fixpoint retryLoop {T} (fn : M T) (options : RetryOptions) (iterations : nat)
  (attempt : Z) (lastError : Thrown) : M T :=
  match iterations with
  | O => throw lastError
  | S iterations' =>
      tryCatch fn (fun error =>
        let isRetryable :=
          isRetryableError error (retryableStatusCodes (retryConfig options)) in
        if negb isRetryable || (attempt =? maxRetries (retryConfig options))
        then throw error
        else
          let delay := backoffDelay (retryConfig options) attempt in
          let* _ := callOnRetry options (attempt + 1) error in
          let* _ := sleep delay in
          retryLoop fn options iterations' (attempt + 1) error)
  end.

Definition withRetry {T} (fn : M T) (options : RetryOptions) : M T :=
  retryLoop fn options (Z.to_nat (maxRetries (retryConfig options) + 1)) 0 TNull.

(** ** googlePlaces.ts: the client *)

Section Client.

Variable svc : Services.

Definition response_ok (st : Z) : bool := (200 <=? st) && (st <=? 299).

(** [fetchWithError]: [request] is recorded, [answer] gives what comes
    back. *)
Definition fetchWithError {B} (request : Event) (answer : nat -> HttpAnswer B)
  : M (HttpResponse B) :=
  fun w =>
    let w' := emit request w in
    match answer (tick w) with
    | FetchRejects e => (Throw (TErr e), w')
    | Responds response =>
        if response_ok (resp_status response) then (Ok response, w')
        else
          (Throw (TErr {| message := lit "HTTP " ++ string_of_Z (resp_status response)
                                       ++ lit ": " ++ resp_text response;
                          status := Some (resp_status response) |}), w')
    end.

Definition retryLogging (what : jsstring) : RetryOptions :=
  {| retryConfig := RETRY_CONFIG;
     onRetry := Some (fun attempt e => perform (EvRetryLog what attempt e)) |}.

Definition nearbySearch (lat lng : option Q) (placeType : PlaceType)
  : M (list GooglePlace) :=
  let* _ := acquire PlacesLimiter in
  let* response :=
    withRetry
      (fetchWithError (EvFetchNearby lat lng placeType)
         (fun n => http_nearby svc n lat lng placeType))
      (retryLogging (lit "nearbySearch")) in
  let* data := liftOutcome (settled (resp_json response)) in
  ret (match places data with
       | Some ps => ps
       | None => []
       end).

(** The inner loop of [searchAllTypes]. *)
Fixpoint addUnseen (found : list GooglePlace) (allPlaces : list GooglePlace)
  (seenIds : gset jsstring) : list GooglePlace * gset jsstring :=
  match found with
  | [] => (allPlaces, seenIds)
  | p :: rest =>
      if bool_decide (place_id p ∈ seenIds) then addUnseen rest allPlaces seenIds
      else addUnseen rest (allPlaces ++ [p]) ({[place_id p]} ∪ seenIds)
  end.

(** The outer loop of [searchAllTypes]. *)
Fixpoint searchTypes (lat lng : option Q) (placeTypes : list PlaceType)
  (allPlaces : list GooglePlace) (seenIds : gset jsstring) : M (list GooglePlace) :=
  match placeTypes with
  | [] => ret allPlaces
  | placeType :: rest =>
      let* found := nearbySearch lat lng placeType in
      let '(allPlaces', seenIds') := addUnseen found allPlaces seenIds in
      searchTypes lat lng rest allPlaces' seenIds'
  end.

Definition searchAllTypes (lat lng : option Q) (placeTypes : list PlaceType)
  : M (list GooglePlace) :=
  searchTypes lat lng placeTypes [] ∅.

(** [this.detailsCache.set(placeId, data)] *)
Definition cacheSet (placeId : jsstring) (data : GooglePlaceDetails) : M unit :=
  fun w =>
    (Ok tt, {| detailsCache := <[placeId := data]> (detailsCache w);
               venues := venues w; cell_vibes := cell_vibes w; trace := trace w |}).

Definition getPlaceDetails (placeId : jsstring) : M (option GooglePlaceDetails) :=
  fun w =>
    match detailsCache w !! placeId with
    | Some cached => (Ok (Some cached), w)
    | None =>
        (let* _ := acquire PlacesLimiter in
         tryCatch
           (let* response :=
              withRetry
                (fetchWithError (EvFetchDetails placeId)
                   (fun n => http_details svc n placeId))
                (retryLogging (lit "getPlaceDetails")) in
            let* data := liftOutcome (settled (resp_json response)) in
            let* _ := cacheSet placeId data in
            ret (Some data))
           (fun error =>
              match error with
              | TErr _ => ret None
              | TNull => throw nullMessageError
              end)) w
    end.

Definition getCacheSize (w : World) : nat := size (detailsCache w).

(** ** vibeScorer.ts: the client *)

Definition tripleQuote : jsstring := [34%N; 34%N; 34%N].

Definition scoreVibes (reviewText : jsstring) : M VibeScores :=
  let* _ := acquire OpenAILimiter in
  let prompt :=
    lit "Reviews:" ++ [10%N] ++ tripleQuote ++ [10%N] ++ reviewText ++ [10%N]
      ++ tripleQuote in
  let* outputText :=
    withRetry
      (fun w => (settled (openai_create svc (tick w) prompt), emit (EvClassify prompt) w))
      (retryLogging (lit "LLM")) in
  liftOutcome (parseVibeScores outputText).

End Client.

(** ** ingestCity.ts *)

Record Env := {
  SUPABASE_URL : option jsstring;
  SUPABASE_SERVICE_KEY : option jsstring;
  GOOGLE_PLACES_API_KEY : option jsstring;
  OPENAI_API_KEY : option jsstring
}.

(** [!x] for an environment variable: unset or empty. *)
Definition unset (x : option jsstring) : bool :=
  match x with
  | Some (_ :: _) => false
  | _ => true
  end.

(** [validateEnv]: [false] when the process exits with code 1. *)
Definition validateEnv (env : Env) : bool :=
  negb (unset (SUPABASE_URL env) || unset (SUPABASE_SERVICE_KEY env)
        || unset (GOOGLE_PLACES_API_KEY env) || unset (OPENAI_API_KEY env)).

(** [parseInt(s, 10)]; [None] is [NaN]. *)
Definition parseInt (s : jsstring) : option Z :=
  let s1 := dropWhile isWhiteSpace s in
  let '(neg, s2) :=
    match s1 with
    | 45%N :: r => (true, r)
    | 43%N :: r => (false, r)
    | _ => (false, s1)
    end in
  match takeWhile isDigit s2 with
  | [] => None
  | ds => Some (if neg then - digitsValue ds else digitsValue ds)
  end.

(** [args[args.indexOf(flag) + 1]]: [None] when the flag is absent,
    [Some None] when nothing follows its first occurrence. *)
Fixpoint argAfter (flag : jsstring) (args : list jsstring) : option (option jsstring) :=
  match args with
  | [] => None
  | a :: rest => if jsstring_eqb a flag then Some (head rest) else argAfter flag rest
  end.

(** [parseArgs] on [process.argv.slice(2)]; [None] when the process exits
    with code 1. *)
Definition parseArgs (args : list jsstring) : option CliOptions :=
  match args with
  | [] => None
  | a0 :: _ =>
      if startsWith a0 (lit "-") then None
      else
        let options :=
          {| citySlug := a0;
             force := bool_decide (lit "--force" ∈ args);
             dryRun := bool_decide (lit "--dry-run" ∈ args);
             limit := None |} in
        match argAfter (lit "--limit") args with
        | Some (Some (c :: v)) =>
            match parseInt (c :: v) with
            | Some n =>
                if n <=? 0 then None
                else Some {| citySlug := citySlug options; force := force options;
                             dryRun := dryRun options; limit := Some n |}
            | None => None
            end
        | _ => Some options
        end
  end.

(** [a.slice(0, n)] *)
Definition slice0 {A} (a : list A) (n : Z) : list A :=
  if 0 <=? n then take (Z.to_nat n) a
  else take (Z.to_nat (Z.of_nat (length a) + n)) a.

Record Summary := {
  processed : Z;
  succeeded : Z;
  failed : Z;
  cacheSize : nat;
  ledger : list FailedCell
}.

(** How [main] ends: the process exits early, the returned promise
    rejects (and the process exits from the [catch] of the last line),
    there was no cell to process, or the summary is printed. *)
Inductive RunResult :=
  | Exit (code : Z)
  | Rejected (t : Thrown)
  | NothingToDo
  | Completed (s : Summary).

Section Orchestrator.

Variable svc : Services.

(** [new Date()] read as a number. *)
Definition now : M Z := fun w => (Ok (date_now svc (tick w)), w).

(** [getCityId]; [None] when the process exits with code 1. *)
Definition getCityId (slug : jsstring) (w : World) : option jsstring * World :=
  (db_city svc (tick w) slug, emit (EvSelectCity slug) w).

(** The rows of [cell_vibes] whose cell is among [ids], as
    [existingVibes?.map(v => v.grid_cell_id) || []]. *)
Definition selectExistingVibes (ids : list jsstring) (w : World)
  : list jsstring * World :=
  (if db_select_vibes_fails svc (tick w) then []
   else grid_cell_id <$>
          List.filter (fun v => bool_decide (grid_cell_id v ∈ ids)) (cell_vibes w),
   emit (EvSelectVibes ids) w).

(** [getGridCells]; [None] when the process exits with code 1. *)
Definition getGridCells (cityId : jsstring) (options : CliOptions) (w : World)
  : option (list GridCell) * World :=
  let w1 := emit (EvRpcCentroids cityId) w in
  match db_centroids svc (tick w) cityId with
  | None => (None, w1)
  | Some centroidData =>
      let '(cellsWithCentroids, w2) :=
        if force options then (centroidData, w1)
        else
          let '(processedIds, w2) :=
            selectExistingVibes (cell_id <$> centroidData) w1 in
          (List.filter (fun c => negb (bool_decide (cell_id c ∈ processedIds)))
             centroidData, w2) in
      (Some (match limit options with
             | Some n => if n =? 0 then cellsWithCentroids else slice0 cellsWithCentroids n
             | None => cellsWithCentroids
             end), w2)
  end.

Definition setVenues (v : gmap jsstring VenueData) (w : World) : World :=
  {| detailsCache := detailsCache w; venues := v; cell_vibes := cell_vibes w;
     trace := trace w |}.

Definition setCellVibes (rows : list CellVibeData) (w : World) : World :=
  {| detailsCache := detailsCache w; venues := venues w; cell_vibes := rows;
     trace := trace w |}.

(** The effect of an accepted upsert with [onConflict: 'google_place_id']:
    a later row replaces an earlier one of the same place. *)
Definition upsertRows (rows : list VenueData) (table : gmap jsstring VenueData)
  : gmap jsstring VenueData :=
  fold_left (fun t row => <[google_place_id row := row]> t) rows table.

Definition upsertVenues (rows : list VenueData) (dryRun : bool) : M unit :=
  fun w =>
    if dryRun || bool_decide (rows = []) then (Ok tt, w)
    else
      let w1 := emit (EvUpsertVenues rows) w in
      match db_upsert_venues svc (tick w) rows with
      | Some _ => (Ok tt, w1)
      | None => (Ok tt, setVenues (upsertRows rows (venues w1)) w1)
      end.

Definition upsertCellVibes (vibes : CellVibeData) (dryRun : bool) : M unit :=
  fun w =>
    if dryRun then (Ok tt, w)
    else
      let w1 := emit (EvDeleteVibes (grid_cell_id vibes)) w in
      let w2 :=
        match db_delete_vibes svc (tick w) (grid_cell_id vibes) with
        | Some _ => w1
        | None =>
            setCellVibes
              (List.filter
                 (fun v => negb (jsstring_eqb (grid_cell_id v) (grid_cell_id vibes)))
                 (cell_vibes w1)) w1
        end in
      let w3 := emit (EvInsertVibes vibes) w2 in
      match db_insert_vibes svc (tick w2) vibes with
      | Some error => (Throw (TErr error), w3)
      | None => (Ok tt, setCellVibes (cell_vibes w3 ++ [vibes]) w3)
      end.

Definition saveFailedCells (failedCells : list FailedCell) : M unit :=
  match failedCells with
  | [] => ret tt
  | _ => perform (EvSaveFailedCells failedCells)
  end.

(** One row of [venueData]. *)
Definition toVenueData (cell : GridCell) (coords : Coords) (p : GooglePlace) : VenueData :=
  {| google_place_id := place_id p;
     v_grid_cell_id := cell_id cell;
     v_name := match displayName p with
               | Some (c :: t) => c :: t
               | _ => lit "Unknown"
               end;
     category := getPrimaryCategory (types p);
     v_rating := orNull (rating p);
     review_count := orNull (userRatingCount p);
     v_location := match location p with
                   | Some l => PointOfPlace (longitude l) (latitude l)
                   | None => PointOfCentroid (lng coords) (lat coords)
                   end |}.

(** The loop of step 7. *)
Fixpoint fetchTopDetails (topVenues : list GooglePlace)
  (placeDetails : list GooglePlaceDetails) : M (list GooglePlaceDetails) :=
  match topVenues with
  | [] => ret placeDetails
  | venue :: rest =>
      let* details := getPlaceDetails svc (place_id venue) in
      fetchTopDetails rest
        (match details with
         | Some d => placeDetails ++ [d]
         | None => placeDetails
         end)
  end.

(** Steps 6 to 10 of [processCell]: what follows the upsert of the
    venues. *)
Definition scoreCell (cell : GridCell) (options : CliOptions)
  (topVenues : list GooglePlace) : M unit :=
  match topVenues with
  | [] =>
      let* computed := now in
      upsertCellVibes
        {| grid_cell_id := cell_id cell; scores := emptyVibeScores;
           source_review_count := 0; model_name := None;
           computed_at := computed |}
        (dryRun options)
  | _ =>
      let* placeDetails := fetchTopDetails topVenues [] in
      let agg := aggregateReviews placeDetails in
      let* vibeScores :=
        match agg_text agg with
        | [] => ret emptyVibeScores
        | reviewText => scoreVibes svc reviewText
        end in
      let* computed := now in
      upsertCellVibes
        {| grid_cell_id := cell_id cell; scores := vibeScores;
           source_review_count := agg_count agg;
           model_name := match agg_text agg with
                         | [] => None
                         | _ => Some LLM_MODEL
                         end;
           computed_at := computed |}
        (dryRun options)
  end.

(** [processCell]; its steps 6 to 10 are [scoreCell]. *)
Definition processCell (cell : GridCell) (options : CliOptions) : M unit :=
  match parsePointWKT (centroid cell) with
  | None =>
      throw (TErr (mkError (lit "Failed to parse centroid for cell " ++ cell_id cell)))
  | Some coords =>
      let* allPlaces := searchAllTypes svc (lat coords) (lng coords) PLACE_TYPES in
      let qualifiedVenues := filterQualifiedVenues allPlaces MIN_REVIEW_COUNT in
      let rankedVenues := rankVenues qualifiedVenues in
      let topVenues := take TOP_VENUES_PER_CELL rankedVenues in
      let venueData := toVenueData cell coords <$> rankedVenues in
      let* _ := upsertVenues venueData (dryRun options) in
      scoreCell cell options topVenues
  end.

(** The [catch] of the loop of [main]. *)
Definition recordFailure (cell : GridCell) (failedCells : list FailedCell)
  (error : Thrown) : M (list FailedCell) :=
  match error with
  | TErr e =>
      let* stamp := now in
      ret (failedCells ++
             [{| cellId := cell_id cell; fc_error := message e; timestamp := stamp |}])
  | TNull => throw nullMessageError
  end.

(** The loop of [main] over [cells]; [total] is [cells.length] of the whole
    list. *)
Fixpoint processCells (options : CliOptions) (total : Z) (cells : list GridCell)
  (processed : Z) (failedCells : list FailedCell) : M (Z * list FailedCell) :=
  match cells with
  | [] => ret (processed, failedCells)
  | cell :: rest =>
      let processed' := processed + 1 in
      let* failedCells' :=
        tryCatch
          (let* _ := processCell cell options in ret failedCells)
          (recordFailure cell failedCells) in
      let* _ := if processed' <? total then sleep betweenCells_delayMs else ret tt in
      processCells options total rest processed' failedCells'
  end.

Definition main (env : Env) (args : list jsstring) (w : World) : RunResult * World :=
  if negb (validateEnv env) then (Exit 1, w)
  else
    match parseArgs args with
    | None => (Exit 1, w)
    | Some options =>
        match getCityId (citySlug options) w with
        | (None, w1) => (Exit 1, w1)
        | (Some cityId, w1) =>
            match getGridCells cityId options w1 with
            | (None, w2) => (Exit 1, w2)
            | (Some [], w2) => (NothingToDo, w2)
            | (Some cells, w2) =>
                match processCells options (Z.of_nat (length cells)) cells 0 [] w2 with
                | (Throw t, w3) => (Rejected t, w3)
                | (Ok (processed, failedCells), w3) =>
                    match saveFailedCells failedCells w3 with
                    | (_, w4) =>
                        (Completed
                           {| processed := processed;
                              succeeded := processed - Z.of_nat (length failedCells);
                              failed := Z.of_nat (length failedCells);
                              cacheSize := getCacheSize w3;
                              ledger := failedCells |}, w4)
                    end
                end
            end
        end
    end.

End Orchestrator.

(** ** Vocabulary of the specification *)

(** The snippet of a review: its trimmed text when that is not empty. *)
Definition snippetOf (r : Review) : option jsstring :=
  match review_text r with
  | Some t =>
      match trim t with
      | [] => None
      | s => Some s
      end
  | None => None
  end.

(** The non-empty snippets of a list of place details, in input order. *)
Definition snippetsOf (placeDetails : list GooglePlaceDetails) : list jsstring :=
  flat_map (fun p => match reviews p with
                     | Some rs => omap snippetOf rs
                     | None => []
                     end) placeDetails.

(** Snippets separated by a blank line. *)
Fixpoint joinBlank (ts : list jsstring) : jsstring :=
  match ts with
  | [] => []
  | [t] => t
  | t :: rest => t ++ blankLine ++ joinBlank rest
  end.

(** The length [aggregateReviews] accounts for a list of snippets: every
    snippet is counted with a separator after it, the last one too. *)
Fixpoint budgetUsed (ts : list jsstring) : Z :=
  match ts with
  | [] => 0
  | t :: rest => jslength t + 2 + budgetUsed rest
  end.

(** A snippet: not empty, no white space at either end. *)
Definition isSnippet (t : jsstring) : Prop :=
  exists c r, t = c :: r /\ isWhiteSpace c = false /\
  exists u d, t = u ++ [d] /\ isWhiteSpace d = false.

(** The contents of [aggregated] after the snippets [ts] were appended. *)
Fixpoint bufferOf (ts : list jsstring) : jsstring :=
  match ts with
  | [] => []
  | t :: rest => t ++ blankLine ++ bufferOf rest
  end.

Definition reviewOf (t : jsstring) : Review :=
  {| review_text := Some t; review_rating := None;
     relativePublishTimeDescription := None |}.

Definition placeWithReviews (pid : jsstring) (rs : list Review) : GooglePlaceDetails :=
  {| d_place := {| place_id := pid; displayName := None; rating := None;
                   userRatingCount := None; types := None; location := None |};
     reviews := Some rs |}.

(** A place whose only review is 7999 letters long. *)
Definition longReviewPlace : GooglePlaceDetails :=
  placeWithReviews (lit "p1") [reviewOf (repeat 97%N (Z.to_nat 7999))].

(** A missing number read as zero. *)
Definition valueOr0 (x : option Q) : Q :=
  match x with
  | Some v => v
  | None => 0%Q
  end.

(** The value of the composite score that the code computes for a
    venue. *)
Definition scoreValue (v : GooglePlace) : Q := valueOf (venueScore v).


(** The computed score of the venue is a finite number. *)
Definition finiteScore (v : GooglePlace) : Prop := isFinite (venueScore v) = true.



Definition venueWith (pid : jsstring) (r c : option Q) : GooglePlace :=
  {| place_id := pid; displayName := None; rating := r; userRatingCount := c;
     types := None; location := None |}.

(** The two venues of the ranking example. *)
Definition venueA : GooglePlace := venueWith (lit "A") (Some 5%Q) (Some 1%Q).
Definition venueB : GooglePlace := venueWith (lit "B") (Some 1%Q) (Some 100%Q).



(** The comparator [(a, b) => key(b) - key(a)] and the order it sorts to. *)
Definition byKeyDescending {A} (key : A -> Q) (a b : A) : Q := (key b - key a)%Q.

Definition keyDescending {A} (key : A -> Q) (a b : A) : Prop := (key b <= key a)%Q.

(** The prefix of [s] up to the brace that closes its first brace; braces
    inside string literals do not count. *)
Fixpoint balancedPrefix (s : jsstring) (depth : nat) (inString escaped : bool)
  (rev_acc : jsstring) : option jsstring :=
  match s with
  | [] => None
  | c :: r =>
      if inString then
        if escaped then balancedPrefix r depth true false (c :: rev_acc)
        else if (c =? 92)%N then balancedPrefix r depth true true (c :: rev_acc)
        else if (c =? 34)%N then balancedPrefix r depth false false (c :: rev_acc)
        else balancedPrefix r depth true false (c :: rev_acc)
      else if (c =? 34)%N then balancedPrefix r depth true false (c :: rev_acc)
      else if (c =? 123)%N then balancedPrefix r (S depth) false false (c :: rev_acc)
      else if (c =? 125)%N then
        match depth with
        | 0%nat => None
        | 1%nat => Some (rev (c :: rev_acc))
        | S d => balancedPrefix r d false false (c :: rev_acc)
        end
      else balancedPrefix r depth false false (c :: rev_acc)
  end.

(** The reading of the specification: the first balanced object substring
    of the raw output. *)
Definition spec_firstBalancedObject (text : jsstring) : option jsstring :=
  balancedPrefix (dropWhile (isNot 123) text) 0 false false [].

(** A dimension of the result comes from the parsed value [parsed]: it
    holds the rounding of a number of [parsed] that lies in the unit
    range. *)
Definition scoreComesFrom (parsed : json) (d : VibeDimension) (v : number) : Prop :=
  exists x, getProperty parsed (dimensionName d) = Ok (Some (JNum x)) /\
            inUnitRange x = true /\ v = roundTwoPlaces x.

(** The invariant of the data model on a score set. *)
Definition scoresInUnitRange (s : VibeScores) : Prop :=
  forall d v, getScore s d = Some v ->
    isFinite v = true /\ (0 <= valueOf v <= 1)%Q.

(** An output with a valid object followed by a second object. *)
Definition twoObjects : jsstring := litq "{'lively':0.5} and {'social':0.3}".

(** The example of the specification: prose, an object, an ellipsis. *)
Definition proseThenObject : jsstring :=
  lit "Some prose " ++ litq "{'lively':0.5,'social':2}" ++ lit "...".

Definition emptyWorld : World :=
  {| detailsCache := ∅; venues := ∅; cell_vibes := []; trace := [] |}.

(** An operation under a name: each invocation is recorded, then [fn]
    runs. *)
Definition invoking {T} (operation : jsstring) (fn : M T) : M T :=
  fun w => fn (emit (EvInvoke operation) w).

Definition isAttemptOrWait (e : Event) : bool :=
  match e with
  | EvInvoke _ | EvSleep _ => true
  | _ => false
  end.

(** The invocations and the waits of a trace, in order. *)
Definition attemptsAndWaits (tr : list Event) : list Event :=
  List.filter isAttemptOrWait tr.

Definition isInvoke (e : Event) : bool :=
  match e with
  | EvInvoke _ => true
  | _ => false
  end.

(** The number of invocations in a trace. *)
Definition invocations (tr : list Event) : Z :=
  Z.of_nat (length (List.filter isInvoke tr)).

(** A computation that itself neither invokes a named operation nor
    waits. *)
Definition quiet {A} (m : M A) : Prop :=
  forall w, attemptsAndWaits (trace (snd (m w))) = attemptsAndWaits (trace w).

(** The observer of the retries returns, and is quiet. *)
Definition observerReturns (options : RetryOptions) : Prop :=
  forall attempt e w,
    exists w', callOnRetry options attempt e w = (Ok tt, w') /\
               attemptsAndWaits (trace w') = attemptsAndWaits (trace w).

(** The retries number [first], [first + 1], ... ([count] of them): retry
    [k] is a wait of [min (initialDelayMs * 2 ^ (k - 1)) maxDelayMs]
    followed by an invocation. *)
Definition retriesFrom (cfg : RetryConfig) (operation : jsstring) (first count : nat)
  : list Event :=
  flat_map
    (fun k => [EvSleep (Z.min (initialDelayMs cfg * 2 ^ (Z.of_nat k - 1)) (maxDelayMs cfg));
               EvInvoke operation])
    (seq first count).

(** An operation that fails with the status [st] every time. *)
Definition alwaysStatus (st : Z) : M unit :=
  throw (TErr {| message := lit "HTTP " ++ string_of_Z st ++ lit ": "; status := Some st |}).

Definition plainRetry : RetryOptions := {| retryConfig := RETRY_CONFIG; onRetry := None |}.

(** A computation that throws nothing but [Error] objects. *)
Definition throwsOnlyErrors {A} (m : M A) : Prop :=
  forall w, fst (m w) <> Throw TNull.

(** A computation that never throws. *)
Definition returns {A} (m : M A) : Prop :=
  forall w, exists a, fst (m w) = Ok a.

(** A computation that takes every world to one related to it by [R]. *)
Definition preserves {A} (R : World -> World -> Prop) (m : M A) : Prop :=
  forall w, R w (snd (m w)).

(** The inter-cell delay of the loop of [main], after cell number
    [processed] of [total]. *)
Definition pauseBetweenCells (processed total : Z) (w : World) : World :=
  if processed <? total then emit (EvSleep betweenCells_delayMs) w else w.

(** The record the loop of [main] appends for a cell that failed with [e],
    read at world [w]. *)
Definition failureRecord (svc : Services) (cell : GridCell) (e : Error) (w : World)
  : FailedCell :=
  {| cellId := cell_id cell; fc_error := message e; timestamp := date_now svc (tick w) |}.

(** The in-run cache only grows: an entry, once stored, stays as it is. *)
Definition cacheGrows (w w' : World) : Prop :=
  forall placeId d, detailsCache w !! placeId = Some d ->
                    detailsCache w' !! placeId = Some d.

(** The effects a computation adds to the trace all satisfy [P]. *)
Definition traceAdds (P : Event -> Prop) (w w' : World) : Prop :=
  exists added, trace w' = trace w ++ added /\ Forall P added.

(** What a computation may do to the world: the cache only grows, and the
    effects it adds to the trace all satisfy [P]. *)
Definition footprint (P : Event -> Prop) (w w' : World) : Prop :=
  cacheGrows w w' /\ traceAdds P w w'.

(** A footprint that leaves the cache as it is. *)
Definition cacheKept (P : Event -> Prop) (w w' : World) : Prop :=
  detailsCache w' = detailsCache w /\ traceAdds P w w'.

(** A relation between the worlds before and after a computation that
    composes, and that holds of the emission of an effect of [P]. *)
Class Effects (R : World -> World -> Prop) (P : Event -> Prop) : Prop := {
  effects_refl : forall w, R w w;
  effects_trans : forall a b c, R a b -> R b c -> R a c;
  effects_emit : forall e w, P e -> R w (emit e w)
}.

(** The waits and the log lines of the retry executor. *)
Definition retryNoise (e : Event) : Prop :=
  match e with
  | EvSleep _ | EvRetryLog _ _ _ => True
  | _ => False
  end.

(** The effects of the search step. *)
Definition searchEvent (e : Event) : Prop :=
  match e with
  | EvAcquire PlacesLimiter | EvFetchNearby _ _ _ => True
  | _ => retryNoise e
  end.

(** The effects of detail lookups for the places [ids]. *)
Definition detailsEvent (ids : list jsstring) (e : Event) : Prop :=
  match e with
  | EvAcquire PlacesLimiter => True
  | EvFetchDetails placeId => placeId ∈ ids
  | _ => retryNoise e
  end.

(** The effects of the classifier call. *)
Definition scoringEvent (e : Event) : Prop :=
  match e with
  | EvAcquire OpenAILimiter | EvClassify _ => True
  | _ => retryNoise e
  end.

(** The effects of writing the score of the cell [cellId]. *)
Definition vibesWrite (cellId : jsstring) (e : Event) : Prop :=
  match e with
  | EvDeleteVibes c => c = cellId
  | EvInsertVibes row => grid_cell_id row = cellId
  | _ => False
  end.

(** The venue rows a trace sends to the store. *)
Definition upsertedRows (tr : list Event) : list VenueData :=
  flat_map (fun e => match e with
                     | EvUpsertVenues rows => rows
                     | _ => []
                     end) tr.

(** The detail fetches of a trace for one place. *)
Definition detailFetches (placeId : jsstring) (tr : list Event) : nat :=
  length (List.filter (fun e => match e with
                                | EvFetchDetails p => jsstring_eqb p placeId
                                | _ => false
                                end) tr).

(** The effects of steps 6 to 10 for the cell [cellId] and the top venues
    [ids]. *)
Definition scoreCellEvent (cellId : jsstring) (ids : list jsstring) (e : Event) : Prop :=
  detailsEvent ids e \/ scoringEvent e \/ vibesWrite cellId e.

Definition anyEvent (e : Event) : Prop := True.

(** A catalog that answers every detail request with the status [st]. *)
Definition detailsAlways (st : Z) : Services :=
  {| http_nearby := fun _ _ _ _ =>
       Responds {| resp_status := 200; resp_text := [];
                   resp_json := inr {| places := None |} |};
     http_details := fun _ _ =>
       Responds {| resp_status := st; resp_text := lit "no";
                   resp_json := inl (mkError (lit "not JSON")) |};
     openai_create := fun _ _ => inr [];
     db_city := fun _ _ => None;
     db_centroids := fun _ _ => None;
     db_select_vibes_fails := fun _ => false;
     db_upsert_venues := fun _ _ => None;
     db_delete_vibes := fun _ _ => None;
     db_insert_vibes := fun _ _ => None;
     date_now := fun n => Z.of_nat n |}.

(** A catalog that finds every place, without reviews. *)
Definition detailsFound : Services :=
  {| http_nearby := http_nearby (detailsAlways 200);
     http_details := fun _ placeId =>
       Responds {| resp_status := 200; resp_text := [];
                   resp_json := inr (placeWithReviews placeId []) |};
     openai_create := openai_create (detailsAlways 200);
     db_city := db_city (detailsAlways 200);
     db_centroids := db_centroids (detailsAlways 200);
     db_select_vibes_fails := db_select_vibes_fails (detailsAlways 200);
     db_upsert_venues := db_upsert_venues (detailsAlways 200);
     db_delete_vibes := db_delete_vibes (detailsAlways 200);
     db_insert_vibes := db_insert_vibes (detailsAlways 200);
     date_now := date_now (detailsAlways 200) |}.

(** The world after [n] calls of [getPlaceDetails] for the same place. *)
Fixpoint afterLookups (svc : Services) (placeId : jsstring) (n : nat) (w : World) : World :=
  match n with
  | O => w
  | S n' => snd (getPlaceDetails svc placeId (afterLookups svc placeId n' w))
  end.

(** A catalog whose every search finds [found]; no detail is available,
    and the store accepts every write. *)
Definition catalogWith (found : list GooglePlace) : Services :=
  {| http_nearby := fun _ _ _ _ =>
       Responds {| resp_status := 200; resp_text := [];
                   resp_json := inr {| places := Some found |} |};
     http_details := http_details (detailsAlways 404);
     openai_create := openai_create (detailsAlways 404);
     db_city := db_city (detailsAlways 404);
     db_centroids := db_centroids (detailsAlways 404);
     db_select_vibes_fails := db_select_vibes_fails (detailsAlways 404);
     db_upsert_venues := fun _ _ => None;
     db_delete_vibes := fun _ _ => None;
     db_insert_vibes := fun _ _ => None;
     date_now := date_now (detailsAlways 404) |}.

(** A venue with five ratings: below the qualification threshold. *)
Definition smallVenue : GooglePlace := venueWith (lit "small") (Some 4%Q) (Some 5%Q).

Definition sampleCell : GridCell :=
  {| cell_id := lit "c0"; city_id := lit "city"; centroid := lit "POINT(1 2)" |}.

Definition sampleCoords : Coords := {| lat := Some 2%Q; lng := Some 1%Q |}.

(** The options of a plain run: no force, no dry run, no limit. *)
Definition plainOptions : CliOptions :=
  {| citySlug := lit "san-francisco"; force := false; dryRun := false; limit := None |}.

Definition storeError : Error := mkError (lit "permission denied").

(** The catalog of [catalogWith], with a store that rejects the venue
    upserts when [rejectVenues] and the score inserts when
    [rejectVibes]. *)
Definition withStore (found : list GooglePlace) (rejectVenues rejectVibes : bool)
  : Services :=
  {| http_nearby := http_nearby (catalogWith found);
     http_details := http_details (catalogWith found);
     openai_create := openai_create (catalogWith found);
     db_city := db_city (catalogWith found);
     db_centroids := db_centroids (catalogWith found);
     db_select_vibes_fails := db_select_vibes_fails (catalogWith found);
     db_upsert_venues := fun _ _ => if rejectVenues then Some storeError else None;
     db_delete_vibes := fun _ _ => None;
     db_insert_vibes := fun _ _ => if rejectVibes then Some storeError else None;
     date_now := date_now (catalogWith found) |}.

(** A store that knows the cells [cells] of every city, none of them
    scored. *)
Definition gridOf (cells : list GridCell) : Services :=
  {| http_nearby := http_nearby (catalogWith []);
     http_details := http_details (catalogWith []);
     openai_create := openai_create (catalogWith []);
     db_city := fun _ _ => Some (lit "city");
     db_centroids := fun _ _ => Some cells;
     db_select_vibes_fails := fun _ => false;
     db_upsert_venues := fun _ _ => None;
     db_delete_vibes := fun _ _ => None;
     db_insert_vibes := fun _ _ => None;
     date_now := date_now (catalogWith []) |}.

Definition cellNamed (n : string) : GridCell :=
  {| cell_id := lit n; city_id := lit "city"; centroid := lit "POINT(1 2)" |}.

(** The cells that have no score yet, in the order of the store. *)
Definition unscored (w : World) (cells : list GridCell) : list GridCell :=
  List.filter
    (fun c => negb (bool_decide (cell_id c ∈ grid_cell_id <$> cell_vibes w))) cells.

(** A cell whose centroid is not a point. *)
Definition brokenCell : GridCell :=
  {| cell_id := lit "broken"; city_id := lit "city"; centroid := lit "0101000020E6100000" |}.

Definition sampleEnv : Env :=
  {| SUPABASE_URL := Some (lit "u"); SUPABASE_SERVICE_KEY := Some (lit "k");
     GOOGLE_PLACES_API_KEY := Some (lit "g"); OPENAI_API_KEY := Some (lit "o") |}.

(** The elements whose key is [q]. *)
Definition hasKey {A} (key : A -> Q) (q : Q) (v : A) : bool := Qeq_bool (key v) q.

(** ** Vocabulary of the retry properties *)

(** The milliseconds waited in a trace. *)
Definition totalWait (tr : list Event) : Z :=
  fold_right (fun e acc => match e with EvSleep ms => ms + acc | _ => acc end) 0 tr.

(** An operation that fails with the status [st] as long as the trace
    holds at most [k] invocations, and returns [v] afterwards. *)
Definition failsUntil {T} (k st : Z) (v : T) : M T :=
  fun w =>
    if invocations (trace w) <=? k
    then (Throw (TErr {| message := lit "HTTP " ++ string_of_Z st ++ lit ": ";
                         status := Some st |}), w)
    else (Ok v, w).

(** The characters of the prefix [HTTP <status>: ]. *)
Definition isPrefixChar (c : N) : bool :=
  isDigit c || bool_decide (c ∈ [72; 84; 80; 32; 45; 58]%N).

(** ** rateLimiter.ts: the token bucket

    [Date.now()] is an input: every [refill] takes the reading of the
    clock.  The rate is positive in every use; with a rate of zero the
    division of [acquire] is not the one of the source. *)

Module RateLimiter.

Record t := {
  tokens : Q;
  lastRefill : Z;
  maxTokens : Q;
  refillRate : Q
}.

(** [new RateLimiter(requestsPerSecond)], the clock reading [now]. *)
Definition new (requestsPerSecond : Q) (now : Z) : t :=
  {| tokens := requestsPerSecond;
     lastRefill := now;
     maxTokens := requestsPerSecond;
     refillRate := (requestsPerSecond / 1000)%Q |}.

Definition refill (l : t) (now : Z) : t :=
  let elapsed := now - lastRefill l in
  let newTokens := (inject_Z elapsed * refillRate l)%Q in
  {| tokens := Qmin (maxTokens l) (tokens l + newTokens)%Q;
     lastRefill := now;
     maxTokens := maxTokens l;
     refillRate := refillRate l |}.

Definition takeToken (l : t) : t :=
  {| tokens := (tokens l - 1)%Q;
     lastRefill := lastRefill l;
     maxTokens := maxTokens l;
     refillRate := refillRate l |}.

Definition Math_ceil (x : Q) : Z := Qceiling x.

(** [acquire()]: [now] is the reading of the first [refill], [woke] the
    reading of the second one, after the sleep.  The result is the new
    state and the time slept for, if any. *)
Definition acquire (l : t) (now woke : Z) : t * option Z :=
  let l1 := refill l now in
  if Qle_bool 1 (tokens l1) then (takeToken l1, None)
  else
    let tokensNeeded := (1 - tokens l1)%Q in
    let waitMs := Math_ceil (tokensNeeded / refillRate l1)%Q in
    (takeToken (refill l1 woke), Some waitMs).

(** Acquisitions one after the other, each with its two clock readings. *)
Fixpoint acquireAll (l : t) (clock : list (Z * Z)) : t :=
  match clock with
  | [] => l
  | (now, woke) :: rest => acquireAll (fst (acquire l now woke)) rest
  end.

(** The times slept for in these acquisitions. *)
Fixpoint waits (l : t) (clock : list (Z * Z)) : list Z :=
  match clock with
  | [] => []
  | (now, woke) :: rest =>
      match snd (acquire l now woke) with
      | Some ms => [ms]
      | None => []
      end ++ waits (fst (acquire l now woke)) rest
  end.

(** The clock of a run: it never goes back, and a sleep lasts at least as
    long as asked. *)
Fixpoint timely (l : t) (clock : list (Z * Z)) : Prop :=
  match clock with
  | [] => True
  | (now, woke) :: rest =>
      lastRefill l <= now /\
      match snd (acquire l now woke) with
      | Some ms => now + ms <= woke
      | None => True
      end /\
      timely (fst (acquire l now woke)) rest
  end.

End RateLimiter.


(** ** Vocabulary of the centroid properties *)

(** A hexadecimal digit, as in the hexadecimal form of a geometry. *)
Definition isHexDigit (c : N) : bool :=
  (isDigit c || (65 <=? c) && (c <=? 70) || (97 <=? c) && (c <=? 102))%N.

(** A store that delivers the cells and fails to look up their scores. *)
Definition lookupFails (cells : list GridCell) : Services :=
  {| http_nearby := http_nearby (gridOf cells);
     http_details := http_details (gridOf cells);
     openai_create := openai_create (gridOf cells);
     db_city := db_city (gridOf cells);
     db_centroids := db_centroids (gridOf cells);
     db_select_vibes_fails := fun _ => true;
     db_upsert_venues := db_upsert_venues (gridOf cells);
     db_delete_vibes := db_delete_vibes (gridOf cells);
     db_insert_vibes := db_insert_vibes (gridOf cells);
     date_now := date_now (gridOf cells) |}.

(** ** Vocabulary of the store properties *)

(** The rows of a table of scores for one cell, and the rows for the
    other cells. *)
Definition rowsOf (cellId : jsstring) (rows : list CellVibeData) : list CellVibeData :=
  List.filter (fun v => jsstring_eqb (grid_cell_id v) cellId) rows.

Definition rowsNotOf (cellId : jsstring) (rows : list CellVibeData) : list CellVibeData :=
  List.filter (fun v => negb (jsstring_eqb (grid_cell_id v) cellId)) rows.

(** A row without scores for the cell [n], computed at [stamp]. *)
Definition blankRow (n : string) (stamp : Z) : CellVibeData :=
  {| grid_cell_id := lit n; scores := emptyVibeScores; source_review_count := 0;
     model_name := None; computed_at := stamp |}.

(** A world in which the table of scores holds [rows]. *)
Definition worldWith (rows : list CellVibeData) : World :=
  {| detailsCache := ∅; venues := ∅; cell_vibes := rows; trace := [] |}.

(** The store of [catalogWith], rejecting the deletions when
    [rejectDelete] and the insertions of scores when [rejectInsert]. *)
Definition vibesStore (rejectDelete rejectInsert : bool) : Services :=
  {| http_nearby := http_nearby (catalogWith []);
     http_details := http_details (catalogWith []);
     openai_create := openai_create (catalogWith []);
     db_city := db_city (catalogWith []);
     db_centroids := db_centroids (catalogWith []);
     db_select_vibes_fails := db_select_vibes_fails (catalogWith []);
     db_upsert_venues := db_upsert_venues (catalogWith []);
     db_delete_vibes := fun _ _ => if rejectDelete then Some storeError else None;
     db_insert_vibes := fun _ _ => if rejectInsert then Some storeError else None;
     date_now := date_now (catalogWith []) |}.

(** The two tables are as they were, and the trace has grown by events
    that satisfy [P]. *)
Definition tablesKept (P : Event -> Prop) (w w' : World) : Prop :=
  venues w' = venues w /\ cell_vibes w' = cell_vibes w /\ traceAdds P w w'.

(** Every event but the requests that change a table. *)
Definition notStoreWrite (e : Event) : Prop :=
  match e with
  | EvUpsertVenues _ | EvDeleteVibes _ | EvInsertVibes _ => False
  | _ => True
  end.

(** The lookups that precede the processing of the cells. *)
Definition lookupEvent (e : Event) : Prop :=
  match e with
  | EvSelectCity _ | EvRpcCentroids _ | EvSelectVibes _ => True
  | _ => False
  end.

(** ** Vocabulary of the cost properties *)

(** The number of events of a trace that [p] selects. *)
Definition countOf (p : Event -> bool) (tr : list Event) : nat :=
  length (List.filter p tr).

(** A computation that adds at most [n] events selected by [p] to the
    trace, however it ends. *)
Definition spends {A} (p : Event -> bool) (n : nat) (m : M A) : Prop :=
  forall w, exists added,
    trace (snd (m w)) = trace w ++ added /\ (countOf p added <= n)%nat.

Definition isNearbyFetch (e : Event) : bool :=
  match e with
  | EvFetchNearby _ _ _ => true
  | _ => false
  end.

Definition isDetailsFetch (e : Event) : bool :=
  match e with
  | EvFetchDetails _ => true
  | _ => false
  end.

Definition isClassify (e : Event) : bool :=
  match e with
  | EvClassify _ => true
  | _ => false
  end.

Definition isAcquire (l : Limiter) (e : Event) : bool :=
  match e, l with
  | EvAcquire PlacesLimiter, PlacesLimiter => true
  | EvAcquire OpenAILimiter, OpenAILimiter => true
  | _, _ => false
  end.

(** ** Vocabulary of the rows of scores *)

(** A row of scores as [processCell] may write it for the cell [cellId]:
    every score is absent or between 0 and 1; a row without a model has no
    score; a row with a model names [LLM_MODEL] and rests on at least one
    review. *)
Definition wellFormedRow (cellId : jsstring) (row : CellVibeData) : Prop :=
  grid_cell_id row = cellId /\
  scoresInUnitRange (scores row) /\
  0 <= source_review_count row /\
  (model_name row = None -> scores row = emptyVibeScores) /\
  (forall m, model_name row = Some m -> m = LLM_MODEL /\ 0 < source_review_count row).

(** The rows of scores inserted satisfy [Q]. *)
Definition insertsOnly (Q : CellVibeData -> Prop) (e : Event) : Prop :=
  match e with
  | EvInsertVibes row => Q row
  | _ => True
  end.

(** A catalogue that answers every nearby search with the status [st]. *)
Definition catalogDown (st : Z) : Services :=
  {| http_nearby := fun _ _ _ _ =>
       Responds {| resp_status := st; resp_text := lit "down";
                   resp_json := inl (mkError (lit "not JSON")) |};
     http_details := http_details (catalogWith []);
     openai_create := openai_create (catalogWith []);
     db_city := db_city (catalogWith []);
     db_centroids := db_centroids (catalogWith []);
     db_select_vibes_fails := db_select_vibes_fails (catalogWith []);
     db_upsert_venues := db_upsert_venues (catalogWith []);
     db_delete_vibes := db_delete_vibes (catalogWith []);
     db_insert_vibes := db_insert_vibes (catalogWith []);
     date_now := date_now (catalogWith []) |}.

(* ================================================================= *)
(** * Part II: properties *)
(* ================================================================= *)

(** ** Rounding to binary64 *)

Lemma digits2_pos_bounds m :
  2 ^ (Zpos (digits2_pos m) - 1) <= Zpos m < 2 ^ Zpos (digits2_pos m).
Proof.
  induction m as [m IH|m IH|]; cbn [digits2_pos].
  - rewrite Pos2Z.inj_succ.
    replace (Z.succ (Zpos (digits2_pos m)) - 1) with (Z.succ (Zpos (digits2_pos m) - 1)) by lia.
    rewrite !Z.pow_succ_r by lia. lia.
  - rewrite Pos2Z.inj_succ.
    replace (Z.succ (Zpos (digits2_pos m)) - 1) with (Z.succ (Zpos (digits2_pos m) - 1)) by lia.
    rewrite !Z.pow_succ_r by lia. lia.
  - cbn. lia.
Qed.

Lemma shr_1_m mrs : 0 <= shr_m mrs -> shr_m (shr_1 mrs) = shr_m mrs / 2.
Proof.
  destruct mrs as [m r s]. cbn [shr_m shr_1]. intros Hm.
  destruct m as [|[p|p|]|p]; cbn [shr_m].
  - reflexivity.
  - apply Z.div_unique with 1; lia.
  - apply Z.div_unique with 0; lia.
  - reflexivity.
  - lia.
Qed.

Lemma shifted_shr_1 M k mrs :
  0 <= M -> 0 <= k -> shifted M k mrs -> shifted M (k + 1) (shr_1 mrs).
Proof.
  intros HM Hk [Hm Hex]. split.
  - rewrite shr_1_m, Hm by (rewrite Hm; apply Z.div_pos; lia).
    rewrite Z.pow_add_r, Z.pow_1_r by lia. now rewrite Z.div_div by lia.
  - intros Hmod.
    assert (2 ^ (k + 1) = 2 ^ k * 2) as E by (rewrite Z.pow_add_r by lia; lia).
    assert (0 < 2 ^ k) as Hp by (apply Z.pow_pos_nonneg; lia).
    assert (M mod 2 ^ k = 0 /\ (M / 2 ^ k) mod 2 = 0) as [H1 H2].
    { rewrite E in Hmod. rewrite Z.rem_mul_r in Hmod by lia.
      pose proof (Z.mod_pos_bound M (2 ^ k) Hp).
      pose proof (Z.mod_pos_bound (M / 2 ^ k) 2 ltac:(lia)). nia. }
    destruct (Hex H1) as [Hr Hs].
    destruct mrs as [m r s]. cbn [shr_m shr_r shr_s] in *. subst r s m.
    pose proof (Z.div_pos M (2 ^ k) HM Hp) as Hq.
    destruct (M / 2 ^ k) as [|[p|p|]|p] eqn:Eq; cbn; auto; try lia;
      exfalso; apply (proj1 (Zmod_divides _ 2 ltac:(lia))) in H2;
      destruct H2 as [c Hc]; lia.
Qed.

Lemma shifted_iter M p : forall k mrs,
  0 <= M -> 0 <= k -> shifted M k mrs -> shifted M (k + Zpos p) (SpecFloat.iter_pos shr_1 p mrs).
Proof.
  induction p as [p IH|p IH|]; intros k mrs HM Hk H; cbn [SpecFloat.iter_pos].
  - replace (k + Zpos p~1) with (k + 1 + Zpos p + Zpos p) by lia.
    apply IH; [lia|lia|]. apply IH; [lia|lia|]. now apply shifted_shr_1.
  - replace (k + Zpos p~0) with (k + Zpos p + Zpos p) by lia.
    apply IH; [lia|lia|]. now apply IH.
  - now apply shifted_shr_1.
Qed.

Lemma shifted_shr M e n :
  0 <= M ->
  shifted M (Z.max 0 n) (fst (shr (shr_record_of_loc M loc_Exact) e n)) /\
  snd (shr (shr_record_of_loc M loc_Exact) e n) = e + Z.max 0 n.
Proof.
  intros HM.
  assert (shifted M 0 (shr_record_of_loc M loc_Exact)) as H0.
  { split; cbn; [now rewrite Z.div_1_r|auto]. }
  destruct n as [|p|p]; cbn [shr fst snd].
  - split; [exact H0|lia].
  - split; [|lia]. replace (Z.max 0 (Zpos p)) with (0 + Zpos p) by lia.
    apply shifted_iter; [exact HM|lia|exact H0].
  - split; [exact H0|lia].
Qed.

Lemma round_nearest_even_bounds mrs :
  shr_m mrs <= round_nearest_even (shr_m mrs) (loc_of_shr_record mrs) <= shr_m mrs + 1 /\
  (shr_r mrs = false /\ shr_s mrs = false ->
   round_nearest_even (shr_m mrs) (loc_of_shr_record mrs) = shr_m mrs).
Proof.
  destruct mrs as [m [|] [|]]; cbn [shr_m shr_r shr_s loc_of_shr_record round_nearest_even].
  - split; [lia|]. intros [H _]. discriminate.
  - split; [destruct (Z.even m); lia|]. intros [H _]. discriminate.
  - split; [lia|]. intros [_ H]. discriminate.
  - split; [lia|reflexivity].
Qed.

(** The shape of a rounded result: the mantissa is shifted right by [n]
    bits, rounded to an integer next to it, and shifted once more if the
    rounding carried. *)
Lemma binary_round_aux_shape s (M : positive) e :
  exists m2,
    Zpos M / 2 ^ Z.max 0 (fexp prec emax (Zdigits2 (Zpos M) + e) - e) <= m2
    <= Zpos M / 2 ^ Z.max 0 (fexp prec emax (Zdigits2 (Zpos M) + e) - e) + 1 /\
    (Zpos M mod 2 ^ Z.max 0 (fexp prec emax (Zdigits2 (Zpos M) + e) - e) = 0 ->
     m2 = Zpos M / 2 ^ Z.max 0 (fexp prec emax (Zdigits2 (Zpos M) + e) - e)) /\
    binary_round_aux prec emax s (Zpos M) e loc_Exact
    = let e1 := e + Z.max 0 (fexp prec emax (Zdigits2 (Zpos M) + e) - e) in
      let n2 := Z.max 0 (fexp prec emax (Zdigits2 m2 + e1) - e1) in
      match m2 / 2 ^ n2 with
      | Z0 => S754_zero s
      | Zpos m3 =>
          if e1 + n2 <=? emax - prec then S754_finite s m3 (e1 + n2) else S754_infinity s
      | Zneg _ => S754_nan
      end.
Proof.
  set (n := Z.max 0 (fexp prec emax (Zdigits2 (Zpos M) + e) - e)).
  unfold binary_round_aux, shr_fexp.
  destruct (shifted_shr (Zpos M) e (fexp prec emax (Zdigits2 (Zpos M) + e) - e)
              ltac:(lia)) as [[Hm Hex] He].
  fold n in Hm, Hex, He.
  destruct (shr (shr_record_of_loc (Zpos M) loc_Exact) e
              (fexp prec emax (Zdigits2 (Zpos M) + e) - e)) as [mrs1 e1].
  cbn [fst snd] in *. subst e1.
  destruct (round_nearest_even_bounds mrs1) as [Hb Heq].
  set (m2 := round_nearest_even (shr_m mrs1) (loc_of_shr_record mrs1)) in *.
  exists m2. rewrite <- Hm. split; [exact Hb|]. split; [intros H; apply Heq, Hex, H|].
  assert (0 <= m2) as Hm2.
  { assert (0 <= Zpos M / 2 ^ n) by (apply Z.div_pos; [lia|apply Z.pow_pos_nonneg; lia]).
    lia. }
  destruct (shifted_shr m2 (e + n) (fexp prec emax (Zdigits2 m2 + (e + n)) - (e + n)) Hm2)
    as [[Hm3 _] He3].
  destruct (shr (shr_record_of_loc m2 loc_Exact) (e + n)
              (fexp prec emax (Zdigits2 m2 + (e + n)) - (e + n))) as [mrs2 e2].
  cbn [fst snd] in *. subst e2. rewrite Hm3. reflexivity.
Qed.

Lemma valueOf_scaled s m e : valueOf (S754_finite s m e) = scaled (cond_Zopp s (Zpos m)) e.
Proof. destruct e; reflexivity. Qed.

Lemma scaled_compare z z' e : (scaled z e ?= scaled z' e)%Q = (z ?= z').
Proof.
  destruct e as [|p|p]; unfold Qcompare; cbn [scaled inject_Z Qnum Qden].
  - rewrite !Z.mul_1_r. reflexivity.
  - rewrite !Z.mul_1_r. symmetry. apply Zmult_compare_compat_r.
    apply Z.lt_gt, Z.pow_pos_nonneg; lia.
  - symmetry. apply Zmult_compare_compat_r. lia.
Qed.

Lemma scaled_le z z' e : (scaled z e <= scaled z' e)%Q <-> z <= z'.
Proof. rewrite Qle_alt, scaled_compare. reflexivity. Qed.

Lemma scaled_lt z z' e : (scaled z e < scaled z' e)%Q <-> z < z'.
Proof. rewrite Qlt_alt, scaled_compare. reflexivity. Qed.

Lemma scaled_0 e : (scaled 0 e == 0)%Q.
Proof. destruct e; reflexivity. Qed.

Lemma pow2_pos k : 0 <= k -> 0 < 2 ^ k.
Proof. intros. apply Z.pow_pos_nonneg; lia. Qed.

Lemma Zdigits2_bounds m :
  0 < m -> 2 ^ (Zdigits2 m - 1) <= m < 2 ^ Zdigits2 m /\ 1 <= Zdigits2 m.
Proof.
  destruct m as [|p|p]; try lia. intros _. cbn [Zdigits2].
  split; [apply digits2_pos_bounds|lia].
Qed.

(** A mantissa shifted by fewer bits than it has stays positive. *)
Lemma shift_keeps m n :
  0 < m -> 0 <= n <= Zdigits2 m - 1 -> 1 <= m / 2 ^ n.
Proof.
  intros Hm Hn. destruct (Zdigits2_bounds m Hm) as [[Hlo _] _].
  apply Z.div_le_lower_bound; [now apply pow2_pos|].
  rewrite Z.mul_1_r. etransitivity; [|exact Hlo].
  apply Z.pow_le_mono_r; lia.
Qed.

(** A rounded result has the sign it was given and an exponent of
    binary64. *)
Lemma binary_round_aux_finite s M e s' m' e' :
  binary_round_aux prec emax s (Zpos M) e loc_Exact = S754_finite s' m' e' ->
  s' = s /\ -1074 <= e'.
Proof.
  destruct (binary_round_aux_shape s M e) as (m2 & _ & _ & ->). cbv zeta.
  destruct (m2 / 2 ^ _) as [|m3|m3]; [discriminate| |discriminate].
  destruct (_ <=? _); [|discriminate]. intros [= <- _ <-].
  split; [reflexivity|]. unfold fexp, emin, prec, emax. lia.
Qed.

(** A positive integer at an exponent of binary64 does not round to
    zero. *)
Lemma binary_round_aux_nonzero s M e :
  -1074 <= e ->
  (exists m' e', binary_round_aux prec emax s (Zpos M) e loc_Exact = S754_finite s m' e')
  \/ binary_round_aux prec emax s (Zpos M) e loc_Exact = S754_infinity s.
Proof.
  intros He. destruct (binary_round_aux_shape s M e) as (m2 & Hm2 & _ & ->). cbv zeta.
  destruct (Zdigits2_bounds (Zpos M) ltac:(lia)) as [HM Hd].
  set (n := Z.max 0 (fexp prec emax (Zdigits2 (Zpos M) + e) - e)) in *.
  assert (1 <= Zpos M / 2 ^ n) as H1.
  { apply shift_keeps; [lia|]. unfold n, fexp, emin, prec, emax. lia. }
  assert (0 < m2) as Hpos by lia.
  destruct (Zdigits2_bounds m2 Hpos) as [_ Hd2].
  assert (1 <= m2 / 2 ^ Z.max 0 (fexp prec emax (Zdigits2 m2 + (e + n)) - (e + n))) as H3.
  { apply shift_keeps; [lia|]. unfold n, fexp, emin, prec, emax. lia. }
  destruct (m2 / 2 ^ _) as [|m3|m3]; [lia| |lia].
  destruct (_ <=? _); [left; now do 2 eexists|now right].
Qed.

Lemma scaled_bounds z e K :
  e <= 0 -> 0 <= z <= K * 2 ^ (- e) -> (0 <= scaled z e <= inject_Z K)%Q.
Proof.
  intros He Hz. destruct e as [|p|p]; [| lia |]; cbn [scaled].
  - cbn in Hz. rewrite Z.mul_1_r in *. rewrite <- !Zle_Qle.
    change 0%Q with (inject_Z 0). rewrite <- Zle_Qle. lia.
  - unfold Qle. cbn [Qnum Qden inject_Z]. rewrite Pos2Z.inj_pow.
    change (- Zneg p) with (Zpos p) in Hz. lia.
Qed.

Lemma digits_sum_le m e b :
  0 < m -> 0 <= b - e -> m <= 2 ^ (b - e) -> Zdigits2 m + e <= b + 1.
Proof.
  intros Hm Hb Hle. destruct (Zdigits2_bounds m Hm) as [[Hlo _] Hd].
  assert (2 ^ (Zdigits2 m - 1) <= 2 ^ (b - e)) as H by lia.
  apply Z.pow_le_mono_r_iff in H; lia.
Qed.

(** Rounding does not cross a small integer: a value that is at most
    [K <= 128] rounds to a finite number that is at most [K]. *)
Lemma binary_round_aux_le (M : positive) e K :
  e <= 0 -> 0 < K <= 128 -> Zpos M <= K * 2 ^ (- e) ->
  isFinite (binary_round_aux prec emax false (Zpos M) e loc_Exact) = true /\
  (0 <= valueOf (binary_round_aux prec emax false (Zpos M) e loc_Exact) <= inject_Z K)%Q.
Proof.
  intros He HK HM.
  destruct (binary_round_aux_shape false M e) as (m2 & Hm2 & Hexact & ->). cbv zeta.
  set (n := Z.max 0 (fexp prec emax (Zdigits2 (Zpos M) + e) - e)) in *.
  assert (forall m e0, 0 < m -> e0 <= 0 -> m <= K * 2 ^ (- e0) ->
            Z.max 0 (fexp prec emax (Zdigits2 m + e0) - e0) <= - e0) as Hshift.
  { intros m e0 Hm He0 Hle.
    assert (Zdigits2 m + e0 <= 8).
    { apply (digits_sum_le m e0 7); [lia|lia|].
      replace (7 - e0) with (7 + - e0) by lia. rewrite Z.pow_add_r by lia.
      pose proof (pow2_pos (- e0) ltac:(lia)). change (2 ^ 7) with 128. nia. }
    unfold fexp, emin, prec, emax. lia. }
  assert (0 <= n <= - e) as Hn.
  { split; [unfold n; lia|]. apply (Hshift (Zpos M)); lia. }
  assert (K * 2 ^ (- e) = K * 2 ^ (- (e + n)) * 2 ^ n) as Hsplit.
  { rewrite <- Z.mul_assoc, <- Z.pow_add_r by lia. do 2 f_equal. lia. }
  pose proof (pow2_pos n ltac:(lia)) as Hpn.
  assert (0 <= m2 <= K * 2 ^ (- (e + n))) as Hle2.
  { assert (0 <= Zpos M / 2 ^ n) by (apply Z.div_pos; lia).
    split; [lia|].
    destruct (Z.eq_dec (Zpos M mod 2 ^ n) 0) as [Hz|Hnz].
    - rewrite (Hexact Hz). apply Z.div_le_upper_bound; lia.
    - assert (Zpos M <> K * 2 ^ (- (e + n)) * 2 ^ n) as Hne.
      { intros Heq. apply Hnz. rewrite Heq. apply Z.mod_mul. lia. }
      assert (Zpos M / 2 ^ n < K * 2 ^ (- (e + n))); [|lia].
      apply Z.div_lt_upper_bound; lia. }
  destruct (Z.eq_dec m2 0) as [->|Hm2pos].
  { rewrite Z.div_0_l by (apply Z.pow_nonzero; lia). split; [reflexivity|].
    cbn. split; [apply Qle_refl|]. change 0%Q with (inject_Z 0). rewrite <- Zle_Qle. lia. }
  set (n2 := Z.max 0 (fexp prec emax (Zdigits2 m2 + (e + n)) - (e + n))).
  assert (0 <= n2 <= - (e + n)) as Hn2.
  { split; [unfold n2; lia|]. apply (Hshift m2); lia. }
  pose proof (pow2_pos n2 ltac:(lia)) as Hpn2.
  assert (0 <= m2 / 2 ^ n2 <= K * 2 ^ (- (e + n + n2))) as Hle3.
  { split; [apply Z.div_pos; lia|].
    apply Z.div_le_upper_bound; [lia|].
    rewrite Z.mul_comm, <- Z.mul_assoc, <- Z.pow_add_r by lia.
    replace (- (e + n + n2) + n2) with (- (e + n)) by lia. lia. }
  destruct (m2 / 2 ^ n2) as [|m3|m3] eqn:E3.
  - split; [reflexivity|]. cbn. split; [apply Qle_refl|].
    change 0%Q with (inject_Z 0). rewrite <- Zle_Qle. lia.
  - replace (e + n + n2 <=? emax - prec) with true
      by (symmetry; apply Z.leb_le; unfold emax, prec; lia).
    split; [reflexivity|]. rewrite valueOf_scaled. cbn [cond_Zopp].
    apply scaled_bounds; lia.
  - lia.
Qed.

(** ** Two decimal places *)

Lemma hundred_eq : toNumber 100 = S754_finite false 7036874417766400 (-46).
Proof. reflexivity. Qed.

(** The numbers [k / 100] for [k] from 0 to 100, each as near as binary64
    allows, are what [Math.round(...) / 100] gives, and they pass the test of
    the unit range. *)
Lemma hundredths_table :
  forallb (fun k =>
             match Number_div (toNumber (inject_Z (Z.of_nat k))) (toNumber 100),
                   toNumber (inject_Z (Z.of_nat k) / 100) with
             | S754_finite s m e, S754_finite s' m' e' =>
                 Bool.eqb s s' && (m =? m')%positive && (e =? e')
             | S754_zero s, S754_zero s' => Bool.eqb s s'
             | _, _ => false
             end && inUnitRange (toNumber (inject_Z (Z.of_nat k) / 100)))
          (seq 0 101) = true.
Proof. vm_compute. reflexivity. Qed.

Lemma hundredths k :
  0 <= k <= 100 ->
  Number_div (toNumber (inject_Z k)) (toNumber 100) = toNumber (inject_Z k / 100) /\
  inUnitRange (toNumber (inject_Z k / 100)) = true.
Proof.
  intros Hk. pose proof hundredths_table as H. rewrite forallb_forall in H.
  specialize (H (Z.to_nat k)). rewrite Z2Nat.id in H by lia.
  assert (In (Z.to_nat k) (seq 0 101)) as Hin by (apply in_seq; lia).
  apply H in Hin. apply andb_true_iff in Hin. destruct Hin as [Heq Hr].
  split; [|exact Hr].
  destruct (Number_div _ _) as [s|s| |s m e], (toNumber (inject_Z k / 100)) as [s'|s'| |s' m' e'];
    try discriminate.
  - apply Bool.eqb_prop in Heq. now subst.
  - apply andb_true_iff in Heq. destruct Heq as [Heq He].
    apply andb_true_iff in Heq. destruct Heq as [Hs Hm].
    apply Bool.eqb_prop in Hs. apply Pos.eqb_eq in Hm. apply Z.eqb_eq in He. now subst.
Qed.

Lemma Math_round_percent x :
  (0 <= x <= 100)%Q -> 0 <= Math_round x <= 100.
Proof.
  intros [H0 H1]. unfold Math_round. split.
  - change 0 with (Qfloor 0). apply Qfloor_resp_le. lra.
  - apply Z.le_trans with (Qfloor (201 # 2)); [|vm_compute; discriminate].
    apply Qfloor_resp_le. lra.
Qed.

Lemma scaled_le_1 m e :
  (scaled (Zpos m) e <= 1)%Q -> e <= 0 /\ Zpos m <= 2 ^ (- e).
Proof.
  destruct e as [|p|p]; cbn [scaled].
  - change 1%Q with (inject_Z 1). rewrite <- Zle_Qle. cbn. lia.
  - change 1%Q with (inject_Z 1). rewrite <- Zle_Qle. intros H.
    assert (2 ^ 1 <= 2 ^ Zpos p) by (apply Z.pow_le_mono_r; lia). nia.
  - unfold Qle. cbn [Qnum Qden]. rewrite Pos2Z.inj_pow.
    change (- Zneg p) with (Zpos p). lia.
Qed.

(** A number that passes the test of the unit range is a zero or a
    positive number of value at most 1. *)
Lemma inUnitRange_cases x :
  inUnitRange x = true ->
  (exists s, x = S754_zero s) \/
  (exists m e, x = S754_finite false m e /\ e <= 0 /\ Zpos m <= 2 ^ (- e)).
Proof.
  unfold inUnitRange. intros H. apply andb_true_iff in H. destruct H as [H0 H1].
  destruct x as [s|s| |s m e].
  - left. now exists s.
  - destruct s; discriminate.
  - discriminate.
  - right. exists m, e.
    unfold Number_leb, Number_compare in H0, H1.
    change (toNumber 0) with (S754_zero false) in H0.
    change (toNumber 1) with (S754_finite false 4503599627370496 (-52)) in H1.
    rewrite valueOf_scaled in H0, H1.
    assert (valueOf (S754_zero false) == scaled 0 e)%Q as E0 by (now rewrite scaled_0).
    rewrite E0, scaled_compare in H0.
    assert (s = false) as -> by (destruct s; [discriminate|reflexivity]).
    split; [reflexivity|]. apply scaled_le_1. cbn [cond_Zopp].
    assert (valueOf (S754_finite false 4503599627370496 (-52)) == 1)%Q as E1
      by reflexivity.
    cbn [cond_Zopp] in H1.
    apply Qle_alt. intros Hgt. apply Qgt_alt in Hgt.
    destruct (_ ?= _)%Q eqn:C in H1; try discriminate.
    + apply Qeq_alt in C. lra.
    + apply Qlt_alt in C. lra.
Qed.

Lemma inUnitRange_value x :
  inUnitRange x = true -> isFinite x = true /\ (0 <= valueOf x <= 1)%Q.
Proof.
  intros H. destruct (inUnitRange_cases x H) as [[s ->]|(m & e & -> & He & Hm)].
  - split; [reflexivity|]. cbn. lra.
  - split; [reflexivity|]. rewrite valueOf_scaled. cbn [cond_Zopp].
    change 1%Q with (inject_Z 1). apply scaled_bounds; lia.
Qed.

(** What [Math.round(value * 100) / 100] gives for a value of the unit
    range: the number nearest to [k / 100] for an integer [k] from 0 to
    100 (or the negative zero it was given), and so a number of the unit
    range again. *)
Lemma roundTwoPlaces_range x :
  inUnitRange x = true ->
  inUnitRange (roundTwoPlaces x) = true /\
  exists k : Z, 0 <= k <= 100 /\
    (roundTwoPlaces x = toNumber (inject_Z k / 100) \/ roundTwoPlaces x = S754_zero true).
Proof.
  intros H. destruct (inUnitRange_cases x H) as [[s ->]|(m & e & -> & He & Hm)].
  { split; [now destruct s|]. exists 0. split; [lia|]. destruct s; [now right|now left]. }
  unfold roundTwoPlaces. rewrite hundred_eq.
  unfold Number_mul. cbn [SFmul xorb].
  assert (Zpos (m * 7036874417766400) <= 100 * 2 ^ (- (e + -46))) as HM.
  { rewrite Pos2Z.inj_mul. replace (- (e + -46)) with (- e + 46) by lia.
    rewrite Z.pow_add_r by lia. change (2 ^ 46) with 70368744177664. lia. }
  destruct (binary_round_aux_le (m * 7036874417766400) (e + -46) 100
              ltac:(lia) ltac:(lia) HM) as [Hfin Hval].
  pose proof (binary_round_aux_finite false (m * 7036874417766400) (e + -46)) as Hsign.
  destruct (binary_round_aux prec emax false (Zpos (m * 7036874417766400)) (e + -46)
              loc_Exact) as [s|s| |s m' e'] eqn:Ep; try discriminate.
  - assert (s = false) as ->.
    { destruct (binary_round_aux_shape false (m * 7036874417766400) (e + -46))
        as (m2 & _ & _ & Hshape).
      rewrite Hshape in Ep. cbv zeta in Ep.
      destruct (m2 / 2 ^ _); [now injection Ep| |discriminate].
      destruct (_ <=? _); discriminate. }
    split; [reflexivity|]. exists 0. split; [lia|now left].
  - destruct (Hsign s m' e' eq_refl) as [-> _].
    pose proof (Math_round_percent _ Hval) as Hk.
    unfold Number_round.
    destruct (Math_round (valueOf (S754_finite false m' e'))) as [|k|k] eqn:Ek.
    + split; [reflexivity|]. exists 0. split; [lia|now left].
    + rewrite <- hundred_eq.
      destruct (hundredths (Zpos k) Hk) as [-> Hr].
      split; [exact Hr|]. exists (Zpos k). split; [exact Hk|now left].
    + lia.
Qed.

(** ** The sign of a difference *)

Lemma iter_xO m d : Zpos (Pos.iter xO m d) = Zpos m * 2 ^ Zpos d.
Proof.
  induction d as [|d IH] using Pos.peano_ind.
  - cbn. lia.
  - rewrite Pos.iter_succ, Pos2Z.inj_xO, IH, Pos2Z.inj_succ, Z.pow_succ_r by lia. lia.
Qed.

Lemma shl_align_spec mx ex ez :
  ez <= ex ->
  Zpos (fst (shl_align mx ex ez)) = Zpos mx * 2 ^ (ex - ez).
Proof.
  intros Hle. unfold shl_align.
  destruct (ez - ex) as [|d|d] eqn:E; cbn [fst].
  - replace (ex - ez) with 0 by lia. lia.
  - lia.
  - rewrite iter_xO. f_equal. f_equal. lia.
Qed.

Lemma scaled_align z e ez :
  ez <= e -> (scaled z e == scaled (z * 2 ^ (e - ez)) ez)%Q.
Proof.
  intros Hle.
  assert (forall a b, 0 <= a -> 0 <= b -> 2 ^ (a + b) = 2 ^ a * 2 ^ b) as Hadd
    by (intros; now apply Z.pow_add_r).
  remember (e - ez) as k eqn:Ek.
  destruct e as [|p|p], ez as [|q|q]; try lia; unfold Qeq;
    cbn [scaled Qnum Qden inject_Z]; rewrite ?Pos2Z.inj_pow.
  - replace k with 0 by lia. ring.
  - replace k with (Zpos q) by lia. ring.
  - replace k with (Zpos p) by lia. ring.
  - replace (Zpos p) with (k + Zpos q) by lia. rewrite Hadd by lia. ring.
  - replace k with (Zpos p + Zpos q) by lia. rewrite Hadd by lia. ring.
  - replace (Zpos q) with (k + Zpos p) by lia. rewrite Hadd by lia. ring.
Qed.

Lemma binary_round_sign s m e :
  -1074 <= e ->
  (exists m' e', binary_round prec emax s m e = S754_finite s m' e' /\ -1074 <= e')
  \/ binary_round prec emax s m e = S754_infinity s.
Proof.
  intros He. unfold binary_round.
  destruct (shl_align m e (fexp prec emax (Zpos (digits2_pos m) + e))) as [mz ez] eqn:E.
  assert (-1074 <= ez) as Hez.
  { unfold shl_align in E.
    destruct (fexp prec emax (Zpos (digits2_pos m) + e) - e) eqn:E'; injection E as <- <-;
      try lia.
    unfold fexp, emin, prec, emax. lia. }
  destruct (binary_round_aux_nonzero s mz ez Hez) as [(m' & e' & H)|H]; [left|now right].
  exists m', e'. split; [exact H|]. now apply binary_round_aux_finite in H.
Qed.

Lemma Number_ltb_zero_finite s m e :
  Number_ltb (S754_zero false) (S754_finite s m e) = negb s.
Proof.
  unfold Number_ltb, Number_compare. rewrite valueOf_scaled.
  assert (valueOf (S754_zero false) == scaled 0 e)%Q as E0 by (now rewrite scaled_0).
  rewrite E0, scaled_compare. now destruct s.
Qed.

Lemma valueOf_pos s m e : (0 < valueOf (S754_finite s m e))%Q <-> s = false.
Proof.
  rewrite valueOf_scaled, <- (scaled_0 e), scaled_lt. destruct s; cbn; split; intros; try lia;
    congruence.
Qed.

Lemma valueOf_neg s m e : (valueOf (S754_finite s m e) < 0)%Q <-> s = true.
Proof.
  rewrite valueOf_scaled, <- (scaled_0 e), scaled_lt. destruct s; cbn; split; intros; try lia;
    congruence.
Qed.

(** For finite numbers, [x - y > 0] holds exactly when the value of [x]
    is above the value of [y]: the difference of two numbers is not rounded
    to zero. *)
Lemma Number_sub_positive x y :
  isFinite x = true -> isFinite y = true -> aboveEmin x -> aboveEmin y ->
  Number_ltb (S754_zero false) (Number_sub x y) = true <-> (valueOf y < valueOf x)%Q.
Proof.
  destruct x as [sx|sx| |sx mx ex], y as [sy|sy| |sy my ey]; try discriminate;
    intros _ _ Hx Hy; cbn [aboveEmin] in *.
  - unfold Number_sub. cbn [SFsub].
    assert (Number_ltb (S754_zero false)
              (match sx, sy with
               | true, false | false, true => S754_zero sx
               | _, _ => S754_zero false
               end) = false) as -> by (now destruct sx, sy).
    cbn. split; [discriminate|]. intros H. now apply Qlt_irrefl in H.
  - unfold Number_sub. cbn [SFsub]. rewrite Number_ltb_zero_finite.
    change (valueOf (S754_zero sx)) with 0%Q. rewrite valueOf_neg.
    destruct sy; cbn; split; congruence.
  - unfold Number_sub. cbn [SFsub]. rewrite Number_ltb_zero_finite.
    change (valueOf (S754_zero sy)) with 0%Q. rewrite valueOf_pos.
    destruct sx; cbn; split; congruence.
  - unfold Number_sub. cbn [SFsub]. cbv zeta.
    set (ez := Z.min ex ey).
    pose proof (shl_align_spec mx ex ez ltac:(unfold ez; lia)) as Hmx.
    pose proof (shl_align_spec my ey ez ltac:(unfold ez; lia)) as Hmy.
    set (mx' := fst (shl_align mx ex ez)) in *. set (my' := fst (shl_align my ey ez)) in *.
    assert ((valueOf (S754_finite sy my ey) < valueOf (S754_finite sx mx ex))%Q
            <-> 0 < cond_Zopp sx (Zpos mx') - cond_Zopp sy (Zpos my')) as ->.
    { rewrite !valueOf_scaled.
      rewrite (scaled_align _ ex ez), (scaled_align _ ey ez) by (unfold ez; lia).
      rewrite scaled_lt.
      assert (cond_Zopp sx (Zpos mx) * 2 ^ (ex - ez) = cond_Zopp sx (Zpos mx')) as ->
        by (destruct sx; cbn [cond_Zopp]; lia).
      assert (cond_Zopp sy (Zpos my) * 2 ^ (ey - ez) = cond_Zopp sy (Zpos my')) as ->
        by (destruct sy; cbn [cond_Zopp]; lia).
      lia. }
    destruct (cond_Zopp sx (Zpos mx') - cond_Zopp sy (Zpos my')) as [|d|d];
      cbn [binary_normalize].
    + cbn. split; [discriminate|lia].
    + destruct (binary_round_sign false d ez ltac:(unfold ez; lia))
        as [(m' & e' & -> & _)| ->].
      * rewrite Number_ltb_zero_finite. cbn. split; [lia|reflexivity].
      * cbn. split; [lia|reflexivity].
    + destruct (binary_round_sign true d ez ltac:(unfold ez; lia))
        as [(m' & e' & -> & _)| ->].
      * rewrite Number_ltb_zero_finite. cbn. split; [discriminate|lia].
      * cbn. split; [discriminate|lia].
Qed.

Lemma Number_mul_aboveEmin x y : aboveEmin (Number_mul x y).
Proof.
  unfold Number_mul.
  destruct x as [sx|sx| |sx mx ex], y as [sy|sy| |sy my ey]; cbn [SFmul aboveEmin]; auto.
  destruct (binary_round_aux _ _ _ _ _ _) as [s|s| |s m e] eqn:E; cbn [aboveEmin]; auto.
  now apply binary_round_aux_finite in E.
Qed.

Lemma binary_round_aboveEmin s m e : aboveEmin (binary_round prec emax s m e).
Proof.
  unfold binary_round. destruct (shl_align _ _ _) as [mz ez].
  destruct (binary_round_aux _ _ _ _ _ _) as [s'|s'| |s' m' e'] eqn:E; cbn [aboveEmin]; auto.
  now apply binary_round_aux_finite in E.
Qed.

Lemma Number_add_aboveEmin x y :
  aboveEmin x -> aboveEmin y -> aboveEmin (Number_add x y).
Proof.
  unfold Number_add.
  destruct x as [sx|sx| |sx mx ex], y as [sy|sy| |sy my ey]; cbn [SFadd aboveEmin];
    auto; intros Hx Hy.
  - destruct sx, sy; exact I.
  - destruct sx, sy; exact I.
  - cbv zeta. destruct (_ + _) as [|d|d]; cbn [binary_normalize aboveEmin]; auto;
      apply binary_round_aboveEmin.
Qed.

(** ** Strings *)

Lemma jslength_app (a b : jsstring) : jslength (a ++ b) = jslength a + jslength b.
Proof. unfold jslength. rewrite length_app. lia. Qed.

Lemma jslength_nonneg (a : jsstring) : 0 <= jslength a.
Proof. unfold jslength. lia. Qed.

Lemma dropWhile_head p s c r : dropWhile p s = c :: r -> p c = false.
Proof.
  induction s as [|x s IH]; simpl; [discriminate|].
  destruct (p x) eqn:E; [exact IH|].
  intros H. injection H as -> _. exact E.
Qed.

Lemma dropWhile_id p c r : p c = false -> dropWhile p (c :: r) = c :: r.
Proof. intros H. simpl. now rewrite H. Qed.

Lemma dropWhile_all p s : forallb p s = true -> dropWhile p s = [].
Proof.
  induction s as [|x s IH]; simpl; [reflexivity|].
  destruct (p x); simpl; [exact IH|discriminate].
Qed.

Lemma dropWhile_app_stop p a c r :
  forallb p a = true -> p c = false -> dropWhile p (a ++ c :: r) = c :: r.
Proof.
  induction a as [|x a IH]; simpl; intros Ha Hc.
  - now rewrite Hc.
  - destruct (p x); simpl in Ha; [now apply IH|discriminate].
Qed.

Lemma dropWhile_suffix p s : exists a, s = a ++ dropWhile p s /\ forallb p a = true.
Proof.
  induction s as [|x s [a [Ha Hp]]]; simpl.
  - now exists [].
  - destruct (p x) eqn:E.
    + exists (x :: a). simpl. rewrite E. split; [now f_equal|exact Hp].
    + now exists [].
Qed.

Lemma forallb_rev {A} (p : A -> bool) (l : list A) : forallb p (rev l) = forallb p l.
Proof.
  induction l as [|x l IH]; simpl; [reflexivity|].
  rewrite forallb_app, IH. simpl. rewrite andb_true_r. apply andb_comm.
Qed.

(** [trimEnd] removes a run of white space at the end. *)
Lemma trimEnd_decompose s :
  exists a, s = trimEnd s ++ a /\ forallb isWhiteSpace a = true.
Proof.
  unfold trimEnd. destruct (dropWhile_suffix isWhiteSpace (rev s)) as [a [Ha Hp]].
  exists (rev a). split.
  - rewrite <- rev_app_distr, <- Ha. now rewrite rev_involutive.
  - now rewrite forallb_rev.
Qed.

Lemma trimEnd_last s u c : trimEnd s = u ++ [c] -> isWhiteSpace c = false.
Proof.
  unfold trimEnd. intros H.
  apply (f_equal (@rev N)) in H. rewrite rev_involutive, rev_app_distr in H.
  simpl in H. now apply dropWhile_head in H.
Qed.


Lemma trimEnd_stop x c a :
  isWhiteSpace c = false -> forallb isWhiteSpace a = true ->
  trimEnd (x ++ c :: a) = x ++ [c].
Proof.
  intros Hc Ha. unfold trimEnd.
  rewrite rev_app_distr. simpl. rewrite <- app_assoc. simpl.
  rewrite dropWhile_app_stop; [|now rewrite forallb_rev|exact Hc].
  change (c :: rev x) with ([c] ++ rev x).
  now rewrite rev_app_distr, rev_involutive.
Qed.

Lemma trim_isSnippet s : trim s <> [] -> isSnippet (trim s).
Proof.
  intros Hne. unfold trim in *.
  destruct (trimEnd_decompose (trimStart s)) as [a [Ha Hp]].
  destruct (trimEnd (trimStart s)) as [|c r] eqn:E; [congruence|].
  exists c, r. split; [reflexivity|]. split.
  - unfold trimStart in Ha. simpl in Ha.
    now apply dropWhile_head in Ha.
  - destruct (exists_last (l := c :: r)) as [u [d Hu]]; [discriminate|].
    exists u, d. split; [exact Hu|].
    rewrite Hu in E. now apply trimEnd_last in E.
Qed.

Lemma trim_snippet t : isSnippet t -> trim t = t.
Proof.
  intros (c & r & Ht & Hc & u & d & Hu & Hd).
  unfold trim, trimStart. rewrite Ht, dropWhile_id by exact Hc.
  rewrite <- Ht, Hu. rewrite (trimEnd_stop u d []); auto.
Qed.

(** ** aggregateReviews *)

Arguments blankLine : simpl never.
Arguments MAX_CHARS : simpl never.

Lemma collectReviews_step r rs acc n :
  collectReviews (r :: rs) acc n
  = match snippetOf r with
    | Some s => collectReviews rs (acc ++ [s]) (n + 1)
    | None => collectReviews rs acc n
    end.
Proof.
  simpl. unfold snippetOf. destruct (review_text r) as [[|c t]|]; try reflexivity.
  destruct (trim (c :: t)); reflexivity.
Qed.

Lemma collectReviews_spec rs : forall acc n,
  collectReviews rs acc n
  = (acc ++ omap snippetOf rs, n + Z.of_nat (length (omap snippetOf rs))).
Proof.
  induction rs as [|r rs IH]; intros acc n.
  - simpl. rewrite app_nil_r. f_equal. lia.
  - rewrite collectReviews_step. cbn [omap list_omap]. destruct (snippetOf r) as [s|].
    + rewrite IH, <- app_assoc. cbn [app length]. f_equal. lia.
    + apply IH.
Qed.

Lemma collectPlaces_spec ps : forall acc n,
  collectPlaces ps acc n
  = (acc ++ snippetsOf ps, n + Z.of_nat (length (snippetsOf ps))).
Proof.
  unfold snippetsOf.
  induction ps as [|p ps IH]; intros acc n; cbn [collectPlaces flat_map].
  - rewrite app_nil_r. f_equal. cbn. lia.
  - destruct (reviews p) as [rs|].
    + rewrite collectReviews_spec, IH, <- app_assoc, length_app. f_equal. lia.
    + apply IH.
Qed.

Lemma bufferOf_snoc ts t : bufferOf (ts ++ [t]) = bufferOf ts ++ t ++ blankLine.
Proof.
  induction ts as [|x ts IH]; cbn [bufferOf app].
  - now rewrite app_nil_r.
  - rewrite IH. now rewrite <- !app_assoc.
Qed.

Lemma budgetUsed_snoc ts t : budgetUsed (ts ++ [t]) = budgetUsed ts + jslength t + 2.
Proof. induction ts as [|x ts IH]; cbn [budgetUsed app]; lia. Qed.

Lemma jslength_bufferOf ts : jslength (bufferOf ts) = budgetUsed ts.
Proof.
  induction ts as [|x ts IH]; cbn [bufferOf budgetUsed]; [reflexivity|].
  rewrite !jslength_app, IH. change (jslength blankLine) with 2. lia.
Qed.

Lemma jslength_joinBlank ts : jslength (joinBlank ts) <= budgetUsed ts.
Proof.
  induction ts as [|x [|y ts] IH]; cbn [joinBlank budgetUsed] in *.
  - reflexivity.
  - pose proof (jslength_nonneg x). lia.
  - rewrite !jslength_app. change (jslength blankLine) with 2. lia.
Qed.

Lemma appendWithinBudget_spec texts : forall done,
  exists k : nat,
    (k <= length texts)%nat /\
    appendWithinBudget texts (bufferOf done) = bufferOf (done ++ take k texts) /\
    (budgetUsed done <= MAX_CHARS -> budgetUsed (done ++ take k texts) <= MAX_CHARS) /\
    (forall t, texts !! k = Some t ->
       budgetUsed (done ++ take k texts) + jslength t + 2 > MAX_CHARS).
Proof.
  induction texts as [|t texts IH]; intros done; cbn [appendWithinBudget length].
  - exists 0%nat. cbn [take]. rewrite app_nil_r. repeat split; auto.
    intros t H. discriminate.
  - rewrite jslength_bufferOf.
    destruct (budgetUsed done + jslength t + 2 >? MAX_CHARS) eqn:E.
    + exists 0%nat. cbn [take]. rewrite app_nil_r. repeat split; auto; [lia|].
      intros t' H. injection H as <-. lia.
    + destruct (IH (done ++ [t])) as (k & Hk & Happ & Hle & Hstop).
      exists (S k). cbn [take].
      replace (done ++ t :: take k texts) with ((done ++ [t]) ++ take k texts)
        by now rewrite <- app_assoc.
      repeat split.
      * lia.
      * rewrite <- Happ, bufferOf_snoc. reflexivity.
      * intros _. apply Hle. rewrite budgetUsed_snoc. lia.
      * exact Hstop.
Qed.

Lemma bufferOf_joinBlank ts : ts <> [] -> bufferOf ts = joinBlank ts ++ blankLine.
Proof.
  induction ts as [|x [|y ts] IH]; intros H; [congruence| |].
  - cbn [bufferOf joinBlank]. now rewrite app_nil_r.
  - change (bufferOf (x :: y :: ts)) with (x ++ blankLine ++ bufferOf (y :: ts)).
    rewrite IH by discriminate.
    change (joinBlank (x :: y :: ts)) with (x ++ blankLine ++ joinBlank (y :: ts)).
    now rewrite <- !app_assoc.
Qed.

Lemma joinBlank_isSnippet ts :
  ts <> [] -> Forall isSnippet ts -> isSnippet (joinBlank ts).
Proof.
  induction ts as [|x [|y ts] IH]; intros Hne Hall; [congruence| |].
  - now inversion Hall.
  - inversion Hall as [|? ? Hx Hrest]; subst.
    destruct (IH ltac:(discriminate) Hrest) as (_ & _ & _ & _ & u & d & Hu & Hd).
    destruct Hx as (c & r & Hx & Hc & _).
    change (joinBlank (x :: y :: ts)) with (x ++ blankLine ++ joinBlank (y :: ts)).
    exists c, (r ++ blankLine ++ joinBlank (y :: ts)). split; [now rewrite Hx|].
    split; [exact Hc|].
    exists (x ++ blankLine ++ u), d. split; [|exact Hd].
    rewrite Hu. now rewrite <- !app_assoc.
Qed.

Lemma trim_bufferOf ts : Forall isSnippet ts -> trim (bufferOf ts) = joinBlank ts.
Proof.
  intros Hall. destruct ts as [|x ts]; [reflexivity|].
  rewrite bufferOf_joinBlank by discriminate.
  destruct (joinBlank_isSnippet (x :: ts) ltac:(discriminate) Hall)
    as (c & r & Hj & Hc & u & d & Hu & Hd).
  unfold trim, trimStart. rewrite Hj. simpl. rewrite Hc.
  change (c :: r ++ blankLine) with ((c :: r) ++ blankLine). rewrite <- Hj, Hu.
  rewrite <- app_assoc. simpl. now apply trimEnd_stop.
Qed.

Lemma snippetOf_isSnippet r s : snippetOf r = Some s -> isSnippet s.
Proof.
  unfold snippetOf. destruct (review_text r) as [t|]; [|discriminate].
  destruct (trim t) as [|c u] eqn:E; [discriminate|].
  intros H. injection H as <-. rewrite <- E. apply trim_isSnippet. congruence.
Qed.

Lemma snippetsOf_isSnippet ps : Forall isSnippet (snippetsOf ps).
Proof.
  unfold snippetsOf. apply Forall_forall. intros s Hin.
  apply list_elem_of_In, in_flat_map in Hin. destruct Hin as (p & _ & Hin).
  destruct (reviews p) as [rs|]; [|destruct Hin].
  apply list_elem_of_In, list_elem_of_omap in Hin.
  destruct Hin as (r & _ & Hr). now apply snippetOf_isSnippet in Hr.
Qed.

(** C4, as amended.  For every list of place details, the count returned by
    [aggregateReviews] is the number of all non-empty snippets of the input;
    the text is never longer than the budget and is the first [k] snippets,
    whole and trimmed, in input order and separated by a blank line.  The
    budget is accounted with a two-character separator after every snippet,
    the last one too: the [k] snippets fit that account, and when a snippet
    is left out, the first one left out would have exceeded it. *)
Theorem aggregateReviews_within_budget (placeDetails : list GooglePlaceDetails) :
  let r := aggregateReviews placeDetails in
  let all := snippetsOf placeDetails in
  agg_count r = Z.of_nat (length all) /\
  jslength (agg_text r) <= MAX_CHARS /\
  exists k : nat,
    (k <= length all)%nat /\
    agg_text r = joinBlank (take k all) /\
    budgetUsed (take k all) <= MAX_CHARS /\
    (forall t, all !! k = Some t ->
       budgetUsed (take k all) + jslength t + 2 > MAX_CHARS).
Proof.
  cbv zeta. unfold aggregateReviews.
  rewrite collectPlaces_spec. cbn [app agg_count agg_text].
  destruct (appendWithinBudget_spec (snippetsOf placeDetails) [])
    as (k & Hk & Happ & Hle & Hstop).
  cbn [bufferOf app] in *. rewrite Happ.
  rewrite trim_bufferOf by (apply Forall_take, snippetsOf_isSnippet).
  assert (Hfit : budgetUsed (take k (snippetsOf placeDetails)) <= MAX_CHARS)
    by (apply Hle; cbn; unfold MAX_CHARS; lia).
  split; [lia|]. split.
  - pose proof (jslength_joinBlank (take k (snippetsOf placeDetails))). lia.
  - exists k. auto.
Qed.

(** C4, as first stated, fails: a single snippet of 7999 characters does not
    exceed the budget of 8000, yet the text stops before it. *)
Lemma aggregateReviews_drops_fitting_snippet :
  snippetsOf [longReviewPlace] = [repeat 97%N (Z.to_nat 7999)] /\
  jslength (joinBlank (snippetsOf [longReviewPlace])) <= MAX_CHARS /\
  agg_text (aggregateReviews [longReviewPlace]) = [] /\
  agg_count (aggregateReviews [longReviewPlace]) = 1.
Proof.
  repeat split; try (vm_compute; reflexivity).
  vm_compute. discriminate.
Qed.

(** ** rankVenues *)

Lemma orZero_value x : (orZero x == valueOr0 x)%Q.
Proof.
  destruct x as [v|]; simpl; [|reflexivity].
  unfold truthy. destruct (Qeq_bool v 0) eqn:E; simpl; [|reflexivity].
  apply Qeq_bool_iff in E. now rewrite E.
Qed.


Section SortAny.

Context {A : Type} (cmp : A -> A -> Q).

Lemma sortInsert_perm_any x l : Permutation (sortInsert cmp x l) (x :: l).
Proof.
  induction l as [|y l IH]; simpl; [reflexivity|].
  destruct (Qle_bool (cmp x y) 0); [reflexivity|].
  rewrite IH. apply perm_swap.
Qed.

Lemma Array_sort_perm_any l : Permutation (Array_sort cmp l) l.
Proof.
  induction l as [|x l IH]; simpl; [reflexivity|].
  rewrite sortInsert_perm_any. now constructor.
Qed.

(** The sort only looks at the sign of the comparisons it makes. *)
Lemma sortInsert_ext (cmp' : A -> A -> Q) x l :
  Forall (fun y => Qle_bool (cmp x y) 0 = Qle_bool (cmp' x y) 0) l ->
  sortInsert cmp x l = sortInsert cmp' x l.
Proof.
  induction 1 as [|y l Hy Hl IH]; simpl; [reflexivity|].
  rewrite Hy, IH. reflexivity.
Qed.

End SortAny.

Section SortByKey.

Context {A : Type} (key : A -> Q).

Lemma byKey_le a b : Qle_bool (byKeyDescending key a b) 0 = true <-> (key b <= key a)%Q.
Proof. unfold byKeyDescending. rewrite Qle_bool_iff. split; intros H; lra. Qed.

Lemma byKey_gt a b : Qle_bool (byKeyDescending key a b) 0 = false -> (key a < key b)%Q.
Proof.
  intros H. destruct (Qlt_le_dec (key a) (key b)) as [Hlt|Hle]; [exact Hlt|].
  apply byKey_le in Hle. congruence.
Qed.

Lemma sortInsert_perm x l : Permutation (sortInsert (byKeyDescending key) x l) (x :: l).
Proof.
  induction l as [|y l IH]; simpl; [reflexivity|].
  destruct (Qle_bool (byKeyDescending key x y) 0); [reflexivity|].
  rewrite IH. apply perm_swap.
Qed.

Lemma Array_sort_perm l : Permutation (Array_sort (byKeyDescending key) l) l.
Proof.
  induction l as [|x l IH]; simpl; [reflexivity|].
  rewrite sortInsert_perm. now constructor.
Qed.

Lemma sortInsert_sorted x l :
  StronglySorted (keyDescending key) l ->
  StronglySorted (keyDescending key) (sortInsert (byKeyDescending key) x l).
Proof.
  induction 1 as [|y l Hs IH Hall]; simpl.
  - repeat constructor.
  - destruct (Qle_bool (byKeyDescending key x y) 0) eqn:E.
    + apply byKey_le in E. constructor; [now constructor|].
      constructor; [exact E|].
      eapply Forall_impl; [exact Hall|].
      unfold keyDescending. intros z Hz. lra.
    + apply byKey_gt in E. constructor; [exact IH|].
      eapply Permutation_Forall; [symmetry; apply sortInsert_perm|].
      constructor; [unfold keyDescending; lra|exact Hall].
Qed.

Lemma Array_sort_sorted l : StronglySorted (keyDescending key) (Array_sort (byKeyDescending key) l).
Proof.
  induction l as [|x l IH]; simpl; [constructor|]. now apply sortInsert_sorted.
Qed.

(** Elements of one key keep the order they had. *)
Lemma sortInsert_filter q x l :
  List.filter (fun v => Qeq_bool (key v) q) (sortInsert (byKeyDescending key) x l)
  = List.filter (fun v => Qeq_bool (key v) q) (x :: l).
Proof.
  induction l as [|y l IH]; [reflexivity|].
  cbn [sortInsert]. destruct (Qle_bool (byKeyDescending key x y) 0) eqn:E; [reflexivity|].
  apply byKey_gt in E. cbn [List.filter] in *. rewrite IH.
  destruct (Qeq_bool (key x) q) eqn:Ex; [|reflexivity].
  destruct (Qeq_bool (key y) q) eqn:Ey; [|reflexivity].
  apply Qeq_bool_iff in Ex, Ey. lra.
Qed.

Lemma Array_sort_stable q l :
  List.filter (fun v => Qeq_bool (key v) q) (Array_sort (byKeyDescending key) l)
  = List.filter (fun v => Qeq_bool (key v) q) l.
Proof.
  induction l as [|x l IH]; [reflexivity|].
  cbn [Array_sort]. rewrite sortInsert_filter. cbn [List.filter]. now rewrite IH.
Qed.

End SortByKey.

Lemma venueScore_aboveEmin v : aboveEmin (venueScore v).
Proof.
  unfold venueScore. apply Number_add_aboveEmin; apply Number_mul_aboveEmin.
Qed.

(** On finite scores the comparison function of [rankVenues] has the sign
    of the difference of the values of the computed scores. *)
Lemma rankVenues_comparator a b :
  finiteScore a -> finiteScore b ->
  Qle_bool (comparatorSign (Number_sub (venueScore b) (venueScore a))) 0
  = Qle_bool (byKeyDescending scoreValue a b) 0.
Proof.
  intros Ha Hb.
  pose proof (Number_sub_positive (venueScore b) (venueScore a) Hb Ha
                (venueScore_aboveEmin b) (venueScore_aboveEmin a)) as H.
  unfold comparatorSign. change (toNumber 0) with (S754_zero false).
  destruct (Number_ltb (S754_zero false) (Number_sub (venueScore b) (venueScore a))) eqn:E.
  - apply proj1 in H. specialize (H eq_refl).
    change (Qle_bool 1 0) with false. symmetry.
    destruct (Qle_bool (byKeyDescending scoreValue a b) 0) eqn:E'; [|reflexivity].
    apply byKey_le in E'. unfold scoreValue in E'. lra.
  - assert (valueOf (venueScore b) <= valueOf (venueScore a))%Q as Hle.
    { destruct (Qlt_le_dec (valueOf (venueScore a)) (valueOf (venueScore b))) as [Hlt|Hle];
        [|exact Hle].
      apply H in Hlt. congruence. }
    apply (byKey_le scoreValue) in Hle. rewrite Hle.
    destruct (Number_ltb (Number_sub (venueScore b) (venueScore a)) (S754_zero false));
      reflexivity.
Qed.

(** On venues of finite score [rankVenues] is the stable sort by the value
    of the computed score. *)
Lemma rankVenues_byKey venues :
  Forall finiteScore venues ->
  rankVenues venues = Array_sort (byKeyDescending scoreValue) venues.
Proof.
  unfold rankVenues. induction 1 as [|x l Hx Hl IH]; [reflexivity|].
  cbn [Array_sort]. rewrite IH. apply sortInsert_ext.
  eapply Permutation_Forall; [symmetry; apply (Array_sort_perm scoreValue)|].
  eapply Forall_impl; [exact Hl|].
  intros y Hy. now apply rankVenues_comparator.
Qed.




(** ** parseVibeScores *)

Lemma getScore_setScore s d v d' :
  getScore (setScore s d v) d' = if bool_decide (d = d') then v else getScore s d'.
Proof. destruct d, d'; reflexivity. Qed.

(** The loop only throws errors, and every entry it writes comes from
    [parsed]. *)
Lemma scoreDimensions_spec parsed dims : forall s thrown s',
  scoreDimensions parsed dims s = (thrown, s') ->
  thrown <> Some TNull /\
  forall d v, getScore s' d = Some v ->
              getScore s d = Some v \/ scoreComesFrom parsed d v.
Proof.
  induction dims as [|dim dims IH]; intros s thrown s' H; cbn [scoreDimensions] in H.
  - injection H as <- <-. split; [discriminate|auto].
  - destruct (getProperty parsed (dimensionName dim)) as [[value|]|t] eqn:E.
    + assert (Hskip : scoreDimensions parsed dims s = (thrown, s') ->
                thrown <> Some TNull /\
                forall d v, getScore s' d = Some v ->
                            getScore s d = Some v \/ scoreComesFrom parsed d v)
        by apply IH.
      destruct value as [| | x | | |]; try (now apply Hskip).
      destruct (inUnitRange x) eqn:Ex; [|now apply Hskip].
      apply IH in H. destruct H as [Hn Hs]. split; [exact Hn|].
      intros d v Hd. destruct (Hs d v Hd) as [Hold|Hnew]; [|now right].
      rewrite getScore_setScore in Hold. case_bool_decide as Heq.
      * subst d. right. injection Hold as <-. exists x.
        repeat split; auto.
      * now left.
    + now apply IH.
    + injection H as <- <-. split; [|auto].
      destruct parsed; cbn in E; try discriminate. injection E as <-. discriminate.
Qed.

Lemma JSON_parse_throws_error text t : JSON_parse text = Throw t -> t = syntaxError.
Proof.
  unfold JSON_parse. destruct (lex LTop [] text) as [toks|]; [|congruence].
  destruct (parseTokens PValue [] toks); congruence.
Qed.

Lemma getScore_empty d : getScore emptyVibeScores d = None.
Proof. now destruct d. Qed.

Lemma parseVibeScores_try_spec text thrown s :
  parseVibeScores_try text emptyVibeScores = (thrown, s) ->
  thrown <> Some TNull /\
  forall d v, getScore s d = Some v ->
    exists jsonMatch parsed,
      matchBraces text = Some jsonMatch /\ JSON_parse jsonMatch = Ok parsed /\
      scoreComesFrom parsed d v.
Proof.
  unfold parseVibeScores_try. intros H.
  destruct (matchBraces text) as [jsonMatch|].
  - destruct (JSON_parse jsonMatch) as [parsed|t] eqn:E.
    + apply scoreDimensions_spec in H. destruct H as [Hn Hs]. split; [exact Hn|].
      intros d v Hd. destruct (Hs d v Hd) as [Hold|Hnew].
      * now rewrite getScore_empty in Hold.
      * now exists jsonMatch, parsed.
    + injection H as <- <-. apply JSON_parse_throws_error in E. subst t.
      split; [discriminate|]. intros d v Hd. now rewrite getScore_empty in Hd.
  - injection H as <- <-. split; [discriminate|].
    intros d v Hd. now rewrite getScore_empty in Hd.
Qed.

(** C6.  For every input string [parseVibeScores] returns a score set and
    does not throw.  Each of the seven dimensions is null or a number of
    [0,1] rounded to two decimal places: the double-precision number nearest
    to [k / 100] for an integer [k] from 0 to 100 (or the negative zero that
    was parsed).  It is a number only where the parsed JSON gave that
    dimension a number of [0,1], of which it is the rounding
    [Math.round(value * 100) / 100].  [emptyVibeScores] is all null, so it
    satisfies the invariant of the data model as well. *)
Theorem parseVibeScores_total_in_range (text : jsstring) :
  (exists s, parseVibeScores text = Ok s /\
     scoresInUnitRange s /\
     forall d v, getScore s d = Some v ->
       inUnitRange v = true /\
       (exists k : Z, 0 <= k <= 100 /\
          (v = toNumber (inject_Z k / 100) \/ v = S754_zero true)) /\
       exists jsonMatch parsed,
         matchBraces text = Some jsonMatch /\ JSON_parse jsonMatch = Ok parsed /\
         scoreComesFrom parsed d v) /\
  (forall d, getScore emptyVibeScores d = None) /\
  scoresInUnitRange emptyVibeScores.
Proof.
  split; [|split; [apply getScore_empty|]].
  - unfold parseVibeScores.
    destruct (parseVibeScores_try text emptyVibeScores) as [thrown s] eqn:E.
    apply parseVibeScores_try_spec in E. destruct E as [Hn Hs].
    exists s. split; [destruct thrown as [[e|]|]; congruence|].
    split.
    + intros d v Hd. destruct (Hs d v Hd) as (_ & parsed & _ & _ & x & _ & Hx & ->).
      apply inUnitRange_value. now apply roundTwoPlaces_range.
    + intros d v Hd. destruct (Hs d v Hd) as (m & parsed & Hm & Hp & Hfrom).
      assert (inUnitRange v = true /\
              exists k : Z, 0 <= k <= 100 /\
                (v = toNumber (inject_Z k / 100) \/ v = S754_zero true)) as [Hr Hk]
        by (destruct Hfrom as (x & _ & Hx & ->); now apply roundTwoPlaces_range).
      split; [exact Hr|]. split; [exact Hk|]. now exists m, parsed.
  - intros d v Hd. now rewrite getScore_empty in Hd.
Qed.

(** ** The brace match of parseVibeScores *)

Lemma dropWhile_nil p s : dropWhile p s = [] -> forallb p s = true.
Proof.
  induction s as [|x s IH]; simpl; [reflexivity|].
  destruct (p x); [exact IH|discriminate].
Qed.

Lemma isNot_false x c : isNot x c = false -> c = x.
Proof.
  unfold isNot. intros H. apply negb_false_iff in H. now apply N.eqb_eq in H.
Qed.

Lemma isNot_same x : isNot x x = false.
Proof. unfold isNot. now rewrite N.eqb_refl. Qed.

Lemma matchBraces_first_to_last a b c :
  forallb (isNot 123) a = true -> forallb (isNot 125) c = true ->
  matchBraces (a ++ 123%N :: b ++ 125%N :: c) = Some (123%N :: b ++ [125%N]).
Proof.
  intros Ha Hc. unfold matchBraces.
  rewrite dropWhile_app_stop by (auto using isNot_same).
  replace (rev (123%N :: b ++ 125%N :: c))
    with (rev c ++ 125%N :: rev (123%N :: b)).
  - rewrite dropWhile_app_stop by (rewrite ?forallb_rev; auto using isNot_same).
    change (125%N :: rev (123%N :: b)) with (rev [125%N] ++ rev (123%N :: b)).
    rewrite <- rev_app_distr, rev_involutive. reflexivity.
  - change (123%N :: b ++ 125%N :: c) with ((123%N :: b) ++ 125%N :: c).
    rewrite rev_app_distr. cbn [rev]. now rewrite <- app_assoc.
Qed.

Lemma matchBraces_Some text m :
  matchBraces text = Some m ->
  exists a b c, text = a ++ 123%N :: b ++ 125%N :: c /\
                forallb (isNot 123) a = true /\ forallb (isNot 125) c = true /\
                m = 123%N :: b ++ [125%N].
Proof.
  unfold matchBraces. intros H.
  destruct (dropWhile_suffix (isNot 123) text) as (a & Ha & Hpa).
  destruct (dropWhile (isNot 123) text) as [|x fromBrace] eqn:E1; [discriminate|].
  apply dropWhile_head, isNot_false in E1. subst x.
  destruct (dropWhile_suffix (isNot 125) (rev (123%N :: fromBrace))) as (w & Hw & Hpw).
  destruct (dropWhile (isNot 125) (rev (123%N :: fromBrace))) as [|y r] eqn:E2;
    [discriminate|].
  apply dropWhile_head, isNot_false in E2. subst y.
  injection H as <-.
  apply (f_equal (@rev N)) in Hw. rewrite rev_involutive, rev_app_distr in Hw.
  cbn [rev] in Hw.
  destruct (rev r) as [|z b] eqn:Er.
  - cbn in Hw. discriminate.
  - cbn in Hw. injection Hw as <- Hw.
    exists a, b, (rev w). split; [|split; [|split]].
    + rewrite Ha. f_equal. f_equal. rewrite Hw. now rewrite <- app_assoc.
    + exact Hpa.
    + now rewrite forallb_rev.
    + reflexivity.
Qed.

Lemma matchBraces_None text :
  ~ (exists a b c, text = a ++ 123%N :: b ++ 125%N :: c) -> matchBraces text = None.
Proof.
  intros Hno. destruct (matchBraces text) as [m|] eqn:E; [|reflexivity].
  apply matchBraces_Some in E. destruct E as (a & b & c & Ht & _).
  exfalso. apply Hno. now exists a, b, c.
Qed.

(** C5, as amended.  Score parsing takes the substring of the raw output
    from its first opening brace through its last closing brace and parses
    the dimensions from that substring; the result is the all-null score
    set when the output has no opening brace followed by a closing brace,
    and also when that substring is not valid JSON. *)
Theorem parseVibeScores_first_to_last_brace (text : jsstring) :
  (~ (exists a b c, text = a ++ 123%N :: b ++ 125%N :: c) ->
   parseVibeScores text = Ok emptyVibeScores) /\
  (forall a b c,
     text = a ++ 123%N :: b ++ 125%N :: c ->
     forallb (isNot 123) a = true -> forallb (isNot 125) c = true ->
     matchBraces text = Some (123%N :: b ++ [125%N]) /\
     match JSON_parse (123%N :: b ++ [125%N]) with
     | Ok parsed =>
         parseVibeScores text
         = Ok (snd (scoreDimensions parsed VIBE_DIMENSIONS emptyVibeScores))
     | Throw _ => parseVibeScores text = Ok emptyVibeScores
     end).
Proof.
  split.
  - intros Hno. unfold parseVibeScores, parseVibeScores_try.
    now rewrite matchBraces_None.
  - intros a b c -> Ha Hc.
    pose proof (matchBraces_first_to_last a b c Ha Hc) as Hm.
    split; [exact Hm|].
    unfold parseVibeScores, parseVibeScores_try. rewrite Hm.
    destruct (JSON_parse (123%N :: b ++ [125%N])) as [parsed|t] eqn:E.
    + destruct (scoreDimensions parsed VIBE_DIMENSIONS emptyVibeScores)
        as [thrown s] eqn:Es.
      pose proof (scoreDimensions_spec _ _ _ _ _ Es) as [Hn _].
      destruct thrown as [[e|]|]; cbn [snd]; congruence.
    + apply JSON_parse_throws_error in E. now subst t.
Qed.

(** The example of the specification: prose around an object. *)
Lemma parseVibeScores_first_to_last_brace_witness :
  parseVibeScores proseThenObject
  = Ok (setScore emptyVibeScores lively (Some (toNumber (50 # 100)))).
Proof.
  pose proof (parseVibeScores_first_to_last_brace proseThenObject) as [_ H].
  specialize (H (lit "Some prose ") (litq "'lively':0.5,'social':2") (lit "...")
                eq_refl eq_refl eq_refl).
  destruct H as [_ H]. exact H.
Defined.

(** C5, as first stated, fails: on a valid object followed by a second
    object, the first balanced object would give [lively] its score, and
    the code returns the all-null score set. *)
Lemma parseVibeScores_not_first_balanced :
  spec_firstBalancedObject twoObjects = Some (litq "{'lively':0.5}") /\
  parseVibeScores (litq "{'lively':0.5}")
  = Ok (setScore emptyVibeScores lively (Some (toNumber (50 # 100)))) /\
  matchBraces twoObjects = Some twoObjects /\
  parseVibeScores twoObjects = Ok emptyVibeScores.
Proof. repeat split; vm_compute; reflexivity. Qed.

(** ** withRetry *)

Lemma attemptsAndWaits_app a b :
  attemptsAndWaits (a ++ b) = attemptsAndWaits a ++ attemptsAndWaits b.
Proof. apply List.filter_app. Qed.

Lemma trace_emit e w : trace (emit e w) = trace w ++ [e].
Proof. reflexivity. Qed.

Section RetryLoop.

Context {T : Type} (operation : jsstring) (fn : M T) (options : RetryOptions).

Local Abbreviation cfg := (retryConfig options).
Local Abbreviation N := (Z.to_nat (maxRetries cfg)).

Hypothesis maxRetries_nonneg : 0 <= maxRetries cfg.
Hypothesis fn_quiet : quiet fn.
Hypothesis observer_returns : observerReturns options.

Lemma invoking_trace w :
  attemptsAndWaits (trace (snd (invoking operation fn w)))
  = attemptsAndWaits (trace w) ++ [EvInvoke operation].
Proof.
  unfold invoking. rewrite fn_quiet, trace_emit, attemptsAndWaits_app. reflexivity.
Qed.

(** An operation that fails every time, not retryably: one invocation. *)
Lemma retryLoop_terminal iterations attempt lastError w :
  (forall w0, exists t w1,
     fn w0 = (Throw t, w1) /\ isRetryableError t (retryableStatusCodes cfg) = false) ->
  retryLoop (invoking operation fn) options (S iterations) attempt lastError w
  = invoking operation fn w.
Proof.
  intros Hfail. cbn [retryLoop]. unfold tryCatch, invoking.
  destruct (Hfail (emit (EvInvoke operation) w)) as (t & w1 & -> & Ht).
  rewrite Ht. reflexivity.
Qed.

(** An operation that fails every time, retryably: with [n] retries left
    after attempt number [j], there are [n] more waits and invocations. *)
Lemma retryLoop_exhausts n : forall j lastError w,
  (forall w0, exists t w1,
     fn w0 = (Throw t, w1) /\ isRetryableError t (retryableStatusCodes cfg) = true) ->
  (j + n = N)%nat ->
  exists t wl w',
    retryLoop (invoking operation fn) options (S n) (Z.of_nat j) lastError w
    = (Throw t, w') /\
    invoking operation fn wl = (Throw t, w') /\
    attemptsAndWaits (trace w')
    = attemptsAndWaits (trace w) ++ EvInvoke operation :: retriesFrom cfg operation (S j) n.
Proof.
  induction n as [|n IH]; intros j lastError w Hfail Hj.
  - cbn [retryLoop]. unfold tryCatch.
    pose proof (invoking_trace w) as Htr.
    unfold invoking in *.
    destruct (Hfail (emit (EvInvoke operation) w)) as (t & w1 & E & Ht).
    rewrite E in *. rewrite Ht. cbn [negb orb].
    replace (Z.of_nat j =? maxRetries cfg) with true by (symmetry; apply Z.eqb_eq; lia).
    exists t, w, w1. repeat split; [exact E|]. exact Htr.
  - cbn [retryLoop]. unfold tryCatch at 1.
    pose proof (invoking_trace w) as Htr.
    unfold invoking at 1. unfold invoking at 1 in Htr.
    destruct (Hfail (emit (EvInvoke operation) w)) as (t & w1 & E & Ht).
    rewrite E in *. rewrite Ht. cbn [negb orb].
    replace (Z.of_nat j =? maxRetries cfg) with false by (symmetry; apply Z.eqb_neq; lia).
    unfold bind at 1.
    destruct (observer_returns (Z.of_nat j + 1) t w1) as (w2 & -> & Hw2).
    unfold bind at 1. unfold sleep at 1, perform at 1.
    replace (Z.of_nat j + 1) with (Z.of_nat (S j)) by lia.
    destruct (IH (S j) t (emit (EvSleep (backoffDelay cfg (Z.of_nat j))) w2) Hfail
                ltac:(lia)) as (t' & wl & w' & Hrun & Hlast & Htrace).
    exists t', wl, w'. split; [exact Hrun|]. split; [exact Hlast|].
    rewrite Htrace, trace_emit, attemptsAndWaits_app, Hw2. cbn [snd] in Htr. rewrite Htr.
    rewrite <- !app_assoc. f_equal. cbn [app]. f_equal.
    unfold retriesFrom. cbn [seq flat_map attemptsAndWaits List.filter isAttemptOrWait app].
    unfold backoffDelay. replace (Z.of_nat (S j) - 1) with (Z.of_nat j) by lia.
    reflexivity.
Qed.

End RetryLoop.

Lemma invocations_app a b : invocations (a ++ b) = invocations a + invocations b.
Proof. unfold invocations. rewrite List.filter_app, length_app. lia. Qed.

Lemma invocations_attemptsAndWaits tr : invocations (attemptsAndWaits tr) = invocations tr.
Proof.
  unfold invocations, attemptsAndWaits. f_equal. f_equal.
  induction tr as [|e tr IH]; [reflexivity|].
  cbn [List.filter]. destruct e; cbn [isAttemptOrWait isInvoke List.filter]; now rewrite ?IH.
Qed.

Lemma invocations_retriesFrom cfg operation first count :
  invocations (retriesFrom cfg operation first count) = Z.of_nat count.
Proof.
  unfold retriesFrom. revert first.
  induction count as [|count IH]; intros first; [reflexivity|].
  cbn [seq flat_map]. rewrite invocations_app, IH.
  unfold invocations. cbn [List.filter isInvoke length]. lia.
Qed.

(** C2.  Take an operation that fails every time, either never retryably
    or always retryably, and a maximum retry count [N >= 0].  In the first
    case [withRetry] invokes it exactly once; in the second exactly [N + 1]
    times, and before retry number [k] (from 1 to [N]) it waits
    [min (initialDelayMs * 2 ^ (k - 1)) maxDelayMs].  In both cases the
    error of the last invocation propagates. *)
Theorem withRetry_attempts {T} (operation : jsstring) (fn : M T)
  (options : RetryOptions) (retryable : bool) (w : World) :
  0 <= maxRetries (retryConfig options) ->
  quiet fn ->
  observerReturns options ->
  (forall w0, exists t w1,
     fn w0 = (Throw t, w1) /\
     isRetryableError t (retryableStatusCodes (retryConfig options)) = retryable) ->
  exists t wl w',
    withRetry (invoking operation fn) options w = (Throw t, w') /\
    invoking operation fn wl = (Throw t, w') /\
    attemptsAndWaits (trace w')
    = attemptsAndWaits (trace w) ++
        EvInvoke operation ::
        (if retryable
         then retriesFrom (retryConfig options) operation 1
                (Z.to_nat (maxRetries (retryConfig options)))
         else []) /\
    invocations (trace w')
    = invocations (trace w)
      + (if retryable then maxRetries (retryConfig options) + 1 else 1).
Proof.
  intros HN Hq Hobs Hfail.
  assert (Hcount : forall tr tr' extra,
    attemptsAndWaits tr' = attemptsAndWaits tr ++ EvInvoke operation :: extra ->
    invocations tr' = invocations tr + 1 + invocations extra).
  { intros tr tr' extra H.
    rewrite <- (invocations_attemptsAndWaits tr'), H, invocations_app.
    rewrite invocations_attemptsAndWaits.
    change (EvInvoke operation :: extra) with ([EvInvoke operation] ++ extra).
    rewrite invocations_app. unfold invocations at 2. cbn. lia. }
  unfold withRetry.
  replace (Z.to_nat (maxRetries (retryConfig options) + 1))
    with (S (Z.to_nat (maxRetries (retryConfig options)))) by lia.
  destruct retryable.
  - destruct (retryLoop_exhausts operation fn options HN Hq Hobs
                (Z.to_nat (maxRetries (retryConfig options))) 0%nat TNull w Hfail
                ltac:(lia)) as (t & wl & w' & Hrun & Hlast & Htr).
    exists t, wl, w'. repeat split; auto.
    rewrite (Hcount _ _ _ Htr), invocations_retriesFrom. lia.
  - rewrite (retryLoop_terminal operation fn options) by exact Hfail.
    pose proof (invoking_trace operation fn Hq w) as Htr.
    destruct (invoking operation fn w) as [r w'] eqn:E.
    unfold invoking in E. destruct (Hfail (emit (EvInvoke operation) w)) as (t & w1 & E1 & _).
    rewrite E1 in E. injection E as <- <-.
    exists t, w, w1. cbn [snd] in Htr.
    split; [reflexivity|]. split; [exact E1|]. split; [exact Htr|].
    rewrite (Hcount _ _ _ Htr). change (invocations []) with 0. lia.
Qed.

(** With the configuration of the pipeline: an operation that always
    answers 503 is invoked four times, after waits of 1, 2 and 4 seconds;
    one that always answers 404 is invoked once. *)
Lemma withRetry_attempts_witness :
  (exists t wl w',
     withRetry (invoking (lit "op") (alwaysStatus 503)) plainRetry emptyWorld
     = (Throw t, w') /\
     invoking (lit "op") (alwaysStatus 503) wl = (Throw t, w') /\
     attemptsAndWaits (trace w')
     = [EvInvoke (lit "op"); EvSleep 1000; EvInvoke (lit "op"); EvSleep 2000;
        EvInvoke (lit "op"); EvSleep 4000; EvInvoke (lit "op")] /\
     invocations (trace w') = 4) /\
  (exists t wl w',
     withRetry (invoking (lit "op") (alwaysStatus 404)) plainRetry emptyWorld
     = (Throw t, w') /\
     invoking (lit "op") (alwaysStatus 404) wl = (Throw t, w') /\
     attemptsAndWaits (trace w') = [EvInvoke (lit "op")] /\
     invocations (trace w') = 1).
Proof.
  split.
  - apply (withRetry_attempts (lit "op") (alwaysStatus 503) plainRetry true emptyWorld).
    + vm_compute. discriminate.
    + intros w. reflexivity.
    + intros attempt e w. exists w. split; reflexivity.
    + intros w0. eexists _, w0. split; [reflexivity|]. vm_compute. reflexivity.
  - apply (withRetry_attempts (lit "op") (alwaysStatus 404) plainRetry false emptyWorld).
    + vm_compute. discriminate.
    + intros w. reflexivity.
    + intros attempt e w. exists w. split; reflexivity.
    + intros w0. eexists _, w0. split; [reflexivity|]. vm_compute. reflexivity.
Defined.

(** ** Computations that throw only errors *)

Lemma throwsOnlyErrors_ret {A} (a : A) : throwsOnlyErrors (ret a).
Proof. intros w. discriminate. Qed.

Lemma throwsOnlyErrors_throw {A} e : throwsOnlyErrors (@throw A (TErr e)).
Proof. intros w. discriminate. Qed.

Lemma throwsOnlyErrors_perform e : throwsOnlyErrors (perform e).
Proof. intros w. discriminate. Qed.

Lemma throwsOnlyErrors_settled {A} (x : Error + A) :
  throwsOnlyErrors (liftOutcome (settled x)).
Proof. intros w. destruct x; discriminate. Qed.

Lemma throwsOnlyErrors_bind {A B} (m : M A) (k : A -> M B) :
  throwsOnlyErrors m -> (forall a, throwsOnlyErrors (k a)) ->
  throwsOnlyErrors (bind m k).
Proof.
  intros Hm Hk w. unfold bind. specialize (Hm w).
  destruct (m w) as [[a|t] w1]; [apply Hk|].
  cbn in *. congruence.
Qed.

Lemma throwsOnlyErrors_tryCatch {A} (m : M A) (handler : Thrown -> M A) :
  throwsOnlyErrors m -> (forall e, throwsOnlyErrors (handler (TErr e))) ->
  throwsOnlyErrors (tryCatch m handler).
Proof.
  intros Hm Hh w. unfold tryCatch. specialize (Hm w).
  destruct (m w) as [[a|[e|]] w1]; [discriminate|apply Hh|now cbn in Hm].
Qed.

Lemma returns_throwsOnlyErrors {A} (m : M A) : returns m -> throwsOnlyErrors m.
Proof. intros H w. destruct (H w) as [a ->]. discriminate. Qed.

Lemma throwsOnlyErrors_retryLoop {T} (fn : M T) options :
  throwsOnlyErrors fn ->
  (forall attempt e, throwsOnlyErrors (callOnRetry options attempt e)) ->
  forall iterations attempt lastError,
    (iterations = 0%nat -> lastError <> TNull) ->
    throwsOnlyErrors (retryLoop fn options iterations attempt lastError).
Proof.
  intros Hfn Hobs. induction iterations as [|n IH]; intros attempt lastError Hlast.
  - intros w. cbn. intros H. injection H as H. now apply Hlast.
  - cbn [retryLoop]. apply throwsOnlyErrors_tryCatch; [exact Hfn|].
    intros e.
    destruct (negb (isRetryableError (TErr e) _) || (attempt =? _)).
    + apply throwsOnlyErrors_throw.
    + apply throwsOnlyErrors_bind; [apply Hobs|]. intros _.
      apply throwsOnlyErrors_bind; [apply throwsOnlyErrors_perform|]. intros _.
      apply IH. discriminate.
Qed.

Lemma throwsOnlyErrors_withRetry {T} (fn : M T) options :
  0 <= maxRetries (retryConfig options) ->
  throwsOnlyErrors fn ->
  (forall attempt e, throwsOnlyErrors (callOnRetry options attempt e)) ->
  throwsOnlyErrors (withRetry fn options).
Proof.
  intros HN Hfn Hobs. unfold withRetry.
  apply throwsOnlyErrors_retryLoop; auto. lia.
Qed.

Lemma throwsOnlyErrors_retryLogging what attempt e :
  throwsOnlyErrors (callOnRetry (retryLogging what) attempt e).
Proof. apply throwsOnlyErrors_perform. Qed.

Lemma parseVibeScores_returns text : exists s, parseVibeScores text = Ok s.
Proof.
  unfold parseVibeScores.
  destruct (parseVibeScores_try text emptyVibeScores) as [thrown s] eqn:E.
  apply parseVibeScores_try_spec in E. destruct E as [Hn _].
  exists s. destruct thrown as [[e|]|]; congruence.
Qed.

Section ClientThrows.

Variable svc : Services.

Lemma throwsOnlyErrors_fetchWithError {B} request (answer : nat -> HttpAnswer B) :
  throwsOnlyErrors (fetchWithError request answer).
Proof.
  intros w. unfold fetchWithError.
  destruct (answer (tick w)) as [e|r]; [discriminate|].
  destruct (response_ok (resp_status r)); discriminate.
Qed.

Lemma throwsOnlyErrors_logged_fetch {B} request (answer : nat -> HttpAnswer B) what :
  throwsOnlyErrors (withRetry (fetchWithError request answer) (retryLogging what)).
Proof.
  apply throwsOnlyErrors_withRetry.
  - cbn. lia.
  - apply throwsOnlyErrors_fetchWithError.
  - apply throwsOnlyErrors_retryLogging.
Qed.

Lemma throwsOnlyErrors_nearbySearch lat lng placeType :
  throwsOnlyErrors (nearbySearch svc lat lng placeType).
Proof.
  unfold nearbySearch, acquire.
  apply throwsOnlyErrors_bind; [apply throwsOnlyErrors_perform|]. intros _.
  apply throwsOnlyErrors_bind; [apply throwsOnlyErrors_logged_fetch|]. intros response.
  apply throwsOnlyErrors_bind; [apply throwsOnlyErrors_settled|]. intros data.
  apply throwsOnlyErrors_ret.
Qed.

Lemma throwsOnlyErrors_searchTypes lat lng placeTypes : forall allPlaces seenIds,
  throwsOnlyErrors (searchTypes svc lat lng placeTypes allPlaces seenIds).
Proof.
  induction placeTypes as [|ty rest IH]; intros allPlaces seenIds; cbn [searchTypes].
  - apply throwsOnlyErrors_ret.
  - apply throwsOnlyErrors_bind; [apply throwsOnlyErrors_nearbySearch|]. intros found.
    destruct (addUnseen found allPlaces seenIds). apply IH.
Qed.

(** [getPlaceDetails] never throws: a failed lookup is [null]. *)
Lemma getPlaceDetails_returns placeId : returns (getPlaceDetails svc placeId).
Proof.
  intros w. unfold getPlaceDetails.
  destruct (detailsCache w !! placeId) as [cached|]; [now eexists|].
  unfold bind at 1, acquire, perform. unfold tryCatch.
  pose proof (throwsOnlyErrors_logged_fetch (EvFetchDetails placeId)
                (fun n => http_details svc n placeId) (lit "getPlaceDetails")
                (emit (EvAcquire PlacesLimiter) w)) as Hne.
  unfold bind at 1.
  destruct (withRetry _ _ _) as [[response|[e|]] w1].
  - unfold bind at 1, liftOutcome.
    destruct (resp_json response) as [e|data]; cbn; now eexists.
  - cbn. now eexists.
  - now cbn in Hne.
Qed.

Lemma throwsOnlyErrors_scoreVibes reviewText : throwsOnlyErrors (scoreVibes svc reviewText).
Proof.
  unfold scoreVibes, acquire.
  apply throwsOnlyErrors_bind; [apply throwsOnlyErrors_perform|]. intros _.
  apply throwsOnlyErrors_bind.
  - apply throwsOnlyErrors_withRetry.
    + cbn. lia.
    + intros w. cbn. destruct (openai_create svc (tick w) _); discriminate.
    + apply throwsOnlyErrors_retryLogging.
  - intros outputText w. cbn.
    destruct (parseVibeScores_returns outputText) as (s & ->).
    discriminate.
Qed.

End ClientThrows.

(** ** The loop of main *)

Section OrchestratorThrows.

Variable svc : Services.

Lemma upsertVenues_returns rows dryRun : returns (upsertVenues svc rows dryRun).
Proof.
  intros w. unfold upsertVenues.
  destruct (dryRun || bool_decide (rows = [])); [now eexists|].
  destruct (db_upsert_venues svc (tick w) rows); now eexists.
Qed.

Lemma throwsOnlyErrors_upsertCellVibes vibes dryRun :
  throwsOnlyErrors (upsertCellVibes svc vibes dryRun).
Proof.
  intros w. unfold upsertCellVibes. destruct dryRun; [discriminate|].
  destruct (db_insert_vibes svc _ vibes); discriminate.
Qed.

Lemma fetchTopDetails_returns topVenues : forall placeDetails,
  returns (fetchTopDetails svc topVenues placeDetails).
Proof.
  induction topVenues as [|venue rest IH]; intros placeDetails w; cbn [fetchTopDetails].
  - now eexists.
  - unfold bind. destruct (getPlaceDetails_returns svc (place_id venue) w) as [details H].
    destruct (getPlaceDetails svc (place_id venue) w) as [r w1]. cbn in H. subst r.
    apply IH.
Qed.

Lemma throwsOnlyErrors_scoreCell cell options topVenues :
  throwsOnlyErrors (scoreCell svc cell options topVenues).
Proof.
  unfold scoreCell. destruct topVenues as [|v top].
  - apply throwsOnlyErrors_bind; [intros w; discriminate|]. intros computed.
    apply throwsOnlyErrors_upsertCellVibes.
  - apply throwsOnlyErrors_bind;
      [apply returns_throwsOnlyErrors, fetchTopDetails_returns|]. intros placeDetails.
    apply throwsOnlyErrors_bind.
    + destruct (agg_text _); [apply throwsOnlyErrors_ret|apply throwsOnlyErrors_scoreVibes].
    + intros vibeScores.
      apply throwsOnlyErrors_bind; [intros w; discriminate|]. intros computed.
      apply throwsOnlyErrors_upsertCellVibes.
Qed.

Lemma throwsOnlyErrors_processCell cell options :
  throwsOnlyErrors (processCell svc cell options).
Proof.
  unfold processCell. destruct (parsePointWKT (centroid cell)) as [coords|];
    [|apply throwsOnlyErrors_throw].
  apply throwsOnlyErrors_bind; [apply throwsOnlyErrors_searchTypes|]. intros allPlaces.
  apply throwsOnlyErrors_bind;
    [apply returns_throwsOnlyErrors, upsertVenues_returns|]. intros _.
  apply throwsOnlyErrors_scoreCell.
Qed.

(** One turn of the loop of [main]. *)
Lemma processCells_step options total cell rest processed failedCells w :
  processCells svc options total (cell :: rest) processed failedCells w
  = match processCell svc cell options w with
    | (Ok _, w1) =>
        processCells svc options total rest (processed + 1) failedCells
          (pauseBetweenCells (processed + 1) total w1)
    | (Throw (TErr e), w1) =>
        processCells svc options total rest (processed + 1)
          (failedCells ++ [failureRecord svc cell e w1])
          (pauseBetweenCells (processed + 1) total w1)
    | (Throw TNull, w1) => (Throw nullMessageError, w1)
    end.
Proof.
  cbn [processCells]. unfold bind at 1, tryCatch, bind at 1.
  unfold pauseBetweenCells.
  destruct (processCell svc cell options w) as [[[]|[e|]] w1]; cbn.
  - unfold bind. destruct (processed + 1 <? total); reflexivity.
  - unfold bind. destruct (processed + 1 <? total); reflexivity.
  - reflexivity.
Qed.



End OrchestratorThrows.


(** ** The footprint of the computations *)

Lemma cacheGrows_refl w : cacheGrows w w.
Proof. intros placeId d H. exact H. Qed.

Lemma cacheGrows_trans a b c : cacheGrows a b -> cacheGrows b c -> cacheGrows a c.
Proof. intros Hab Hbc placeId d H. apply Hbc, Hab, H. Qed.

Lemma traceAdds_refl P w : traceAdds P w w.
Proof. exists []. split; [now rewrite app_nil_r|constructor]. Qed.

Lemma traceAdds_trans P a b c : traceAdds P a b -> traceAdds P b c -> traceAdds P a c.
Proof.
  intros (l1 & E1 & F1) (l2 & E2 & F2).
  exists (l1 ++ l2). split; [now rewrite E2, E1, app_assoc|].
  apply Forall_app. now split.
Qed.

Lemma traceAdds_emit (P : Event -> Prop) e w : P e -> traceAdds P w (emit e w).
Proof. intros He. exists [e]. split; [reflexivity|]. now repeat constructor. Qed.

Lemma traceAdds_weaken (P Q : Event -> Prop) w w' :
  (forall e, P e -> Q e) -> traceAdds P w w' -> traceAdds Q w w'.
Proof.
  intros HPQ (l & E & F). exists l. split; [exact E|]. eapply Forall_impl; eauto.
Qed.

#[global] Instance footprint_effects P : Effects (footprint P) P.
Proof.
  split.
  - intros w. split; [apply cacheGrows_refl|apply traceAdds_refl].
  - intros a b c [G1 T1] [G2 T2].
    split; [eapply cacheGrows_trans|eapply traceAdds_trans]; eauto.
  - intros e w He. split; [intros p d H; exact H|now apply traceAdds_emit].
Qed.

#[global] Instance cacheKept_effects P : Effects (cacheKept P) P.
Proof.
  split.
  - intros w. split; [reflexivity|apply traceAdds_refl].
  - intros a b c [G1 T1] [G2 T2].
    split; [congruence|eapply traceAdds_trans; eauto].
  - intros e w He. split; [reflexivity|now apply traceAdds_emit].
Qed.

Lemma cacheKept_footprint P w w' : cacheKept P w w' -> footprint P w w'.
Proof. intros [Hc Ht]. split; [|exact Ht]. intros p d H. now rewrite Hc. Qed.

Lemma footprint_weaken (P Q : Event -> Prop) w w' :
  (forall e, P e -> Q e) -> footprint P w w' -> footprint Q w w'.
Proof. intros HPQ [Hg Ht]. split; [exact Hg|]. eapply traceAdds_weaken; eauto. Qed.

Lemma cacheKept_weaken (P Q : Event -> Prop) w w' :
  (forall e, P e -> Q e) -> cacheKept P w w' -> cacheKept Q w w'.
Proof. intros HPQ [Hg Ht]. split; [exact Hg|]. eapply traceAdds_weaken; eauto. Qed.

Section Preserves.

Context {R : World -> World -> Prop} {P : Event -> Prop} `{!Effects R P}.

Lemma preserves_ret {A} (a : A) : preserves R (ret a).
Proof. intros w. apply effects_refl. Qed.

Lemma preserves_throw {A} t : preserves R (@throw A t).
Proof. intros w. apply effects_refl. Qed.

Lemma preserves_liftOutcome {A} (o : Outcome A) : preserves R (liftOutcome o).
Proof. intros w. apply effects_refl. Qed.

Lemma preserves_perform e : P e -> preserves R (perform e).
Proof. intros He w. now apply effects_emit. Qed.

Lemma preserves_bind {A B} (m : M A) (k : A -> M B) :
  preserves R m -> (forall a, preserves R (k a)) -> preserves R (bind m k).
Proof.
  intros Hm Hk w. unfold bind. specialize (Hm w).
  destruct (m w) as [[a|t] w1]; cbn [snd] in *; [|exact Hm].
  eapply effects_trans; [exact Hm|apply Hk].
Qed.

Lemma preserves_tryCatch {A} (m : M A) (handler : Thrown -> M A) :
  preserves R m -> (forall t, preserves R (handler t)) ->
  preserves R (tryCatch m handler).
Proof.
  intros Hm Hh w. unfold tryCatch. specialize (Hm w).
  destruct (m w) as [[a|t] w1]; cbn [snd] in *; [exact Hm|].
  eapply effects_trans; [exact Hm|apply Hh].
Qed.

Lemma preserves_retryLoop {T} (fn : M T) options :
  preserves R fn ->
  (forall attempt e, preserves R (callOnRetry options attempt e)) ->
  (forall ms, P (EvSleep ms)) ->
  forall iterations attempt lastError,
    preserves R (retryLoop fn options iterations attempt lastError).
Proof.
  intros Hfn Hobs Hsleep. induction iterations as [|n IH]; intros attempt lastError.
  - apply preserves_throw.
  - cbn [retryLoop]. apply preserves_tryCatch; [exact Hfn|]. intros t.
    destruct (negb _ || _); [apply preserves_throw|].
    apply preserves_bind; [apply Hobs|]. intros _.
    apply preserves_bind; [apply preserves_perform, Hsleep|]. intros _. apply IH.
Qed.

Lemma preserves_logged {T} (fn : M T) what :
  preserves R fn -> (forall e, retryNoise e -> P e) ->
  preserves R (withRetry fn (retryLogging what)).
Proof.
  intros Hfn Hnoise. unfold withRetry. apply preserves_retryLoop; [exact Hfn| |].
  - intros attempt e. apply preserves_perform, Hnoise. exact I.
  - intros ms. apply Hnoise. exact I.
Qed.

Lemma preserves_fetchWithError {B} request (answer : nat -> HttpAnswer B) :
  P request -> preserves R (fetchWithError request answer).
Proof.
  intros Hreq w. unfold fetchWithError.
  destruct (answer (tick w)) as [e|r]; [now apply effects_emit|].
  destruct (response_ok _); now apply effects_emit.
Qed.

End Preserves.

Lemma retryNoise_searchEvent e : retryNoise e -> searchEvent e.
Proof. destruct e; cbn; tauto. Qed.

Lemma retryNoise_detailsEvent ids e : retryNoise e -> detailsEvent ids e.
Proof. destruct e; cbn; tauto. Qed.

Lemma retryNoise_scoringEvent e : retryNoise e -> scoringEvent e.
Proof. destruct e; cbn; tauto. Qed.

Section ClientFootprint.

Variable svc : Services.

Lemma nearbySearch_footprint lat lng placeType :
  preserves (cacheKept searchEvent) (nearbySearch svc lat lng placeType).
Proof.
  unfold nearbySearch, acquire.
  apply preserves_bind; [now apply preserves_perform|]. intros _.
  apply preserves_bind.
  - apply preserves_logged; [|apply retryNoise_searchEvent].
    now apply preserves_fetchWithError.
  - intros response. apply preserves_bind.
    + apply preserves_liftOutcome.
    + intros data. apply preserves_ret.
Qed.

Lemma searchTypes_footprint lat lng placeTypes : forall allPlaces seenIds,
  preserves (cacheKept searchEvent) (searchTypes svc lat lng placeTypes allPlaces seenIds).
Proof.
  induction placeTypes as [|ty rest IH]; intros allPlaces seenIds; cbn [searchTypes].
  - apply preserves_ret.
  - apply preserves_bind; [apply nearbySearch_footprint|].
    intros found. destruct (addUnseen found allPlaces seenIds). apply IH.
Qed.

Lemma scoreVibes_footprint reviewText :
  preserves (cacheKept scoringEvent) (scoreVibes svc reviewText).
Proof.
  unfold scoreVibes, acquire.
  apply preserves_bind; [now apply preserves_perform|]. intros _.
  apply preserves_bind.
  - apply preserves_logged; [|apply retryNoise_scoringEvent].
    intros w. now apply effects_emit.
  - intros outputText. apply preserves_liftOutcome.
Qed.

Lemma getPlaceDetails_footprint placeId :
  preserves (footprint (detailsEvent [placeId])) (getPlaceDetails svc placeId).
Proof.
  intros w. unfold getPlaceDetails.
  destruct (detailsCache w !! placeId) as [cached|] eqn:Hmiss; [apply effects_refl|].
  assert (Hfetch : preserves (cacheKept (detailsEvent [placeId]))
            (withRetry (fetchWithError (EvFetchDetails placeId)
                          (fun n => http_details svc n placeId))
               (retryLogging (lit "getPlaceDetails")))).
  { apply preserves_logged; [|apply retryNoise_detailsEvent].
    apply preserves_fetchWithError. cbn. apply list_elem_of_here. }
  unfold bind at 1, acquire, perform, tryCatch, bind at 1.
  set (w0 := emit (EvAcquire PlacesLimiter) w).
  specialize (Hfetch w0).
  assert (H0 : cacheKept (detailsEvent [placeId]) w w0)
    by (apply effects_emit; exact I).
  destruct (withRetry _ _ w0) as [[response|t] w1] eqn:E; cbn [snd] in Hfetch.
  - pose proof (effects_trans _ _ _ H0 Hfetch) as H1.
    unfold bind at 1, liftOutcome.
    destruct (resp_json response) as [e|data]; cbn [settled].
    + cbn. now apply cacheKept_footprint.
    + unfold bind. cbn [snd fst].
      destruct H1 as [Hc Ht]. split.
      * intros p d Hp. cbn. rewrite lookup_insert_ne; [now rewrite Hc|].
        intros ->. congruence.
      * destruct Ht as (l & El & Fl). exists l. split; [exact El|exact Fl].
  - pose proof (effects_trans _ _ _ H0 Hfetch) as H1.
    destruct t; cbn; now apply cacheKept_footprint.
Qed.

End ClientFootprint.

Section OrchestratorFootprint.

Variable svc : Services.

Lemma now_effect w : now svc w = (Ok (date_now svc (tick w)), w).
Proof. reflexivity. Qed.

Lemma preserves_now {R P} `{!Effects R P} : preserves R (now svc).
Proof. intros w. apply effects_refl. Qed.

(** [upsertVenues] returns normally whatever the store answers; it sends
    the rows unless the run is dry or there is none, and the table changes
    only when the store accepts them. *)
Lemma upsertVenues_effect rows dryRun w :
  exists w',
    upsertVenues svc rows dryRun w = (Ok tt, w') /\
    detailsCache w' = detailsCache w /\
    cell_vibes w' = cell_vibes w /\
    trace w' = trace w ++ (if dryRun || bool_decide (rows = []) then []
                           else [EvUpsertVenues rows]) /\
    venues w' = (if dryRun || bool_decide (rows = []) then venues w
                 else match db_upsert_venues svc (tick w) rows with
                      | Some _ => venues w
                      | None => upsertRows rows (venues w)
                      end).
Proof.
  unfold upsertVenues. destruct (dryRun || bool_decide (rows = [])).
  - exists w. rewrite app_nil_r. auto.
  - destruct (db_upsert_venues svc (tick w) rows); eexists;
      (split; [reflexivity|]); auto.
Qed.

Lemma upsertCellVibes_footprint vibes dryRun :
  preserves (cacheKept (vibesWrite (grid_cell_id vibes))) (upsertCellVibes svc vibes dryRun).
Proof.
  intros w. unfold upsertCellVibes. destruct dryRun; [apply effects_refl|].
  assert (H : cacheKept (vibesWrite (grid_cell_id vibes)) w
                (emit (EvInsertVibes vibes)
                   (emit (EvDeleteVibes (grid_cell_id vibes)) w))).
  { eapply effects_trans; apply effects_emit; reflexivity. }
  destruct H as [Hc (l & El & Fl)].
  destruct (db_delete_vibes svc (tick w) (grid_cell_id vibes));
    destruct (db_insert_vibes svc _ vibes); cbn [snd];
    (split; [exact Hc|exists l; split; [exact El|exact Fl]]).
Qed.

Lemma detailsEvent_mono ids ids' e :
  (forall p, p ∈ ids -> p ∈ ids') -> detailsEvent ids e -> detailsEvent ids' e.
Proof. intros Hsub. destruct e; cbn; auto. Qed.

Lemma fetchTopDetails_footprint topVenues : forall placeDetails,
  preserves (footprint (detailsEvent (place_id <$> topVenues)))
    (fetchTopDetails svc topVenues placeDetails).
Proof.
  induction topVenues as [|venue rest IH]; intros placeDetails; cbn [fetchTopDetails].
  - apply preserves_ret.
  - apply preserves_bind.
    + intros w. eapply footprint_weaken; [|apply getPlaceDetails_footprint].
      intros e. apply detailsEvent_mono. intros p Hp.
      apply list_elem_of_singleton in Hp. subst p. apply list_elem_of_here.
    + intros details w. eapply footprint_weaken; [|apply IH].
      intros e. apply detailsEvent_mono. intros p Hp. now apply list_elem_of_further.
Qed.

Lemma scoreCell_footprint cell options topVenues :
  preserves (footprint (scoreCellEvent (cell_id cell) (place_id <$> topVenues)))
    (scoreCell svc cell options topVenues).
Proof.
  set (ids := place_id <$> topVenues).
  assert (Hsub : forall e, detailsEvent (place_id <$> topVenues) e -> detailsEvent ids e)
    by auto.
  clearbody ids.
  assert (Hwrite : forall vibes, grid_cell_id vibes = cell_id cell ->
            preserves (footprint (scoreCellEvent (cell_id cell) ids))
              (upsertCellVibes svc vibes (dryRun options))).
  { intros vibes Hid w. apply cacheKept_footprint.
    eapply cacheKept_weaken; [|apply upsertCellVibes_footprint].
    intros e He. right. right. now rewrite <- Hid. }
  unfold scoreCell. destruct topVenues as [|v top].
  - apply preserves_bind; [apply preserves_now|]. intros computed. now apply Hwrite.
  - apply preserves_bind.
    + intros w. eapply footprint_weaken; [|apply fetchTopDetails_footprint].
      intros e He. left. now apply Hsub.
    + intros placeDetails. apply preserves_bind.
      * destruct (agg_text _); [apply preserves_ret|].
        intros w. apply cacheKept_footprint.
        eapply cacheKept_weaken; [|apply scoreVibes_footprint].
        intros e He. right. now left.
      * intros vibeScores. apply preserves_bind; [apply preserves_now|].
        intros computed. now apply Hwrite.
Qed.

Lemma processCell_footprint cell options :
  preserves (footprint anyEvent) (processCell svc cell options).
Proof.
  unfold processCell. destruct (parsePointWKT (centroid cell)) as [coords|];
    [|apply preserves_throw].
  apply preserves_bind.
  - intros w. apply cacheKept_footprint.
    eapply cacheKept_weaken; [|apply searchTypes_footprint]. now intros e _.
  - intros allPlaces. apply preserves_bind.
    + intros w. destruct (upsertVenues_effect (toVenueData cell coords <$>
                  rankVenues (filterQualifiedVenues allPlaces MIN_REVIEW_COUNT))
                  (dryRun options) w) as (w' & -> & Hc & _ & Ht & _).
      cbn [snd]. apply cacheKept_footprint. split; [exact Hc|].
      eexists. split; [exact Ht|]. destruct (_ || _); repeat constructor.
    + intros _ w. eapply footprint_weaken; [|apply scoreCell_footprint]. now intros e _.
Qed.

Lemma processCells_footprint options total cells : forall processed failedCells,
  preserves (footprint anyEvent) (processCells svc options total cells processed failedCells).
Proof.
  induction cells as [|cell rest IH]; intros processed failedCells; cbn [processCells].
  - apply preserves_ret.
  - apply preserves_bind.
    + apply preserves_tryCatch.
      * apply preserves_bind; [apply processCell_footprint|]. intros _. apply preserves_ret.
      * intros [e|]; cbn [recordFailure]; [|apply preserves_throw].
        apply preserves_bind; [apply preserves_now|]. intros stamp. apply preserves_ret.
    + intros failedCells'. apply preserves_bind; [|intros _; apply IH].
      destruct (_ <? _); [now apply preserves_perform|apply preserves_ret].
Qed.

(** A lookup that finds its place in the cache does nothing else. *)
Lemma getPlaceDetails_hit placeId d w :
  detailsCache w !! placeId = Some d ->
  getPlaceDetails svc placeId w = (Ok (Some d), w).
Proof. intros H. unfold getPlaceDetails. now rewrite H. Qed.

End OrchestratorFootprint.

(** ** The in-run cache of place details *)

Lemma detailFetches_app placeId a b :
  detailFetches placeId (a ++ b) = (detailFetches placeId a + detailFetches placeId b)%nat.
Proof. unfold detailFetches. now rewrite List.filter_app, length_app. Qed.

Lemma retryLoop_after_first {T} {R P} `{!Effects R P} (fn : M T) options n attempt
  lastError w :
  preserves R fn ->
  (forall a e, preserves R (callOnRetry options a e)) ->
  (forall ms, P (EvSleep ms)) ->
  R (snd (fn w)) (snd (retryLoop fn options (S n) attempt lastError w)).
Proof.
  intros Hfn Hobs Hsleep. cbn [retryLoop]. unfold tryCatch.
  destruct (fn w) as [[a|t] w1]; cbn [snd]; [apply effects_refl|].
  destruct (negb _ || _); [apply effects_refl|].
  apply (preserves_bind (R := R)); [apply Hobs|]. intros _.
  apply (preserves_bind (R := R)); [apply preserves_perform, Hsleep|]. intros _.
  now apply preserves_retryLoop.
Qed.

Section DetailsCache.

Variable svc : Services.

(** A lookup that misses the cache fetches, and stores what it found. *)
Lemma getPlaceDetails_miss placeId w :
  detailsCache w !! placeId = None ->
  exists r w' more,
    getPlaceDetails svc placeId w = (Ok r, w') /\
    trace w' = trace w ++ EvAcquire PlacesLimiter :: EvFetchDetails placeId :: more /\
    match r with
    | Some d => detailsCache w' = <[placeId := d]> (detailsCache w)
    | None => detailsCache w' = detailsCache w
    end.
Proof.
  intros Hmiss. unfold getPlaceDetails. rewrite Hmiss.
  unfold bind at 1, acquire, perform, tryCatch, bind at 1.
  set (w0 := emit (EvAcquire PlacesLimiter) w).
  set (fn := fetchWithError (EvFetchDetails placeId) (fun n => http_details svc n placeId)).
  assert (Hfn : preserves (cacheKept (detailsEvent [placeId])) fn).
  { apply preserves_fetchWithError. cbn. apply list_elem_of_here. }
  assert (Hrest : cacheKept (detailsEvent [placeId]) (snd (fn w0))
            (snd (withRetry fn (retryLogging (lit "getPlaceDetails")) w0))).
  { unfold withRetry. change (Z.to_nat _) with 4%nat.
    apply retryLoop_after_first; [exact Hfn| |].
    - intros a e. now apply preserves_perform.
    - intros ms. exact I. }
  assert (Hfirst : detailsCache (snd (fn w0)) = detailsCache w /\
                   trace (snd (fn w0))
                   = trace w ++ [EvAcquire PlacesLimiter; EvFetchDetails placeId]).
  { unfold fn, fetchWithError. destruct (http_details svc (tick w0) placeId) as [e|r].
    - cbn. now rewrite <- app_assoc.
    - destruct (response_ok _); cbn; now rewrite <- app_assoc. }
  destruct Hfirst as [Hc1 Ht1]. destruct Hrest as [Hc2 (more & Ht2 & _)].
  rewrite Hc1 in Hc2. rewrite Ht1, <- app_assoc in Ht2. cbn [app] in Ht2.
  pose proof (throwsOnlyErrors_logged_fetch (EvFetchDetails placeId)
                (fun n => http_details svc n placeId) (lit "getPlaceDetails") w0) as Hne.
  fold fn in Hne.
  destruct (withRetry fn _ w0) as [[response|[e|]] w1]; cbn [snd fst] in *.
  - unfold bind at 1, liftOutcome.
    destruct (resp_json response) as [e|data]; cbn [settled].
    + exists None, w1, more. auto.
    + eexists (Some data), _, more. cbn. rewrite Hc2. auto.
  - exists None, w1, more. auto.
  - congruence.
Qed.

End DetailsCache.

(** C7, as amended.  A call of [getPlaceDetails] for an identifier that is
    in the in-run cache is answered from the cache and does nothing else,
    and the entry stays for the rest of the run, whatever cells are
    processed in between: after a successful fetch there is no further
    fetch for that identifier.  A call for an identifier that is not in the
    cache fetches; what it finds is stored, and a failure stores nothing, so
    that the next call for the identifier fetches again. *)
Theorem getPlaceDetails_cache (svc : Services) (placeId : jsstring) (w : World) :
  (forall d, detailsCache w !! placeId = Some d ->
     getPlaceDetails svc placeId w = (Ok (Some d), w) /\
     forall options total cells processed failedCells,
       let w' := snd (processCells svc options total cells processed failedCells w) in
       getPlaceDetails svc placeId w' = (Ok (Some d), w')) /\
  (detailsCache w !! placeId = None ->
     exists r w',
       getPlaceDetails svc placeId w = (Ok r, w') /\
       (detailFetches placeId (trace w) < detailFetches placeId (trace w'))%nat /\
       match r with
       | Some d => detailsCache w' = <[placeId := d]> (detailsCache w)
       | None => detailsCache w' = detailsCache w
       end).
Proof.
  split.
  - intros d Hd. split; [now apply getPlaceDetails_hit|].
    intros options total cells processed failedCells w'.
    apply getPlaceDetails_hit.
    destruct (processCells_footprint svc options total cells processed failedCells w)
      as [Hgrows _].
    now apply Hgrows.
  - intros Hmiss.
    destruct (getPlaceDetails_miss svc placeId w Hmiss) as (r & w' & more & E & Ht & Hc).
    exists r, w'. split; [exact E|]. split; [|exact Hc].
    rewrite Ht, detailFetches_app. unfold detailFetches at 3.
    cbn [List.filter length]. unfold jsstring_eqb.
    rewrite bool_decide_eq_true_2 by reflexivity. cbn [length]. lia.
Qed.

(** With a catalog that finds the place: the first lookup fetches and
    stores, the second is answered from the cache. *)
Lemma getPlaceDetails_cache_witness :
  (exists r w',
     getPlaceDetails detailsFound (lit "x") emptyWorld = (Ok r, w') /\
     (detailFetches (lit "x") (trace emptyWorld)
      < detailFetches (lit "x") (trace w'))%nat /\
     match r with
     | Some d => detailsCache w' = <[lit "x" := d]> (detailsCache emptyWorld)
     | None => detailsCache w' = detailsCache emptyWorld
     end) /\
  getPlaceDetails detailsFound (lit "x") (afterLookups detailsFound (lit "x") 1 emptyWorld)
  = (Ok (Some (placeWithReviews (lit "x") [])),
     afterLookups detailsFound (lit "x") 1 emptyWorld).
Proof.
  split.
  - apply (getPlaceDetails_cache detailsFound (lit "x") emptyWorld). reflexivity.
  - apply (getPlaceDetails_cache detailsFound (lit "x")
             (afterLookups detailsFound (lit "x") 1 emptyWorld)).
    vm_compute. reflexivity.
Defined.

(** C7, as first stated, fails: a lookup that failed is not remembered.
    With a catalog that answers 404, two calls for one identifier make two
    fetches; with one that answers 503, a single call makes four. *)
Lemma getPlaceDetails_refetches_after_failure :
  fst (getPlaceDetails (detailsAlways 404) (lit "x") emptyWorld) = Ok None /\
  detailFetches (lit "x")
    (trace (afterLookups (detailsAlways 404) (lit "x") 2 emptyWorld)) = 2%nat /\
  detailFetches (lit "x")
    (trace (afterLookups (detailsAlways 503) (lit "x") 1 emptyWorld)) = 4%nat.
Proof. repeat split; vm_compute; reflexivity. Qed.

(** ** The venues recorded for a cell *)

Lemma filterQualifiedVenues_spec venues minReviewCount p :
  p ∈ filterQualifiedVenues venues minReviewCount
  <-> p ∈ venues /\ (minReviewCount <= valueOr0 (userRatingCount p))%Q.
Proof.
  unfold filterQualifiedVenues. rewrite list_elem_of_In, filter_In, <- list_elem_of_In.
  rewrite Qle_bool_iff, orZero_value. reflexivity.
Qed.

Lemma rankVenues_elem venues p : p ∈ rankVenues venues <-> p ∈ venues.
Proof.
  assert (H : Permutation (rankVenues venues) venues)
    by apply Array_sort_perm_any.
  split; intros Hp; [now rewrite <- H|now rewrite H].
Qed.

Section RecordedVenues.

Variable svc : Services.

(** After a successful search, [processCell] is the upsert of the ranked
    qualified venues followed by steps 6 to 10 on the first of them. *)
Lemma processCell_steps cell options coords w allPlaces w1 :
  parsePointWKT (centroid cell) = Some coords ->
  searchAllTypes svc (lat coords) (lng coords) PLACE_TYPES w = (Ok allPlaces, w1) ->
  processCell svc cell options w
  = scoreCell svc cell options
      (take TOP_VENUES_PER_CELL
         (rankVenues (filterQualifiedVenues allPlaces MIN_REVIEW_COUNT)))
      (snd (upsertVenues svc
              (toVenueData cell coords <$>
                 rankVenues (filterQualifiedVenues allPlaces MIN_REVIEW_COUNT))
              (dryRun options) w1)).
Proof.
  intros Hparse Hsearch. unfold processCell. rewrite Hparse.
  unfold bind at 1. rewrite Hsearch. unfold bind at 1.
  destruct (upsertVenues_effect svc
              (toVenueData cell coords <$>
                 rankVenues (filterQualifiedVenues allPlaces MIN_REVIEW_COUNT))
              (dryRun options) w1) as (w2 & -> & _).
  reflexivity.
Qed.

Lemma upsertedRows_app a b : upsertedRows (a ++ b) = upsertedRows a ++ upsertedRows b.
Proof. apply flat_map_app. Qed.

Lemma upsertedRows_scoreCellEvent cellId ids added :
  Forall (scoreCellEvent cellId ids) added -> upsertedRows added = [].
Proof.
  induction 1 as [|e l He _ IH]; [reflexivity|].
  cbn [upsertedRows flat_map]. fold (upsertedRows l). rewrite IH, app_nil_r.
  destruct e; try reflexivity.
  destruct He as [He|[He|He]]; destruct He.
Qed.

End RecordedVenues.

(** C3, as amended.  For every cell whose search succeeds, the venues sent
    to the venue upsert are the qualified venues (rating count at least the
    threshold) among those discovered, in rank order; a discovered venue
    below the threshold is not recorded.  Nothing else is upserted for the
    cell, and what follows (detail fetches, scoring, the score row) concerns
    only the first of the ranked qualified venues. *)
Theorem processCell_records_qualified (svc : Services) (cell : GridCell)
  (options : CliOptions) (coords : Coords) (w w1 : World)
  (allPlaces : list GooglePlace) :
  parsePointWKT (centroid cell) = Some coords ->
  searchAllTypes svc (lat coords) (lng coords) PLACE_TYPES w = (Ok allPlaces, w1) ->
  let qualified := filterQualifiedVenues allPlaces MIN_REVIEW_COUNT in
  let ranked := rankVenues qualified in
  let rows := toVenueData cell coords <$> ranked in
  (forall p, p ∈ qualified
             <-> p ∈ allPlaces /\ (MIN_REVIEW_COUNT <= valueOr0 (userRatingCount p))%Q) /\
  (forall row, row ∈ rows <-> exists p, p ∈ qualified /\ row = toVenueData cell coords p) /\
  (forall p, p ∈ take TOP_VENUES_PER_CELL ranked -> p ∈ qualified) /\
  exists w2 added,
    upsertVenues svc rows (dryRun options) w1 = (Ok tt, w2) /\
    (dryRun options = false -> db_upsert_venues svc (tick w1) rows = None ->
     venues w2 = upsertRows rows (venues w1)) /\
    trace (snd (processCell svc cell options w))
    = trace w1 ++ (if dryRun options || bool_decide (rows = []) then []
                   else [EvUpsertVenues rows]) ++ added /\
    Forall (scoreCellEvent (cell_id cell) (place_id <$> take TOP_VENUES_PER_CELL ranked))
      added /\
    upsertedRows (trace (snd (processCell svc cell options w)))
    = upsertedRows (trace w1) ++ (if dryRun options then [] else rows).
Proof.
  intros Hparse Hsearch qualified ranked rows.
  split; [intros p; apply filterQualifiedVenues_spec|].
  split.
  { intros row. unfold rows. rewrite list_elem_of_fmap. split.
    - intros (p & -> & Hp). exists p. split; [now apply rankVenues_elem|reflexivity].
    - intros (p & Hp & ->). exists p. split; [reflexivity|now apply rankVenues_elem]. }
  split.
  { intros p Hp. apply rankVenues_elem. now apply (subseteq_take TOP_VENUES_PER_CELL). }
  rewrite (processCell_steps svc cell options coords w allPlaces w1 Hparse Hsearch).
  fold qualified ranked rows.
  destruct (upsertVenues_effect svc rows (dryRun options) w1)
    as (w2 & E & _ & _ & Ht & Hv).
  rewrite E. cbn [snd].
  destruct (scoreCell_footprint svc cell options (take TOP_VENUES_PER_CELL ranked) w2)
    as [_ (added & Hadded & Hall)].
  exists w2, added. split; [reflexivity|]. split.
  { intros Hdry Hacc. rewrite Hv, Hdry, Hacc. cbn [orb].
    case_bool_decide as Hrows; [|reflexivity]. now rewrite Hrows. }
  split; [now rewrite Hadded, Ht, <- app_assoc|]. split; [exact Hall|].
  rewrite Hadded, Ht, !upsertedRows_app.
  rewrite (upsertedRows_scoreCellEvent _ _ _ Hall), app_nil_r. f_equal.
  destruct (dryRun options); [reflexivity|]. cbn [orb].
  case_bool_decide as Hrows; [now rewrite Hrows|]. cbn. now rewrite app_nil_r.
Qed.

(** A cell with one qualified venue among the two discovered: the row of
    that venue alone is upserted. *)
Lemma processCell_records_qualified_witness :
  upsertedRows (trace (snd (processCell (catalogWith [smallVenue; venueB]) sampleCell
                              plainOptions emptyWorld)))
  = [toVenueData sampleCell sampleCoords venueB].
Proof.
  pose proof (processCell_records_qualified (catalogWith [smallVenue; venueB]) sampleCell
                plainOptions sampleCoords emptyWorld
                (snd (searchAllTypes (catalogWith [smallVenue; venueB]) (Some 2%Q)
                        (Some 1%Q) PLACE_TYPES emptyWorld))
                [smallVenue; venueB] eq_refl eq_refl) as H.
  cbv zeta in H. destruct H as (_ & _ & _ & w2 & added & _ & _ & _ & _ & H).
  exact H.
Defined.

(** C3, as first stated, fails: a discovered venue below the threshold is
    not recorded.  The search finds the venue with five ratings, the cell
    succeeds, and no venue row is sent to the store or written. *)
Lemma processCell_skips_unqualified :
  fst (searchAllTypes (catalogWith [smallVenue]) (Some 2%Q) (Some 1%Q) PLACE_TYPES
         emptyWorld) = Ok [smallVenue] /\
  fst (processCell (catalogWith [smallVenue]) sampleCell plainOptions emptyWorld) = Ok tt /\
  upsertedRows (trace (snd (processCell (catalogWith [smallVenue]) sampleCell
                              plainOptions emptyWorld))) = [] /\
  venues (snd (processCell (catalogWith [smallVenue]) sampleCell plainOptions emptyWorld))
  = ∅.
Proof. repeat split; vm_compute; reflexivity. Qed.

(** ** Errors of the store *)

Section StoreErrors.

Variable svc : Services.

Lemma upsertCellVibes_rejected vibes w e :
  db_insert_vibes svc (S (tick w)) vibes = Some e ->
  exists w', upsertCellVibes svc vibes false w = (Throw (TErr e), w').
Proof.
  intros Hrej. unfold upsertCellVibes.
  set (w2 := match db_delete_vibes svc (tick w) (grid_cell_id vibes) with
             | Some _ => _
             | None => _
             end).
  assert (Htick : tick w2 = S (tick w)).
  { unfold w2, tick. destruct (db_delete_vibes svc _ _); cbn; rewrite length_app; cbn; lia. }
  rewrite Htick, Hrej. now eexists.
Qed.

Lemma upsertCellVibes_always_rejected vibes w :
  (forall n row, db_insert_vibes svc n row <> None) ->
  exists t w', upsertCellVibes svc vibes false w = (Throw t, w').
Proof.
  intros Hrej. destruct (db_insert_vibes svc (S (tick w)) vibes) as [e|] eqn:E.
  - destruct (upsertCellVibes_rejected vibes w e E) as (w' & H). now exists (TErr e), w'.
  - now apply Hrej in E.
Qed.

(** When the store rejects every score row, steps 6 to 10 throw. *)
Lemma scoreCell_rejected cell options topVenues w :
  dryRun options = false ->
  (forall n row, db_insert_vibes svc n row <> None) ->
  exists t w', scoreCell svc cell options topVenues w = (Throw t, w').
Proof.
  intros Hdry Hrej. unfold scoreCell. rewrite Hdry.
  destruct topVenues as [|v top].
  - unfold bind, now. apply upsertCellVibes_always_rejected, Hrej.
  - unfold bind at 1.
    destruct (fetchTopDetails_returns svc (v :: top) [] w) as [placeDetails H].
    destruct (fetchTopDetails svc (v :: top) [] w) as [r w1]. cbn in H. subst r.
    unfold bind at 1.
    destruct (match agg_text (aggregateReviews placeDetails) with
              | [] => ret emptyVibeScores
              | _ :: _ => _
              end w1) as [[vibeScores|t] w2]; [|do 2 eexists; reflexivity].
    unfold bind, now. apply upsertCellVibes_always_rejected, Hrej.
Qed.

Lemma processCell_rejected cell options w :
  dryRun options = false ->
  (forall n row, db_insert_vibes svc n row <> None) ->
  exists e w', processCell svc cell options w = (Throw (TErr e), w').
Proof.
  intros Hdry Hrej.
  assert (H : exists t w', processCell svc cell options w = (Throw t, w')).
  { unfold processCell. destruct (parsePointWKT (centroid cell)) as [coords|];
      [|do 2 eexists; reflexivity].
    unfold bind at 1.
    destruct (searchAllTypes svc (lat coords) (lng coords) PLACE_TYPES w)
      as [[allPlaces|t] w1]; [|do 2 eexists; reflexivity].
    unfold bind at 1.
    destruct (upsertVenues_effect svc
                (toVenueData cell coords <$>
                   rankVenues (filterQualifiedVenues allPlaces MIN_REVIEW_COUNT))
                (dryRun options) w1) as (w2 & -> & _).
    now apply scoreCell_rejected. }
  destruct H as (t & w' & H).
  pose proof (throwsOnlyErrors_processCell svc cell options w) as Hne.
  rewrite H in Hne. destruct t as [e|]; [now exists e, w'|now cbn in Hne].
Qed.

End StoreErrors.

(** C10.  The two writes of a cell treat a rejection by the store
    differently.  When the store rejects the venue upsert, [upsertVenues]
    returns normally and the venues table is left as it was; the cell goes
    on to steps 6 to 10 and, if these succeed, the loop of [main] adds
    nothing to the ledger for it.  When the store rejects the insert of the
    score row, [upsertCellVibes] throws the error of the store, and a cell
    whose insert is rejected ends in the ledger. *)
Theorem persistence_errors_asymmetric (svc : Services) (cell : GridCell)
  (options : CliOptions) :
  (forall rows w e,
     db_upsert_venues svc (tick w) rows = Some e ->
     exists w', upsertVenues svc rows (dryRun options) w = (Ok tt, w') /\
                venues w' = venues w) /\
  (forall coords w allPlaces w1 e total processed failedCells,
     parsePointWKT (centroid cell) = Some coords ->
     searchAllTypes svc (lat coords) (lng coords) PLACE_TYPES w = (Ok allPlaces, w1) ->
     let ranked := rankVenues (filterQualifiedVenues allPlaces MIN_REVIEW_COUNT) in
     db_upsert_venues svc (tick w1) (toVenueData cell coords <$> ranked) = Some e ->
     exists w2,
       upsertVenues svc (toVenueData cell coords <$> ranked) (dryRun options) w1
       = (Ok tt, w2) /\
       venues w2 = venues w1 /\
       processCell svc cell options w
       = scoreCell svc cell options (take TOP_VENUES_PER_CELL ranked) w2 /\
       forall w3,
         scoreCell svc cell options (take TOP_VENUES_PER_CELL ranked) w2 = (Ok tt, w3) ->
         processCells svc options total [cell] processed failedCells w
         = (Ok (processed + 1, failedCells),
            pauseBetweenCells (processed + 1) total w3)) /\
  (forall vibes w e,
     db_insert_vibes svc (S (tick w)) vibes = Some e ->
     exists w', upsertCellVibes svc vibes false w = (Throw (TErr e), w')) /\
  (dryRun options = false ->
   (forall n row, db_insert_vibes svc n row <> None) ->
   forall total processed failedCells w,
     exists e w1,
       processCell svc cell options w = (Throw (TErr e), w1) /\
       processCells svc options total [cell] processed failedCells w
       = (Ok (processed + 1, failedCells ++ [failureRecord svc cell e w1]),
          pauseBetweenCells (processed + 1) total w1)).
Proof.
  split; [|split; [|split]].
  - intros rows w e Hrej.
    destruct (upsertVenues_effect svc rows (dryRun options) w) as (w' & E & _ & _ & _ & Hv).
    exists w'. split; [exact E|]. rewrite Hv, Hrej. now destruct (_ || _).
  - intros coords w allPlaces w1 e total processed failedCells Hparse Hsearch ranked Hrej.
    destruct (upsertVenues_effect svc (toVenueData cell coords <$> ranked)
                (dryRun options) w1) as (w2 & E & _ & _ & _ & Hv).
    exists w2. split; [exact E|].
    split; [rewrite Hv, Hrej; now destruct (_ || _)|].
    assert (Hsteps : processCell svc cell options w
                     = scoreCell svc cell options (take TOP_VENUES_PER_CELL ranked) w2).
    { rewrite (processCell_steps svc cell options coords w allPlaces w1 Hparse Hsearch).
      fold ranked. now rewrite E. }
    split; [exact Hsteps|].
    intros w3 Hok. rewrite processCells_step, Hsteps, Hok. reflexivity.
  - intros vibes w e. apply upsertCellVibes_rejected.
  - intros Hdry Hrej total processed failedCells w.
    destruct (processCell_rejected svc cell options w Hdry Hrej) as (e & w1 & E).
    exists e, w1. split; [exact E|]. rewrite processCells_step, E. reflexivity.
Qed.

(** With a store that rejects the score rows, the cell is in the ledger;
    with one that rejects only the venue rows, the cell succeeds and the
    venues table stays empty. *)
Lemma persistence_errors_asymmetric_witness :
  (exists e w1,
     processCell (withStore [venueB] false true) sampleCell plainOptions emptyWorld
     = (Throw (TErr e), w1) /\
     processCells (withStore [venueB] false true) plainOptions 1 [sampleCell] 0 []
       emptyWorld
     = (Ok (0 + 1, [] ++ [failureRecord (withStore [venueB] false true) sampleCell e w1]),
        pauseBetweenCells (0 + 1) 1 w1)) /\
  fst (processCells (withStore [venueB] true false) plainOptions 1 [sampleCell] 0 []
         emptyWorld) = Ok (1, []) /\
  venues (snd (processCells (withStore [venueB] true false) plainOptions 1 [sampleCell] 0 []
                 emptyWorld)) = ∅.
Proof.
  split.
  - apply (persistence_errors_asymmetric (withStore [venueB] false true) sampleCell
             plainOptions).
    + reflexivity.
    + intros n row. discriminate.
  - split; vm_compute; reflexivity.
Defined.

(** ** The cells of a run *)

(** The cells of a run are the cells of the city, without those already
    scored unless [force], cut to the first [limit] when a limit is given:
    no option skips leading cells. *)
Lemma getGridCells_limit_only (svc : Services) (cityId : jsstring) (options : CliOptions)
  (w : World) (centroidData : list GridCell) :
  db_centroids svc (tick w) cityId = Some centroidData ->
  db_select_vibes_fails svc (S (tick w)) = false ->
  match limit options with
  | Some n => 0 < n
  | None => True
  end ->
  fst (getGridCells svc cityId options w)
  = Some (let remaining := if force options then centroidData
                           else unscored w centroidData in
          match limit options with
          | Some n => take (Z.to_nat n) remaining
          | None => remaining
          end).
Proof.
  intros Hdata Hselect Hlimit. unfold getGridCells. rewrite Hdata.
  assert (Hremaining :
    (if force options
     then (centroidData, emit (EvRpcCentroids cityId) w)
     else
       let '(processedIds, w2) :=
         selectExistingVibes svc (cell_id <$> centroidData)
           (emit (EvRpcCentroids cityId) w) in
       (List.filter (fun c => negb (bool_decide (cell_id c ∈ processedIds)))
          centroidData, w2)).1
    = if force options then centroidData else unscored w centroidData).
  { destruct (force options); [reflexivity|].
    unfold selectExistingVibes.
    replace (tick (emit (EvRpcCentroids cityId) w)) with (S (tick w))
      by (unfold tick; cbn; rewrite length_app; cbn; lia).
    rewrite Hselect. cbn [fst]. unfold unscored.
    apply filter_ext_in. intros c Hc. f_equal. apply bool_decide_ext.
    cbn [cell_vibes emit]. rewrite !list_elem_of_fmap. split.
    - intros (v & Hv & Hin). exists v. split; [exact Hv|].
      apply list_elem_of_In, filter_In in Hin. now apply list_elem_of_In.
    - intros (v & Hv & Hin). exists v. split; [exact Hv|].
      apply list_elem_of_In, filter_In. split; [now apply list_elem_of_In|].
      apply bool_decide_eq_true. rewrite <- Hv.
      apply list_elem_of_fmap. exists c. split; [reflexivity|now apply list_elem_of_In]. }
  destruct (if force options then _ else _) as [cells w2]. cbn [fst] in *.
  rewrite Hremaining.
  destruct (limit options) as [n|]; [|reflexivity].
  replace (n =? 0) with false by (symmetry; apply Z.eqb_neq; lia).
  unfold slice0. replace (0 <=? n) with true by (symmetry; apply Z.leb_le; lia).
  reflexivity.
Qed.

(** The run [san-francisco --skip 1], as the README writes it, over two
    cells without a score: [--skip] is not an option of [parseArgs], and
    the first cell is not left out. *)
Lemma getGridCells_ignores_skip :
  parseArgs [lit "san-francisco"; lit "--skip"; lit "1"] = Some plainOptions /\
  fst (getGridCells (gridOf [cellNamed "west"; cellNamed "east"]) (lit "city")
         plainOptions emptyWorld)
  = Some [cellNamed "west"; cellNamed "east"] /\
  fst (main (gridOf [cellNamed "west"; cellNamed "east"])
         {| SUPABASE_URL := Some (lit "u"); SUPABASE_SERVICE_KEY := Some (lit "k");
            GOOGLE_PLACES_API_KEY := Some (lit "g"); OPENAI_API_KEY := Some (lit "o") |}
         [lit "san-francisco"; lit "--skip"; lit "1"] emptyWorld)
  = Completed {| processed := 2; succeeded := 2; failed := 0; cacheSize := 0;
                 ledger := [] |}.
Proof. repeat split; vm_compute; reflexivity. Qed.

(** ** The retryability of the errors of the catalog *)

(** The error [fetchWithError] makes of a response is retried for the
    statuses 429, 500 and 503, and not for 400 or 404; a message that
    contains "timeout" is retried whatever the status. *)
Lemma isRetryableError_examples :
  (forall st, st ∈ [429; 500; 503] ->
     isRetryableError
       (TErr {| message := lit "HTTP " ++ string_of_Z st ++ lit ": busy"; status := Some st |})
       (retryableStatusCodes RETRY_CONFIG) = true) /\
  isRetryableError
    (TErr {| message := lit "HTTP 404: not found"; status := Some 404 |})
    (retryableStatusCodes RETRY_CONFIG) = false /\
  isRetryableError
    (TErr {| message := lit "HTTP 400: gateway timeout"; status := Some 400 |})
    (retryableStatusCodes RETRY_CONFIG) = true /\
  isRetryableError
    (TErr {| message := lit "Request failed with status: 503"; status := None |})
    (retryableStatusCodes RETRY_CONFIG) = true /\
  isRetryableError TNull (retryableStatusCodes RETRY_CONFIG) = false.
Proof.
  split; [|repeat split; vm_compute; reflexivity].
  intros st Hst. repeat (apply elem_of_cons in Hst; destruct Hst as [->|Hst]);
    try (vm_compute; reflexivity).
  now apply elem_of_nil in Hst.
Qed.

(** ** A run with a cell that fails *)

(** Three cells, the second with a centroid that does not parse: all three
    are processed, the ledger holds the second, and the cells around it are
    scored. *)
Lemma main_isolates_broken_cell :
  let run := main (gridOf [cellNamed "west"; brokenCell; cellNamed "east"]) sampleEnv
               [lit "san-francisco"] emptyWorld in
  fst run
  = Completed
      {| processed := 3; succeeded := 2; failed := 1; cacheSize := 0;
         ledger := [{| cellId := lit "broken";
                       fc_error := lit "Failed to parse centroid for cell broken";
                       timestamp := 18 |}] |} /\
  grid_cell_id <$> cell_vibes (snd run) = [lit "west"; lit "east"].
Proof. split; vm_compute; reflexivity. Qed.

(** ** The result of a stable sort is unique *)

Section StableSortUnique.

Context {A : Type} (key : A -> Q).

Lemma sorted_head_max x l y :
  StronglySorted (keyDescending key) (x :: l) -> In y (x :: l) -> (key y <= key x)%Q.
Proof.
  intros Hs [<-|Hin]; [apply Qle_refl|].
  apply StronglySorted_inv in Hs. destruct Hs as [_ Hall].
  rewrite List.Forall_forall in Hall. now apply Hall.
Qed.

(** Two descending arrangements of the same elements that keep the
    elements of each key in the same order are equal: the comparator and
    stability leave [Array.prototype.sort] no choice. *)
Lemma stable_sort_unique (a : list A) : forall b,
  Permutation a b ->
  StronglySorted (keyDescending key) a ->
  StronglySorted (keyDescending key) b ->
  (forall q, List.filter (hasKey key q) a = List.filter (hasKey key q) b) ->
  a = b.
Proof.
  induction a as [|x a IH]; intros b Hperm Ha Hb Hstable.
  - apply Permutation_nil in Hperm. now subst.
  - destruct b as [|y b]; [now apply Permutation_sym, Permutation_nil in Hperm|].
    assert (Hxy : (key x == key y)%Q).
    { apply Qle_antisym.
      - apply (sorted_head_max y b x Hb). eapply Permutation_in; [exact Hperm|now left].
      - apply (sorted_head_max x a y Ha).
        eapply Permutation_in; [symmetry; exact Hperm|now left]. }
    assert (x = y).
    { pose proof (Hstable (key x)) as H. cbn [List.filter] in H. unfold hasKey in H.
      rewrite (proj2 (Qeq_bool_iff (key x) (key x))) in H by reflexivity.
      rewrite (proj2 (Qeq_bool_iff (key y) (key x))) in H by now symmetry.
      now injection H. }
    subst y. f_equal. apply IH.
    + eapply Permutation_cons_inv; eauto.
    + now apply StronglySorted_inv in Ha.
    + now apply StronglySorted_inv in Hb.
    + intros q. specialize (Hstable q). cbn [List.filter] in Hstable.
      destruct (hasKey key q x); [now injection Hstable|exact Hstable].
Qed.

(** So [Array_sort] is the only stable sort for this comparator. *)
Lemma Array_sort_unique (l sorted : list A) :
  Permutation sorted l ->
  StronglySorted (keyDescending key) sorted ->
  (forall q, List.filter (hasKey key q) sorted = List.filter (hasKey key q) l) ->
  sorted = Array_sort (byKeyDescending key) l.
Proof.
  intros Hperm Hsorted Hstable. apply stable_sort_unique.
  - rewrite Hperm. symmetry. apply Array_sort_perm.
  - exact Hsorted.
  - apply Array_sort_sorted.
  - intros q. rewrite Hstable. symmetry. apply Array_sort_stable.
Qed.

End StableSortUnique.

(** ** Retries: any operation *)

Lemma totalWait_app a b : totalWait (a ++ b) = totalWait a + totalWait b.
Proof.
  induction a as [|e a IH]; [reflexivity|].
  cbn [app totalWait fold_right]. fold (totalWait (a ++ b)). fold (totalWait a).
  destruct e; lia.
Qed.

Lemma totalWait_attemptsAndWaits tr : totalWait (attemptsAndWaits tr) = totalWait tr.
Proof.
  induction tr as [|e tr IH]; [reflexivity|].
  unfold attemptsAndWaits in *. cbn [List.filter].
  destruct e; cbn [isAttemptOrWait totalWait fold_right];
    fold (totalWait tr); try fold (totalWait (List.filter isAttemptOrWait tr)); lia.
Qed.

Lemma totalWait_retriesFrom cfg operation count : forall first,
  0 <= maxDelayMs cfg ->
  totalWait (retriesFrom cfg operation first count) <= Z.of_nat count * maxDelayMs cfg.
Proof.
  unfold retriesFrom.
  induction count as [|count IH]; intros first Hmax; [cbn; lia|].
  cbn [seq flat_map]. rewrite totalWait_app.
  specialize (IH (S first) Hmax).
  cbn [totalWait fold_right].
  pose proof (Z.le_min_r (initialDelayMs cfg * 2 ^ (Z.of_nat first - 1)) (maxDelayMs cfg)).
  lia.
Qed.

Section RetryLoopAny.

Context {T : Type} (operation : jsstring) (fn : M T) (options : RetryOptions).

Local Abbreviation cfg := (retryConfig options).
Local Abbreviation N := (Z.to_nat (maxRetries cfg)).

Hypothesis maxRetries_nonneg : 0 <= maxRetries cfg.
Hypothesis fn_quiet : quiet fn.
Hypothesis observer_returns : observerReturns options.

(** Whatever the operation does: with [n] retries left after attempt
    number [a], the loop makes [j <= n] retries, ends as its last
    invocation ends, and stops early only on a result or on an error that
    is not retryable. *)
Lemma retryLoop_runs n : forall a lastError w,
  (a + n = N)%nat ->
  exists (j : nat) wl,
    (j <= n)%nat /\
    retryLoop (invoking operation fn) options (S n) (Z.of_nat a) lastError w
    = invoking operation fn wl /\
    attemptsAndWaits (trace (snd (invoking operation fn wl)))
    = attemptsAndWaits (trace w) ++ EvInvoke operation :: retriesFrom cfg operation (S a) j /\
    (forall t, fst (invoking operation fn wl) = Throw t -> (j < n)%nat ->
               isRetryableError t (retryableStatusCodes cfg) = false).
Proof.
  induction n as [|n IH]; intros a lastError w Ha.
  - exists 0%nat, w. split; [lia|]. split.
    + cbn [retryLoop]. unfold tryCatch.
      destruct (invoking operation fn w) as [[v|t] w1]; [reflexivity|].
      replace (Z.of_nat a =? maxRetries cfg) with true by (symmetry; apply Z.eqb_eq; lia).
      rewrite orb_true_r. reflexivity.
    + split; [|intros; lia].
      rewrite (invoking_trace operation fn fn_quiet). reflexivity.
  - cbn [retryLoop]. unfold tryCatch at 1.
    pose proof (invoking_trace operation fn fn_quiet w) as Htr.
    destruct (invoking operation fn w) as [[v|t] w1] eqn:E.
    + exists 0%nat, w. rewrite E. cbn [fst snd] in *.
      split; [lia|]. split; [reflexivity|]. split; [exact Htr|]. discriminate.
    + destruct (isRetryableError t (retryableStatusCodes cfg)) eqn:Ht; cbn [negb orb].
      * replace (Z.of_nat a =? maxRetries cfg) with false by (symmetry; apply Z.eqb_neq; lia).
        unfold bind at 1.
        destruct (observer_returns (Z.of_nat a + 1) t w1) as (w2 & -> & Hw2).
        unfold bind at 1. unfold sleep at 1, perform at 1.
        replace (Z.of_nat a + 1) with (Z.of_nat (S a)) by lia.
        destruct (IH (S a) t (emit (EvSleep (backoffDelay cfg (Z.of_nat a))) w2)
                    ltac:(lia)) as (j & wl & Hj & Hrun & Htrace & Hstop).
        exists (S j), wl. split; [lia|]. split; [exact Hrun|]. split.
        -- rewrite Htrace, trace_emit, attemptsAndWaits_app, Hw2.
           cbn [snd] in Htr. rewrite Htr.
           rewrite <- !app_assoc. f_equal. cbn [app]. f_equal.
           unfold retriesFrom.
           cbn [seq flat_map attemptsAndWaits List.filter isAttemptOrWait app].
           unfold backoffDelay. replace (Z.of_nat (S a) - 1) with (Z.of_nat a) by lia.
           reflexivity.
        -- intros t' Ht' Hlt. apply Hstop; [exact Ht'|lia].
      * exists 0%nat, w. rewrite E. cbn [fst snd] in *.
        split; [lia|]. split; [reflexivity|]. split; [exact Htr|].
        intros t' [= <-] _. exact Ht.
Qed.

End RetryLoopAny.

(** X1.  Whatever a named operation does, [withRetry] with a maximum retry
    count [N >= 0] invokes it once and then retries it [j <= N] times,
    waiting [min (initialDelayMs * 2 ^ (k - 1)) maxDelayMs] before retry
    [k].  The call ends exactly as the last invocation ends, and when it
    ends in an error before the retries are used up, that error is not
    retryable. *)
Theorem withRetry_any_operation {T} (operation : jsstring) (fn : M T)
  (options : RetryOptions) (w : World) :
  0 <= maxRetries (retryConfig options) ->
  quiet fn ->
  observerReturns options ->
  exists (j : nat) wl,
    (j <= Z.to_nat (maxRetries (retryConfig options)))%nat /\
    withRetry (invoking operation fn) options w = invoking operation fn wl /\
    attemptsAndWaits (trace (snd (withRetry (invoking operation fn) options w)))
    = attemptsAndWaits (trace w)
      ++ EvInvoke operation :: retriesFrom (retryConfig options) operation 1 j /\
    (forall t, fst (withRetry (invoking operation fn) options w) = Throw t ->
               (j < Z.to_nat (maxRetries (retryConfig options)))%nat ->
               isRetryableError t (retryableStatusCodes (retryConfig options)) = false).
Proof.
  intros HN Hq Hobs. unfold withRetry.
  replace (Z.to_nat (maxRetries (retryConfig options) + 1))
    with (S (Z.to_nat (maxRetries (retryConfig options)))) by lia.
  destruct (retryLoop_runs operation fn options HN Hq Hobs
              (Z.to_nat (maxRetries (retryConfig options))) 0%nat TNull w eq_refl)
    as (j & wl & Hj & Hrun & Htrace & Hstop).
  change (Z.of_nat 0) with 0 in Hrun.
  exists j, wl. rewrite Hrun. auto.
Qed.

Lemma withRetry_any_operation_witness :
  exists (j : nat) wl,
    (j <= 3)%nat /\
    withRetry (invoking (lit "op") (alwaysStatus 404)) plainRetry emptyWorld
    = invoking (lit "op") (alwaysStatus 404) wl /\
    attemptsAndWaits
      (trace (snd (withRetry (invoking (lit "op") (alwaysStatus 404)) plainRetry emptyWorld)))
    = attemptsAndWaits (trace emptyWorld)
      ++ EvInvoke (lit "op") :: retriesFrom RETRY_CONFIG (lit "op") 1 j /\
    (forall t, fst (withRetry (invoking (lit "op") (alwaysStatus 404)) plainRetry emptyWorld)
               = Throw t ->
               (j < 3)%nat ->
               isRetryableError t (retryableStatusCodes RETRY_CONFIG) = false).
Proof.
  apply (withRetry_any_operation (lit "op") (alwaysStatus 404) plainRetry emptyWorld).
  - simpl. lia.
  - intros w. reflexivity.
  - intros attempt e w. exists w. split; reflexivity.
Defined.

(** X2.  The total time [withRetry] waits is at most [maxRetries] times
    [maxDelayMs], whatever the operation does and whatever the initial
    delay is. *)
Theorem withRetry_wait_bounded {T} (operation : jsstring) (fn : M T)
  (options : RetryOptions) (w : World) :
  0 <= maxRetries (retryConfig options) ->
  0 <= maxDelayMs (retryConfig options) ->
  quiet fn ->
  observerReturns options ->
  totalWait (trace (snd (withRetry (invoking operation fn) options w)))
  <= totalWait (trace w)
     + maxRetries (retryConfig options) * maxDelayMs (retryConfig options).
Proof.
  intros HN Hmax Hq Hobs. unfold withRetry.
  replace (Z.to_nat (maxRetries (retryConfig options) + 1))
    with (S (Z.to_nat (maxRetries (retryConfig options)))) by lia.
  destruct (retryLoop_runs operation fn options HN Hq Hobs
              (Z.to_nat (maxRetries (retryConfig options))) 0%nat TNull w eq_refl)
    as (j & wl & Hj & Hrun & Htrace & _).
  change (Z.of_nat 0) with 0 in Hrun. rewrite Hrun.
  rewrite <- totalWait_attemptsAndWaits, Htrace, totalWait_app, totalWait_attemptsAndWaits.
  cbn [totalWait fold_right].
  pose proof (totalWait_retriesFrom (retryConfig options) operation j 1 Hmax) as Hw.
  unfold totalWait in Hw. nia.
Qed.

Lemma withRetry_wait_bounded_witness :
  totalWait (trace (snd (withRetry (invoking (lit "op") (alwaysStatus 503))
                           plainRetry emptyWorld)))
  <= totalWait (trace emptyWorld) + 3 * 10000.
Proof.
  apply (withRetry_wait_bounded (lit "op") (alwaysStatus 503) plainRetry emptyWorld).
  - simpl. lia.
  - simpl. lia.
  - intros w. reflexivity.
  - intros attempt e w. exists w. split; reflexivity.
Defined.

Section RetryLoopRecovers.

Context {T : Type} (operation : jsstring) (fn : M T) (options : RetryOptions).

Local Abbreviation cfg := (retryConfig options).
Local Abbreviation N := (Z.to_nat (maxRetries cfg)).

Hypothesis fn_quiet : quiet fn.
Hypothesis observer_returns : observerReturns options.

(** An operation that fails retryably as long as at most [k] invocations
    are on record and returns afterwards: the loop retries until the
    record holds more than [k]. *)
Lemma retryLoop_recovers (k : Z) (j : nat) : forall a n lastError w,
  (forall w0, invocations (trace w0) <= k ->
     exists t w1, fn w0 = (Throw t, w1) /\
                  isRetryableError t (retryableStatusCodes cfg) = true) ->
  (forall w0, k < invocations (trace w0) -> exists v w1, fn w0 = (Ok v, w1)) ->
  invocations (trace w) + Z.of_nat j = k ->
  Z.of_nat (a + j) <= maxRetries cfg ->
  (j <= n)%nat ->
  exists v w',
    retryLoop (invoking operation fn) options (S n) (Z.of_nat a) lastError w = (Ok v, w') /\
    attemptsAndWaits (trace w')
    = attemptsAndWaits (trace w) ++ EvInvoke operation :: retriesFrom cfg operation (S a) j.
Proof.
  induction j as [|j IH]; intros a n lastError w Hfail Hok Hk Ha Hn.
  - cbn [retryLoop]. unfold tryCatch.
    pose proof (invoking_trace operation fn fn_quiet w) as Htr.
    unfold invoking in *.
    destruct (Hok (emit (EvInvoke operation) w)) as (v & w1 & E).
    { rewrite trace_emit, invocations_app.
      change (invocations [EvInvoke operation]) with 1. lia. }
    rewrite E in *. exists v, w1. split; [reflexivity|exact Htr].
  - destruct n as [|n]; [lia|].
    cbn [retryLoop]. unfold tryCatch at 1.
    pose proof (invoking_trace operation fn fn_quiet w) as Htr.
    unfold invoking at 1. unfold invoking at 1 in Htr.
    destruct (Hfail (emit (EvInvoke operation) w)) as (t & w1 & E & Ht).
    { rewrite trace_emit, invocations_app.
      change (invocations [EvInvoke operation]) with 1. lia. }
    rewrite E in *. rewrite Ht. cbn [negb orb].
    replace (Z.of_nat a =? maxRetries cfg) with false by (symmetry; apply Z.eqb_neq; lia).
    unfold bind at 1.
    destruct (observer_returns (Z.of_nat a + 1) t w1) as (w2 & -> & Hw2).
    unfold bind at 1. unfold sleep at 1, perform at 1.
    replace (Z.of_nat a + 1) with (Z.of_nat (S a)) by lia.
    cbn [snd] in Htr.
    destruct (IH (S a) n t (emit (EvSleep (backoffDelay cfg (Z.of_nat a))) w2) Hfail Hok)
      as (v & w' & Hrun & Htrace).
    { rewrite <- invocations_attemptsAndWaits, trace_emit, attemptsAndWaits_app, Hw2, Htr.
      rewrite !invocations_app, invocations_attemptsAndWaits.
      change (invocations [EvInvoke operation]) with 1.
      change (invocations (attemptsAndWaits [EvSleep (backoffDelay cfg (Z.of_nat a))])) with 0.
      lia. }
    { lia. }
    { lia. }
    exists v, w'. split; [exact Hrun|].
    rewrite Htrace, trace_emit, attemptsAndWaits_app, Hw2, Htr.
    rewrite <- !app_assoc. f_equal. cbn [app]. f_equal.
    unfold retriesFrom.
    cbn [seq flat_map attemptsAndWaits List.filter isAttemptOrWait app].
    unfold backoffDelay. replace (Z.of_nat (S a) - 1) with (Z.of_nat a) by lia.
    reflexivity.
Qed.

End RetryLoopRecovers.

(** X3.  An operation whose first [j] invocations fail retryably and whose
    next invocation returns, with [j] at most the maximum retry count:
    [withRetry] returns a result after exactly [j] retries, so after
    [j + 1] invocations. *)
Theorem withRetry_recovers {T} (operation : jsstring) (fn : M T)
  (options : RetryOptions) (j : nat) (w : World) :
  Z.of_nat j <= maxRetries (retryConfig options) ->
  quiet fn ->
  observerReturns options ->
  (forall w0, invocations (trace w0) <= invocations (trace w) + Z.of_nat j ->
     exists t w1, fn w0 = (Throw t, w1) /\
       isRetryableError t (retryableStatusCodes (retryConfig options)) = true) ->
  (forall w0, invocations (trace w) + Z.of_nat j < invocations (trace w0) ->
     exists v w1, fn w0 = (Ok v, w1)) ->
  exists v w',
    withRetry (invoking operation fn) options w = (Ok v, w') /\
    attemptsAndWaits (trace w')
    = attemptsAndWaits (trace w)
      ++ EvInvoke operation :: retriesFrom (retryConfig options) operation 1 j /\
    invocations (trace w') = invocations (trace w) + Z.of_nat j + 1.
Proof.
  intros Hj Hq Hobs Hfail Hok. unfold withRetry.
  replace (Z.to_nat (maxRetries (retryConfig options) + 1))
    with (S (Z.to_nat (maxRetries (retryConfig options)))) by lia.
  destruct (retryLoop_recovers operation fn options Hq Hobs
              (invocations (trace w) + Z.of_nat j) j 0%nat
              (Z.to_nat (maxRetries (retryConfig options))) TNull w Hfail Hok)
    as (v & w' & Hrun & Htrace); [reflexivity|cbn [Nat.add]; lia|lia|].
  change (Z.of_nat 0) with 0 in Hrun.
  exists v, w'. split; [exact Hrun|]. split; [exact Htrace|].
  rewrite <- invocations_attemptsAndWaits, Htrace, invocations_app,
    invocations_attemptsAndWaits.
  change (EvInvoke operation :: ?l) with ([EvInvoke operation] ++ l).
  rewrite invocations_app, invocations_retriesFrom.
  change (invocations [EvInvoke operation]) with 1. lia.
Qed.

Lemma withRetry_recovers_witness :
  exists v w',
    withRetry (invoking (lit "op") (failsUntil 2 503 tt)) plainRetry emptyWorld = (Ok v, w') /\
    attemptsAndWaits (trace w')
    = attemptsAndWaits (trace emptyWorld)
      ++ EvInvoke (lit "op") :: retriesFrom RETRY_CONFIG (lit "op") 1 2 /\
    invocations (trace w') = invocations (trace emptyWorld) + Z.of_nat 2 + 1.
Proof.
  apply (withRetry_recovers (lit "op") (failsUntil 2 503 tt) plainRetry 2 emptyWorld).
  - simpl. lia.
  - intros w. unfold failsUntil. destruct (invocations (trace w) <=? 2); reflexivity.
  - intros attempt e w. exists w. split; reflexivity.
  - intros w0 H. unfold failsUntil.
    change (invocations (trace emptyWorld) + Z.of_nat 2) with 2 in H.
    replace (invocations (trace w0) <=? 2) with true by (symmetry; apply Z.leb_le; lia).
    do 2 eexists. split; [reflexivity|]. vm_compute. reflexivity.
  - intros w0 H. unfold failsUntil.
    change (invocations (trace emptyWorld) + Z.of_nat 2) with 2 in H.
    replace (invocations (trace w0) <=? 2) with false by (symmetry; apply Z.leb_gt; lia).
    do 2 eexists. reflexivity.
Defined.

(** X4.  With a negative maximum retry count the loop body never runs:
    [withRetry] does not invoke the operation, changes nothing and throws
    the initial [lastError], which is [null] and not an [Error]. *)
Theorem withRetry_negative_maxRetries {T} (fn : M T) (options : RetryOptions) (w : World) :
  maxRetries (retryConfig options) < 0 ->
  withRetry fn options w = (Throw TNull, w).
Proof.
  intros Hneg. unfold withRetry.
  replace (Z.to_nat (maxRetries (retryConfig options) + 1)) with 0%nat by lia.
  reflexivity.
Qed.

Lemma withRetry_negative_maxRetries_witness :
  withRetry (alwaysStatus 503)
    {| retryConfig := {| maxRetries := -1; initialDelayMs := 1000; maxDelayMs := 10000;
                         retryableStatusCodes := [429; 500; 503] |};
       onRetry := None |} emptyWorld
  = (Throw TNull, emptyWorld).
Proof.
  apply (withRetry_negative_maxRetries (alwaysStatus 503)
           {| retryConfig := {| maxRetries := -1; initialDelayMs := 1000; maxDelayMs := 10000;
                                retryableStatusCodes := [429; 500; 503] |};
              onRetry := None |} emptyWorld).
  simpl. lia.
Defined.

(** ** HTTP failures and retryability *)

Lemma includes_cons c s p :
  includes (c :: s) p = startsWith (c :: s) p || includes s p.
Proof. destruct p; reflexivity. Qed.

Lemma includes_app_r pre s p : includes s p = true -> includes (pre ++ s) p = true.
Proof.
  intros H. induction pre as [|c pre IH]; [exact H|].
  cbn [app]. rewrite includes_cons, IH. apply orb_true_r.
Qed.

Lemma includes_app_other pre s p0 p :
  Forall (fun c => c <> p0) pre ->
  includes (pre ++ s) (p0 :: p) = includes s (p0 :: p).
Proof.
  induction 1 as [|c pre Hc _ IH]; [reflexivity|].
  cbn [app]. rewrite includes_cons, IH. cbn [startsWith].
  replace (p0 =? c)%N with false by (symmetry; apply N.eqb_neq; congruence).
  reflexivity.
Qed.

Lemma matchStatus_app_other pre s :
  Forall (fun c => upperAscii c <> 83%N) pre ->
  matchStatus (pre ++ s) = matchStatus s.
Proof.
  induction 1 as [|c pre Hc _ IH]; [reflexivity|].
  cbn [app matchStatus]. rewrite IH.
  unfold matchStatusAt. change (lit "status") with [115; 116; 97; 116; 117; 115]%N.
  cbn [startsWithNoCase]. change (upperAscii 115) with 83%N.
  replace (83 =? upperAscii c)%N with false by (symmetry; apply N.eqb_neq; congruence).
  reflexivity.
Qed.

Lemma string_of_uint_prefixChars d :
  Forall (fun c => isPrefixChar c = true) (lit (NilEmpty.string_of_uint d)).
Proof.
  induction d; cbn; constructor; try exact IHd; reflexivity.
Qed.

Lemma string_of_Z_prefixChars z :
  Forall (fun c => isPrefixChar c = true) (string_of_Z z).
Proof.
  unfold string_of_Z. destruct (Z.to_int z) as [d|d]; cbn.
  - apply string_of_uint_prefixChars.
  - constructor; [reflexivity|]. apply string_of_uint_prefixChars.
Qed.

Lemma isPrefixChar_spec c :
  isPrefixChar c = true -> c <> 116%N /\ c <> 69%N /\ upperAscii c <> 83%N.
Proof.
  unfold isPrefixChar, isDigit, upperAscii. intros H.
  apply orb_true_iff in H. destruct H as [H|H].
  - apply andb_true_iff in H. destruct H as [H1 H2].
    apply N.leb_le in H1, H2.
    replace ((97 <=? c) && (c <=? 122))%N with false
      by (symmetry; apply andb_false_iff; left; apply N.leb_gt; lia).
    lia.
  - apply bool_decide_eq_true in H.
    repeat (apply elem_of_cons in H; destruct H as [->|H]); [..|inversion H];
      repeat split; vm_compute; discriminate.
Qed.

Lemma httpPrefix_chars st :
  Forall (fun c => isPrefixChar c = true) (lit "HTTP " ++ string_of_Z st ++ lit ": ").
Proof.
  apply Forall_app. split; [repeat constructor|].
  apply Forall_app. split; [apply string_of_Z_prefixChars|repeat constructor].
Qed.

(** The prefix [HTTP <status>: ] plays no part in the classification of
    the failure. *)
Lemma isRetryableError_http st text codes :
  isRetryableError
    (TErr {| message := lit "HTTP " ++ string_of_Z st ++ lit ": " ++ text;
             status := Some st |}) codes
  = isRetryableError (TErr {| message := text; status := Some st |}) codes.
Proof.
  pose proof (httpPrefix_chars st) as Hp.
  unfold isRetryableError. cbn [message status].
  rewrite !(app_assoc (lit "HTTP ")), !(app_assoc (lit "HTTP " ++ string_of_Z st)).
  change (lit "timeout") with (116 :: [105; 109; 101; 111; 117; 116])%N.
  change (lit "ETIMEDOUT") with (69 :: [84; 73; 77; 69; 68; 79; 85; 84])%N.
  rewrite !includes_app_other, matchStatus_app_other; [reflexivity|..];
    (eapply Forall_impl; [exact Hp|]); intros c Hc; cbn beta;
    apply isPrefixChar_spec in Hc; tauto.
Qed.

(** X5.  A response outside 200..299 makes [fetchWithError] throw an
    [Error] carrying the status.  [withRetry] classifies it by the response
    body first: a body that mentions [timeout] or [ETIMEDOUT] is retryable
    whatever the status; otherwise a body that matches [status], colons or
    spaces, three digits is classified by those digits; only otherwise does
    the status of the response decide. *)
Theorem fetchWithError_failure_class {B} (request : Event)
  (answer : nat -> HttpAnswer B) (response : HttpResponse B) (codes : list Z)
  (w : World) :
  answer (tick w) = Responds response ->
  response_ok (resp_status response) = false ->
  exists e,
    fetchWithError request answer w = (Throw (TErr e), emit request w) /\
    status e = Some (resp_status response) /\
    (includes (resp_text response) (lit "timeout")
     || includes (resp_text response) (lit "ETIMEDOUT") = true ->
     isRetryableError (TErr e) codes = true) /\
    (includes (resp_text response) (lit "timeout")
     || includes (resp_text response) (lit "ETIMEDOUT") = false ->
     isRetryableError (TErr e) codes
     = match matchStatus (resp_text response) with
       | Some digits => bool_decide (digitsValue digits ∈ codes)
       | None => bool_decide (resp_status response ∈ codes)
       end).
Proof.
  intros Hanswer Hok. unfold fetchWithError. rewrite Hanswer, Hok.
  eexists. split; [reflexivity|]. split; [reflexivity|].
  rewrite isRetryableError_http. unfold isRetryableError. cbn [message status].
  split; intros ->; reflexivity.
Qed.

Lemma fetchWithError_failure_class_witness :
  exists e,
    fetchWithError (B := unit) (EvFetchDetails (lit "p"))
      (fun _ => Responds {| resp_status := 400; resp_text := lit "upstream status: 503";
                            resp_json := inr tt |}) emptyWorld
    = (Throw (TErr e), emit (EvFetchDetails (lit "p")) emptyWorld) /\
    status e = Some 400 /\
    (includes (lit "upstream status: 503") (lit "timeout")
     || includes (lit "upstream status: 503") (lit "ETIMEDOUT") = true ->
     isRetryableError (TErr e) [429; 500; 503] = true) /\
    (includes (lit "upstream status: 503") (lit "timeout")
     || includes (lit "upstream status: 503") (lit "ETIMEDOUT") = false ->
     isRetryableError (TErr e) [429; 500; 503]
     = match matchStatus (lit "upstream status: 503") with
       | Some digits => bool_decide (digitsValue digits ∈ [429; 500; 503])
       | None => bool_decide (400 ∈ [429; 500; 503])
       end).
Proof.
  apply (fetchWithError_failure_class (B := unit) (EvFetchDetails (lit "p"))
           (fun _ => Responds {| resp_status := 400; resp_text := lit "upstream status: 503";
                                 resp_json := inr tt |})
           {| resp_status := 400; resp_text := lit "upstream status: 503";
              resp_json := inr tt |} [429; 500; 503] emptyWorld).
  - reflexivity.
  - vm_compute. reflexivity.
Defined.

(** ** The token bucket *)

Section TokenBucket.

Import RateLimiter.

Lemma refill_tokens_le l now :
  (0 <= refillRate l)%Q -> lastRefill l <= now ->
  (tokens (refill l now) <= tokens l + inject_Z (now - lastRefill l) * refillRate l)%Q /\
  (tokens (refill l now) <= maxTokens l)%Q /\
  (Qmin (maxTokens l) (tokens l) <= tokens (refill l now))%Q.
Proof.
  intros Hr Hnow. cbn [refill tokens].
  assert (0 <= inject_Z (now - lastRefill l) * refillRate l)%Q as He.
  { apply Qmult_le_0_compat; [|exact Hr].
    change 0%Q with (inject_Z 0). rewrite <- Zle_Qle. lia. }
  split; [apply Q.le_min_r|]. split; [apply Q.le_min_l|].
  apply Q.min_glb; [apply Q.le_min_l|].
  eapply Qle_trans; [apply Q.le_min_r|]. lra.
Qed.

Lemma waits_covered clock : forall l,
  (0 <= refillRate l)%Q ->
  (tokens l <= maxTokens l)%Q ->
  (inject_Z (Z.of_nat (length clock)) <= tokens l)%Q ->
  timely l clock ->
  waits l clock = [].
Proof.
  induction clock as [|[now woke] clock IH]; intros l Hr Hcap Hn Ht; [reflexivity|].
  destruct Ht as (Hnow & _ & Hrest).
  destruct (refill_tokens_le l now Hr Hnow) as (_ & Hcap1 & Hlow).
  assert (tokens l <= tokens (refill l now))%Q as Hkeep.
  { eapply Qle_trans; [|exact Hlow]. apply Q.min_glb; lra. }
  cbn [length] in Hn. rewrite Nat2Z.inj_succ in Hn. unfold Z.succ in Hn.
  rewrite inject_Z_plus in Hn. change (inject_Z 1) with 1%Q in Hn.
  assert (0 <= inject_Z (Z.of_nat (length clock)))%Q as Hlen.
  { change 0%Q with (inject_Z 0). rewrite <- Zle_Qle. lia. }
  cbn [waits]. unfold acquire in *.
  replace (Qle_bool 1 (tokens (refill l now))) with true in *
    by (symmetry; apply Qle_bool_iff; lra).
  cbn [fst snd app] in *.
  apply IH; [exact Hr| | |exact Hrest]; cbn [takeToken tokens maxTokens refill] in *; lra.
Qed.

End TokenBucket.

(** X8.  A fresh limiter lets a burst through: as long as the number of
    acquisitions is at most [rps], none of them sleeps, however close
    together they come. *)
Theorem RateLimiter_burst (rps : Q) (t0 : Z) (clock : list (Z * Z)) :
  (inject_Z (Z.of_nat (length clock)) <= rps)%Q ->
  RateLimiter.timely (RateLimiter.new rps t0) clock ->
  RateLimiter.waits (RateLimiter.new rps t0) clock = [].
Proof.
  intros Hn Ht.
  assert (0 <= inject_Z (Z.of_nat (length clock)))%Q as Hlen.
  { change 0%Q with (inject_Z 0). rewrite <- Zle_Qle. lia. }
  apply waits_covered; [| | |exact Ht]; cbn [RateLimiter.new RateLimiter.tokens
    RateLimiter.maxTokens RateLimiter.refillRate]; try lra.
  apply Qle_shift_div_l; lra.
Qed.

Lemma RateLimiter_burst_witness :
  RateLimiter.waits (RateLimiter.new 3 0) [(0, 0); (0, 0); (1, 1)] = [].
Proof.
  apply (RateLimiter_burst 3 0 [(0, 0); (0, 0); (1, 1)]).
  - vm_compute. discriminate.
  - vm_compute. repeat split; discriminate.
Defined.

(** ** Centroids *)

Lemma takeWhile_app_stop p a c r :
  forallb p a = true -> p c = false -> takeWhile p (a ++ c :: r) = a.
Proof.
  induction a as [|x a IH]; cbn [app takeWhile forallb]; intros Ha Hc.
  - now rewrite Hc.
  - destruct (p x); cbn [andb] in Ha; [|discriminate]. now rewrite IH.
Qed.

Lemma isCoordChar_not_space c : isCoordChar c = true -> isWhiteSpace c = false.
Proof.
  unfold isCoordChar, isDigit, isWhiteSpace. intros H.
  assert (45 <= c <= 57)%N as Hc.
  { repeat (apply orb_true_iff in H; destruct H as [H|H]).
    - apply N.eqb_eq in H. lia.
    - apply andb_true_iff in H. destruct H as [H1 H2]. apply N.leb_le in H1, H2. lia.
    - apply N.eqb_eq in H. lia. }
  repeat (apply orb_false_iff; split);
    try (apply N.eqb_neq; lia);
    apply andb_false_iff; (left; apply N.leb_gt; lia) || (right; apply N.leb_gt; lia).
Qed.

Lemma dropWhile_space_coords g r :
  g <> [] -> forallb isCoordChar g = true ->
  dropWhile isWhiteSpace (g ++ r) = g ++ r.
Proof.
  destruct g as [|c g]; [congruence|]. intros _ H.
  cbn [forallb] in H. apply andb_true_iff in H. destruct H as [Hc _].
  cbn [app]. apply dropWhile_id. now apply isCoordChar_not_space.
Qed.

(** X9.  [parsePointWKT] reads [POINT(a b)], [a] and [b] being non-empty
    runs of digits, [-] and [.]: the first run gives the longitude and the
    second the latitude, each as [parseFloat] reads it.  A run that is not
    a number, such as a lone [-], is accepted as well and gives [NaN]. *)
Theorem parsePointWKT_point (a b : jsstring) :
  a <> [] -> b <> [] ->
  forallb isCoordChar a = true -> forallb isCoordChar b = true ->
  parsePointWKT (lit "POINT(" ++ a ++ lit " " ++ b ++ lit ")")
  = Some {| lat := parseFloat b; lng := parseFloat a |}.
Proof.
  intros Ha Hb Hca Hcb. unfold parsePointWKT.
  change (lit "POINT(") with [80; 79; 73; 78; 84; 40]%N.
  change (lit " ") with [32]%N. change (lit ")") with [41]%N.
  cbn [app]. cbn [matchPoint]. unfold matchPointAt.
  change (lit "POINT") with [80; 79; 73; 78; 84]%N.
  cbn [startsWithNoCase]. change (upperAscii 80 =? upperAscii 80)%N with true.
  change (upperAscii 79 =? upperAscii 79)%N with true.
  change (upperAscii 73 =? upperAscii 73)%N with true.
  change (upperAscii 78 =? upperAscii 78)%N with true.
  change (upperAscii 84 =? upperAscii 84)%N with true.
  cbn [andb drop]. rewrite dropWhile_id by reflexivity.
  rewrite (dropWhile_space_coords a) by assumption.
  rewrite (takeWhile_app_stop isCoordChar a 32%N) by (assumption || reflexivity).
  rewrite (dropWhile_app_stop isCoordChar a 32%N) by (assumption || reflexivity).
  cbn [takeWhile dropWhile]. change (isWhiteSpace 32) with true. cbn iota.
  rewrite (dropWhile_space_coords b) by assumption.
  rewrite (takeWhile_app_stop isCoordChar b 41%N) by (assumption || reflexivity).
  rewrite (dropWhile_app_stop isCoordChar b 41%N) by (assumption || reflexivity).
  rewrite dropWhile_id by reflexivity.
  destruct a as [|a0 a]; [congruence|]. destruct b as [|b0 b]; [congruence|].
  reflexivity.
Qed.

Lemma parsePointWKT_point_witness :
  parsePointWKT (lit "POINT(" ++ lit "-122.4194" ++ lit " " ++ lit "37.7749" ++ lit ")")
  = Some {| lat := parseFloat (lit "37.7749"); lng := parseFloat (lit "-122.4194") |}.
Proof.
  apply (parsePointWKT_point (lit "-122.4194") (lit "37.7749")).
  - discriminate.
  - discriminate.
  - reflexivity.
  - reflexivity.
Defined.

Lemma matchPoint_no_P s :
  Forall (fun c => upperAscii c <> 80%N) s -> matchPoint s = None.
Proof.
  assert (matchPointAt [] = None) as Hnil by reflexivity.
  induction 1 as [|c s Hc _ IH]; [reflexivity|].
  cbn [matchPoint]. rewrite IH.
  unfold matchPointAt. change (lit "POINT") with [80; 79; 73; 78; 84]%N.
  cbn [startsWithNoCase]. change (upperAscii 80) with 80%N.
  replace (80 =? upperAscii c)%N with false by (symmetry; apply N.eqb_neq; congruence).
  reflexivity.
Qed.

Lemma isHexDigit_not_P c : isHexDigit c = true -> upperAscii c <> 80%N.
Proof.
  unfold isHexDigit, isDigit, upperAscii. intros H.
  destruct ((97 <=? c) && (c <=? 122))%N eqn:E.
  - apply andb_true_iff in E. destruct E as [E1 E2]. apply N.leb_le in E1, E2.
    repeat (apply orb_true_iff in H; destruct H as [H|H]);
      apply andb_true_iff in H; destruct H as [H1 H2]; apply N.leb_le in H1, H2; lia.
  - repeat (apply orb_true_iff in H; destruct H as [H|H]);
      apply andb_true_iff in H; destruct H as [H1 H2]; apply N.leb_le in H1, H2; lia.
Qed.

(** X10.  A centroid delivered in the hexadecimal form of a geometry
    (digits and the letters [A] to [F]) is not parsed: [processCell] throws
    [Failed to parse centroid for cell <id>] before any request is made,
    and the world is as it was. *)
Theorem processCell_hex_centroid (svc : Services) (cell : GridCell)
  (options : CliOptions) (w : World) :
  forallb isHexDigit (centroid cell) = true ->
  parsePointWKT (centroid cell) = None /\
  processCell svc cell options w
  = (Throw (TErr (mkError (lit "Failed to parse centroid for cell " ++ cell_id cell))), w).
Proof.
  intros Hhex.
  assert (parsePointWKT (centroid cell) = None) as Hnone.
  { unfold parsePointWKT. rewrite matchPoint_no_P; [reflexivity|].
    apply Forall_forall. intros c Hc. apply isHexDigit_not_P.
    rewrite forallb_forall in Hhex. apply Hhex. now apply list_elem_of_In. }
  split; [exact Hnone|]. unfold processCell. rewrite Hnone. reflexivity.
Qed.

Lemma processCell_hex_centroid_witness :
  parsePointWKT (centroid brokenCell) = None /\
  processCell (catalogWith []) brokenCell plainOptions
    emptyWorld
  = (Throw (TErr (mkError (lit "Failed to parse centroid for cell "
                           ++ cell_id brokenCell))),
     emptyWorld).
Proof.
  apply (processCell_hex_centroid (catalogWith []) brokenCell plainOptions emptyWorld).
  vm_compute. reflexivity.
Defined.

(** ** Categories, venue rows and the venues chosen *)

Lemma find_first {A} (f : A -> bool) (l : list A) c :
  List.find f l = Some c ->
  exists j : nat, l !! j = Some c /\ f c = true /\
    forall (i : nat) p, l !! i = Some p -> f p = true -> (j <= i)%nat.
Proof.
  induction l as [|x l IH]; cbn [List.find]; [discriminate|].
  destruct (f x) eqn:E.
  - intros [= <-]. exists 0%nat. split; [reflexivity|]. split; [exact E|]. intros; lia.
  - intros H. destruct (IH H) as (j & Hj & Hc & Hmin).
    exists (S j). split; [exact Hj|]. split; [exact Hc|].
    intros [|i] p Hp Hfp.
    + cbn in Hp. injection Hp as ->. congruence.
    + cbn in Hp. specialize (Hmin i p Hp Hfp). lia.
Qed.

Lemma find_none_elem {A} (f : A -> bool) (l : list A) p :
  List.find f l = None -> p ∈ l -> f p = false.
Proof. intros H Hp. apply (find_none f l H). now apply list_elem_of_In. Qed.

(** X11.  [getPrimaryCategory] gives no category exactly when the types
    are missing or empty.  Otherwise the category is one of the types of
    the place: the one that comes first in the priority list (night_club,
    bar, restaurant, cafe, park, tourist_attraction) when the place has
    such a type, and the first type of the place when it has none. *)
Theorem getPrimaryCategory_choice (types : option (list jsstring)) :
  (getPrimaryCategory types = None <-> types = None \/ types = Some []) /\
  (forall c, getPrimaryCategory types = Some c ->
     exists ts, types = Some ts /\ c ∈ ts /\
       ((exists j : nat, priorityTypes !! j = Some c /\
           forall (i : nat) p, priorityTypes !! i = Some p -> p ∈ ts -> (j <= i)%nat)
        \/ (head ts = Some c /\ forall p, p ∈ priorityTypes -> p ∉ ts))).
Proof.
  unfold getPrimaryCategory. destruct types as [[|t0 ts]|].
  - split; [split; auto|discriminate].
  - split.
    + split; [|intros [H|H]; discriminate].
      destruct (List.find _ priorityTypes); discriminate.
    + intros c Hc. exists (t0 :: ts). split; [reflexivity|].
      destruct (List.find (fun ty => bool_decide (ty ∈ t0 :: ts)) priorityTypes)
        as [ty|] eqn:E; injection Hc as <-.
      * apply find_first in E. destruct E as (j & Hj & Hin & Hmin).
        apply bool_decide_eq_true in Hin. split; [exact Hin|].
        left. exists j. split; [exact Hj|].
        intros i p Hp Hpin. apply (Hmin i p Hp). now apply bool_decide_eq_true.
      * split; [apply list_elem_of_here|]. right. split; [reflexivity|].
        intros p Hp Hin. apply (find_none_elem _ _ p E) in Hp.
        apply bool_decide_eq_false in Hp. contradiction.
  - split; [split; auto|discriminate].
Qed.

(** X12.  Every row that [processCell] builds for the venues table names
    the cell being processed and a place found by the search, has a name
    that is not empty, a review count of at least [MIN_REVIEW_COUNT] = 10,
    and a rating that is either missing or not zero. *)
Theorem venueData_rows (cell : GridCell) (coords : Coords)
  (allPlaces : list GooglePlace) (row : VenueData) :
  row ∈ toVenueData cell coords
        <$> rankVenues (filterQualifiedVenues allPlaces MIN_REVIEW_COUNT) ->
  v_grid_cell_id row = cell_id cell /\
  (exists p, p ∈ allPlaces /\ google_place_id row = place_id p) /\
  v_name row <> [] /\
  (exists c, review_count row = Some c /\ (10 <= c)%Q) /\
  (forall r, v_rating row = Some r -> ~ (r == 0)%Q).
Proof.
  intros Hrow. apply list_elem_of_fmap in Hrow. destruct Hrow as (p & -> & Hp).
  apply rankVenues_elem, filterQualifiedVenues_spec in Hp. destruct Hp as [Hp Hcount].
  unfold toVenueData.
  cbn [v_grid_cell_id google_place_id v_name review_count v_rating].
  split; [reflexivity|]. split; [now exists p|]. split.
  { destruct (displayName p) as [[|c t]|]; discriminate. }
  split.
  - unfold MIN_REVIEW_COUNT in Hcount. destruct (userRatingCount p) as [v|]; cbn in Hcount.
    + exists v. split; [|exact Hcount]. unfold orNull, truthy.
      destruct (Qeq_bool v 0) eqn:E; [|reflexivity].
      apply Qeq_bool_iff in E. rewrite E in Hcount. lra.
    + lra.
  - intros r. unfold orNull, truthy. destruct (rating p) as [v|]; [|discriminate].
    destruct (Qeq_bool v 0) eqn:E; [discriminate|].
    intros [= <-] H. apply Qeq_bool_neq in E. contradiction.
Qed.

Lemma venueData_rows_witness :
  v_grid_cell_id (toVenueData sampleCell sampleCoords venueB) = cell_id sampleCell /\
  (exists p, p ∈ [venueA; venueB] /\
     google_place_id (toVenueData sampleCell sampleCoords venueB) = place_id p) /\
  v_name (toVenueData sampleCell sampleCoords venueB) <> [] /\
  (exists c, review_count (toVenueData sampleCell sampleCoords venueB) = Some c /\
             (10 <= c)%Q) /\
  (forall r, v_rating (toVenueData sampleCell sampleCoords venueB) = Some r ->
             ~ (r == 0)%Q).
Proof.
  apply (venueData_rows sampleCell sampleCoords [venueA; venueB]
           (toVenueData sampleCell sampleCoords venueB)).
  vm_compute. apply list_elem_of_here.
Defined.

Lemma StronglySorted_app_inv {A} (R : A -> A -> Prop) l1 l2 a b :
  StronglySorted R (l1 ++ l2) -> In a l1 -> In b l2 -> R a b.
Proof.
  induction l1 as [|x l1 IH]; cbn [app]; intros Hs Ha Hb; [destruct Ha|].
  apply StronglySorted_inv in Hs. destruct Hs as [Hs Hall].
  destruct Ha as [<-|Ha]; [|now apply IH].
  rewrite List.Forall_forall in Hall. apply Hall, in_or_app. now right.
Qed.

(** X13.  The venues [processCell] asks the details of are the best ones:
    on venues whose computed score is finite, whatever [k] is (the code
    takes [TOP_VENUES_PER_CELL] = 5), each of the first [k] ranked venues
    has a composite score, as the code computes it in double precision, at
    least as high as each of the venues left out, and the two groups
    together are the venues given. *)
Theorem topVenues_dominate (venues : list GooglePlace) (k : nat) :
  Forall finiteScore venues ->
  (forall a b, a ∈ take k (rankVenues venues) -> b ∈ drop k (rankVenues venues) ->
               (scoreValue b <= scoreValue a)%Q) /\
  Permutation (take k (rankVenues venues) ++ drop k (rankVenues venues)) venues /\
  (length (take k (rankVenues venues)) <= k)%nat.
Proof.
  intros Hfin. split; [|split].
  - intros a b Ha Hb.
    pose proof (Array_sort_sorted scoreValue venues) as Hs.
    rewrite <- (rankVenues_byKey venues Hfin) in Hs.
    rewrite <- (take_drop k (rankVenues venues)) in Hs.
    apply (StronglySorted_app_inv _ _ _ a b Hs); now apply list_elem_of_In.
  - rewrite take_drop. apply Array_sort_perm_any.
  - rewrite length_take. lia.
Qed.

(** Of the two venues of the ranking example the first ranked one has the
    higher computed score. *)
Lemma topVenues_dominate_witness :
  Forall finiteScore [venueA; venueB] /\
  (forall a b, a ∈ take 1 (rankVenues [venueA; venueB]) ->
               b ∈ drop 1 (rankVenues [venueA; venueB]) ->
               (scoreValue b <= scoreValue a)%Q).
Proof.
  assert (Forall finiteScore [venueA; venueB]) as Hfin
    by (repeat constructor; vm_compute; reflexivity).
  split; [exact Hfin|].
  destruct (topVenues_dominate [venueA; venueB] 1 Hfin) as [H _]. exact H.
Defined.

(** ** Review text that fits *)

Lemma budgetUsed_app a b : budgetUsed (a ++ b) = budgetUsed a + budgetUsed b.
Proof. induction a as [|x a IH]; cbn [budgetUsed app]; lia. Qed.

Lemma budgetUsed_nonneg a : 0 <= budgetUsed a.
Proof.
  induction a as [|x a IH]; cbn [budgetUsed]; [lia|].
  pose proof (jslength_nonneg x). lia.
Qed.

Lemma appendWithinBudget_all texts : forall done,
  budgetUsed (done ++ texts) <= MAX_CHARS ->
  appendWithinBudget texts (bufferOf done) = bufferOf (done ++ texts).
Proof.
  induction texts as [|t texts IH]; intros done Hfit; cbn [appendWithinBudget].
  - now rewrite app_nil_r.
  - rewrite jslength_bufferOf.
    rewrite budgetUsed_app in Hfit. cbn [budgetUsed] in Hfit.
    pose proof (budgetUsed_nonneg texts).
    replace (budgetUsed done + jslength t + 2 >? MAX_CHARS) with false
      by (symmetry; rewrite Z.gtb_ltb; apply Z.ltb_ge; lia).
    rewrite <- bufferOf_snoc, IH.
    + now rewrite <- app_assoc.
    + rewrite <- app_assoc, budgetUsed_app. cbn [budgetUsed app]. lia.
Qed.

(** X14.  When the review texts of the places, each trimmed and counted
    with two more characters, add up to at most 8000, [aggregateReviews]
    leaves nothing out: its text is all the non-blank trimmed texts in
    order, joined by blank lines, and its count is their number.  With no
    such text at all it gives the empty string and the count 0. *)
Theorem aggregateReviews_all_fit (placeDetails : list GooglePlaceDetails) :
  budgetUsed (snippetsOf placeDetails) <= MAX_CHARS ->
  agg_text (aggregateReviews placeDetails) = joinBlank (snippetsOf placeDetails) /\
  agg_count (aggregateReviews placeDetails)
  = Z.of_nat (length (snippetsOf placeDetails)).
Proof.
  intros Hfit. unfold aggregateReviews. rewrite collectPlaces_spec.
  cbn [app agg_text agg_count].
  change (@nil N) with (bufferOf []) at 1.
  rewrite appendWithinBudget_all by exact Hfit. cbn [app].
  split; [|lia]. apply trim_bufferOf, snippetsOf_isSnippet.
Qed.

Lemma aggregateReviews_all_fit_witness :
  agg_text (aggregateReviews
              [placeWithReviews (lit "p") [reviewOf (lit " good "); reviewOf (lit "  ");
                                           reviewOf (lit "fine")]])
  = joinBlank (snippetsOf
                 [placeWithReviews (lit "p") [reviewOf (lit " good "); reviewOf (lit "  ");
                                              reviewOf (lit "fine")]]) /\
  agg_count (aggregateReviews
               [placeWithReviews (lit "p") [reviewOf (lit " good "); reviewOf (lit "  ");
                                            reviewOf (lit "fine")]])
  = Z.of_nat (length (snippetsOf
       [placeWithReviews (lit "p") [reviewOf (lit " good "); reviewOf (lit "  ");
                                    reviewOf (lit "fine")]])).
Proof.
  apply (aggregateReviews_all_fit
           [placeWithReviews (lit "p") [reviewOf (lit " good "); reviewOf (lit "  ");
                                        reviewOf (lit "fine")]]).
  vm_compute. discriminate.
Defined.

(** ** The search over the place types *)

Section SearchDistinct.

Variable svc : Services.

Lemma addUnseen_distinct found : forall allPlaces seenIds,
  (forall x, x ∈ seenIds <-> x ∈ place_id <$> allPlaces) ->
  NoDup (place_id <$> allPlaces) ->
  (forall x, x ∈ snd (addUnseen found allPlaces seenIds)
             <-> x ∈ place_id <$> fst (addUnseen found allPlaces seenIds)) /\
  NoDup (place_id <$> fst (addUnseen found allPlaces seenIds)).
Proof.
  induction found as [|p found IH]; intros allPlaces seenIds Hseen Hnd;
    cbn [addUnseen]; [now split|].
  destruct (bool_decide (place_id p ∈ seenIds)) eqn:E; [now apply IH|].
  apply bool_decide_eq_false in E. apply IH.
  - intros x. rewrite fmap_app, elem_of_union, elem_of_singleton, elem_of_app, Hseen.
    cbn [fmap list_fmap]. rewrite list_elem_of_singleton. tauto.
  - rewrite fmap_app. apply NoDup_app. split; [exact Hnd|]. split.
    + intros x Hx Hx'. cbn [fmap list_fmap] in Hx'. apply list_elem_of_singleton in Hx'.
      subst x. apply E, Hseen, Hx.
    + cbn [fmap list_fmap]. apply NoDup_singleton.
Qed.

Lemma searchTypes_distinct lat lng placeTypes : forall allPlaces seenIds w ps w',
  (forall x, x ∈ seenIds <-> x ∈ place_id <$> allPlaces) ->
  NoDup (place_id <$> allPlaces) ->
  searchTypes svc lat lng placeTypes allPlaces seenIds w = (Ok ps, w') ->
  NoDup (place_id <$> ps) /\ allPlaces `prefix_of` ps.
Proof.
  induction placeTypes as [|ty placeTypes IH]; intros allPlaces seenIds w ps w' Hseen Hnd;
    cbn [searchTypes].
  - intros [= <- <-]. split; [exact Hnd|reflexivity].
  - unfold bind at 1.
    destruct (nearbySearch svc lat lng ty w) as [[found|t] w1]; [|discriminate].
    destruct (addUnseen_distinct found allPlaces seenIds Hseen Hnd) as [Hseen' Hnd'].
    assert (allPlaces `prefix_of` fst (addUnseen found allPlaces seenIds)) as Hpre.
    { clear. revert allPlaces seenIds.
      induction found as [|p found IHf]; intros allPlaces seenIds; cbn [addUnseen];
        [reflexivity|].
      destruct (bool_decide (place_id p ∈ seenIds)); [apply IHf|].
      etransitivity; [|apply IHf]. now apply prefix_app_r. }
    destruct (addUnseen found allPlaces seenIds) as [allPlaces' seenIds'].
    cbn [fst snd] in *. intros Hrun.
    destruct (IH allPlaces' seenIds' w1 ps w' Hseen' Hnd' Hrun) as [Hps Hpre'].
    split; [exact Hps|]. now transitivity allPlaces'.
Qed.

End SearchDistinct.

(** X15.  When [searchAllTypes] returns, no two of the places it returns
    have the same id, whatever the catalogue answered and however the
    results of the place types overlap. *)
Theorem searchAllTypes_distinct (svc : Services) (lat lng : option Q)
  (placeTypes : list PlaceType) (w w' : World) (ps : list GooglePlace) :
  searchAllTypes svc lat lng placeTypes w = (Ok ps, w') ->
  NoDup (place_id <$> ps).
Proof.
  intros Hrun. unfold searchAllTypes in Hrun.
  apply (searchTypes_distinct svc lat lng placeTypes [] ∅ w ps w'); [| |exact Hrun].
  - intros x. cbn [fmap list_fmap]. rewrite elem_of_empty, elem_of_nil. tauto.
  - constructor.
Qed.

Lemma searchAllTypes_distinct_witness :
  NoDup (place_id <$> [venueA; venueB]).
Proof.
  apply (searchAllTypes_distinct (catalogWith [venueA; venueB; venueA]) (Some 2%Q) (Some 1%Q)
           PLACE_TYPES emptyWorld
           (snd (searchAllTypes (catalogWith [venueA; venueB; venueA]) (Some 2%Q) (Some 1%Q)
                   PLACE_TYPES emptyWorld))).
  vm_compute. reflexivity.
Defined.

(** ** The command line and the cells to process *)

(** X16.  When [parseArgs] accepts the arguments, the city slug is the
    first argument and does not start with [-]; [force] and [dryRun] say
    whether [--force] and [--dry-run] occur among the arguments; and a limit
    is present only as the positive integer that [parseInt] reads from the
    non-empty argument after the first [--limit].  A [--limit] with nothing
    or with an empty string after it is not an error: the limit is
    absent. *)
Theorem parseArgs_options (args : list jsstring) (options : CliOptions) :
  parseArgs args = Some options ->
  head args = Some (citySlug options) /\
  startsWith (citySlug options) (lit "-") = false /\
  (force options = true <-> lit "--force" ∈ args) /\
  (dryRun options = true <-> lit "--dry-run" ∈ args) /\
  (forall n, limit options = Some n ->
     0 < n /\ exists c v, argAfter (lit "--limit") args = Some (Some (c :: v)) /\
                          parseInt (c :: v) = Some n) /\
  (limit options = None ->
     forall c v, argAfter (lit "--limit") args <> Some (Some (c :: v))).
Proof.
  unfold parseArgs. destruct args as [|a0 rest]; [discriminate|].
  destruct (startsWith a0 (lit "-")) eqn:Hdash; [discriminate|].
  destruct (argAfter (lit "--limit") (a0 :: rest)) as [[[|c v]|]|] eqn:Hlimit.
  1,3,4: intros [= <-]; cbn [citySlug force dryRun limit head];
    rewrite !bool_decide_eq_true;
    (split; [reflexivity|]); (split; [exact Hdash|]); (split; [reflexivity|]);
    (split; [reflexivity|]); (split; [discriminate|]); intros _ c v; discriminate.
  destruct (parseInt (c :: v)) as [n|] eqn:Hn; [|discriminate].
  destruct (n <=? 0) eqn:Hpos; [discriminate|]. apply Z.leb_gt in Hpos.
  intros [= <-]. cbn [citySlug force dryRun limit head].
  rewrite !bool_decide_eq_true.
  split; [reflexivity|]. split; [exact Hdash|]. split; [reflexivity|].
  split; [reflexivity|]. split; [|discriminate].
  intros n' [= <-]. split; [exact Hpos|]. now exists c, v.
Qed.

Lemma parseArgs_options_witness :
  head [lit "san-francisco"; lit "--limit"; lit "10"; lit "--dry-run"]
  = Some (citySlug {| citySlug := lit "san-francisco"; force := false; dryRun := true;
                      limit := Some 10 |}) /\
  startsWith (lit "san-francisco") (lit "-") = false /\
  (false = true
   <-> lit "--force" ∈ [lit "san-francisco"; lit "--limit"; lit "10"; lit "--dry-run"]) /\
  (true = true
   <-> lit "--dry-run" ∈ [lit "san-francisco"; lit "--limit"; lit "10"; lit "--dry-run"]) /\
  (forall n, Some 10 = Some n ->
     0 < n /\ exists c v,
       argAfter (lit "--limit")
         [lit "san-francisco"; lit "--limit"; lit "10"; lit "--dry-run"]
       = Some (Some (c :: v)) /\ parseInt (c :: v) = Some n) /\
  (Some 10 = None ->
     forall c v,
       argAfter (lit "--limit")
         [lit "san-francisco"; lit "--limit"; lit "10"; lit "--dry-run"]
       <> Some (Some (c :: v))).
Proof.
  apply (parseArgs_options [lit "san-francisco"; lit "--limit"; lit "10"; lit "--dry-run"]
           {| citySlug := lit "san-francisco"; force := false; dryRun := true;
              limit := Some 10 |}).
  vm_compute. reflexivity.
Defined.

Lemma List_filter_sublist {A} (f : A -> bool) (l : list A) : List.filter f l `sublist_of` l.
Proof.
  induction l as [|x l IH]; cbn [List.filter]; [constructor|].
  destruct (f x); [now apply sublist_skip|now apply sublist_cons].
Qed.

(** X17.  Without [--force], when the centroids are delivered and the
    lookup of the existing scores succeeds, [getGridCells] returns cells of
    the grid in the order of the grid, none of which has a row in
    [cell_vibes], and at most [limit] of them; without a limit it returns
    every cell of the grid that has no row. *)
Theorem getGridCells_unscored (svc : Services) (cityId : jsstring)
  (options : CliOptions) (w : World) (centroidData : list GridCell) :
  db_centroids svc (tick w) cityId = Some centroidData ->
  db_select_vibes_fails svc (S (tick w)) = false ->
  force options = false ->
  match limit options with
  | Some n => 0 < n
  | None => True
  end ->
  exists cells,
    fst (getGridCells svc cityId options w) = Some cells /\
    cells `sublist_of` centroidData /\
    (forall c, c ∈ cells -> cell_id c ∉ grid_cell_id <$> cell_vibes w) /\
    (forall n, limit options = Some n -> Z.of_nat (length cells) <= n) /\
    (limit options = None ->
     forall c, c ∈ centroidData -> cell_id c ∉ grid_cell_id <$> cell_vibes w -> c ∈ cells).
Proof.
  intros Hdata Hselect Hforce Hlimit.
  rewrite (getGridCells_limit_only svc cityId options w centroidData Hdata Hselect Hlimit).
  rewrite Hforce. cbv zeta. eexists. split; [reflexivity|].
  assert (forall c, c ∈ unscored w centroidData
                    <-> c ∈ centroidData /\ cell_id c ∉ grid_cell_id <$> cell_vibes w)
    as Hun.
  { intros c. unfold unscored.
    rewrite list_elem_of_In, filter_In, <- list_elem_of_In, negb_true_iff,
      bool_decide_eq_false. reflexivity. }
  destruct (limit options) as [n|].
  - split; [etransitivity; [apply sublist_take|apply List_filter_sublist]|].
    split.
    + intros c Hc. apply (subseteq_take (Z.to_nat n)) in Hc. now apply Hun in Hc.
    + split; [|discriminate]. intros n' [= <-]. rewrite length_take. lia.
  - split; [apply List_filter_sublist|]. split; [intros c Hc; now apply Hun in Hc|].
    split; [discriminate|]. intros _ c Hc Hno. now apply Hun.
Qed.

Lemma getGridCells_unscored_witness :
  exists cells,
    fst (getGridCells (gridOf [cellNamed "a"; cellNamed "b"]) (lit "city") plainOptions
           emptyWorld) = Some cells /\
    cells `sublist_of` [cellNamed "a"; cellNamed "b"] /\
    (forall c, c ∈ cells -> cell_id c ∉ grid_cell_id <$> cell_vibes emptyWorld) /\
    (forall n, limit plainOptions = Some n -> Z.of_nat (length cells) <= n) /\
    (limit plainOptions = None ->
     forall c, c ∈ [cellNamed "a"; cellNamed "b"] ->
               cell_id c ∉ grid_cell_id <$> cell_vibes emptyWorld -> c ∈ cells).
Proof.
  apply (getGridCells_unscored (gridOf [cellNamed "a"; cellNamed "b"]) (lit "city")
           plainOptions emptyWorld [cellNamed "a"; cellNamed "b"]).
  - reflexivity.
  - reflexivity.
  - reflexivity.
  - simpl. exact I.
Defined.

(** X18.  When the lookup of the existing scores fails, [getGridCells]
    neither stops nor reports the cells as unknown: the error is dropped and
    the cells returned are the ones [--force] would return, scored or
    not. *)
Theorem getGridCells_lookup_failure (svc : Services) (cityId : jsstring)
  (options : CliOptions) (w : World) :
  db_select_vibes_fails svc (S (tick w)) = true ->
  fst (getGridCells svc cityId options w)
  = fst (getGridCells svc cityId
           {| citySlug := citySlug options; force := true; dryRun := dryRun options;
              limit := limit options |} w).
Proof.
  intros Hfails. unfold getGridCells. cbn [force limit].
  destruct (db_centroids svc (tick w) cityId) as [centroidData|]; [|reflexivity].
  destruct (force options); [reflexivity|].
  unfold selectExistingVibes.
  replace (tick (emit (EvRpcCentroids cityId) w)) with (S (tick w))
    by (unfold tick; cbn; rewrite length_app; cbn; lia).
  rewrite Hfails. cbn [fst].
  replace (List.filter (fun c => negb (bool_decide (cell_id c ∈ []))) centroidData)
    with centroidData; [reflexivity|].
  induction centroidData as [|c l IH]; [reflexivity|].
  cbn [List.filter].
  replace (bool_decide (cell_id c ∈ [])) with false
    by (symmetry; apply bool_decide_eq_false, not_elem_of_nil).
  cbn [negb]. now rewrite <- IH.
Qed.

Lemma getGridCells_lookup_failure_witness :
  fst (getGridCells (lookupFails [cellNamed "a"]) (lit "city") plainOptions emptyWorld)
  = fst (getGridCells (lookupFails [cellNamed "a"]) (lit "city")
           {| citySlug := citySlug plainOptions; force := true;
              dryRun := dryRun plainOptions; limit := limit plainOptions |} emptyWorld).
Proof.
  apply (getGridCells_lookup_failure (lookupFails [cellNamed "a"]) (lit "city") plainOptions
           emptyWorld).
  reflexivity.
Defined.

(** ** The table of scores *)

Lemma rowsOf_app cellId a b : rowsOf cellId (a ++ b) = rowsOf cellId a ++ rowsOf cellId b.
Proof. apply List.filter_app. Qed.

Lemma rowsNotOf_app cellId a b :
  rowsNotOf cellId (a ++ b) = rowsNotOf cellId a ++ rowsNotOf cellId b.
Proof. apply List.filter_app. Qed.

Lemma rowsOf_rowsNotOf cellId rows : rowsOf cellId (rowsNotOf cellId rows) = [].
Proof.
  unfold rowsOf, rowsNotOf. induction rows as [|v rows IH]; [reflexivity|].
  cbn [List.filter]. destruct (jsstring_eqb (grid_cell_id v) cellId) eqn:E; cbn [negb];
    [exact IH|]. cbn [List.filter]. now rewrite E.
Qed.

Lemma rowsNotOf_idem cellId rows :
  rowsNotOf cellId (rowsNotOf cellId rows) = rowsNotOf cellId rows.
Proof.
  unfold rowsNotOf. induction rows as [|v rows IH]; [reflexivity|].
  cbn [List.filter]. destruct (jsstring_eqb (grid_cell_id v) cellId) eqn:E; cbn [negb];
    [exact IH|]. cbn [List.filter]. rewrite E. cbn [negb]. now rewrite IH.
Qed.

Lemma rowsOf_self v : rowsOf (grid_cell_id v) [v] = [v].
Proof.
  unfold rowsOf, jsstring_eqb. cbn [List.filter].
  now rewrite bool_decide_eq_true_2.
Qed.

Lemma rowsNotOf_self v : rowsNotOf (grid_cell_id v) [v] = [].
Proof.
  unfold rowsNotOf, jsstring_eqb. cbn [List.filter].
  now rewrite bool_decide_eq_true_2.
Qed.

Section ScoreTable.

Variable svc : Services.

(** What [upsertCellVibes] does to the table, by the answers of the
    store. *)
Lemma upsertCellVibes_table vibes w :
  exists w',
    snd (upsertCellVibes svc vibes false w) = w' /\
    venues w' = venues w /\
    detailsCache w' = detailsCache w /\
    cell_vibes w'
    = (match db_delete_vibes svc (tick w) (grid_cell_id vibes) with
       | Some _ => cell_vibes w
       | None => rowsNotOf (grid_cell_id vibes) (cell_vibes w)
       end)
      ++ (match db_insert_vibes svc (S (tick w)) vibes with
          | Some _ => []
          | None => [vibes]
          end) /\
    fst (upsertCellVibes svc vibes false w)
    = match db_insert_vibes svc (S (tick w)) vibes with
      | Some e => Throw (TErr e)
      | None => Ok tt
      end.
Proof.
  unfold upsertCellVibes.
  set (w2 := match db_delete_vibes svc (tick w) (grid_cell_id vibes) with
             | Some _ => _
             | None => _
             end).
  assert (Htick : tick w2 = S (tick w)).
  { unfold w2, tick. destruct (db_delete_vibes svc _ _); cbn; rewrite length_app; cbn; lia. }
  rewrite Htick. eexists. split; [reflexivity|].
  unfold w2.
  destruct (db_delete_vibes svc (tick w) (grid_cell_id vibes));
    destruct (db_insert_vibes svc (S (tick w)) vibes); cbn;
    rewrite ?app_nil_r; auto.
Qed.

End ScoreTable.

(** X19.  When the store accepts both the deletion and the insertion,
    [upsertCellVibes] returns and replaces the scores of the cell: the
    table then holds exactly one row for the cell, the new one, and the
    rows of the other cells are as before. *)
Theorem upsertCellVibes_replaces (svc : Services) (vibes : CellVibeData) (w : World) :
  db_delete_vibes svc (tick w) (grid_cell_id vibes) = None ->
  db_insert_vibes svc (S (tick w)) vibes = None ->
  exists w',
    upsertCellVibes svc vibes false w = (Ok tt, w') /\
    rowsOf (grid_cell_id vibes) (cell_vibes w') = [vibes] /\
    rowsNotOf (grid_cell_id vibes) (cell_vibes w')
    = rowsNotOf (grid_cell_id vibes) (cell_vibes w).
Proof.
  intros Hdel Hins.
  destruct (upsertCellVibes_table svc vibes w) as (w' & Hw & _ & _ & Hrows & Hres).
  rewrite Hdel, Hins in Hrows. rewrite Hins in Hres.
  exists w'. split.
  { destruct (upsertCellVibes svc vibes false w). cbn [fst snd] in *. congruence. }
  rewrite Hrows, rowsOf_app, rowsNotOf_app, rowsOf_rowsNotOf, rowsNotOf_idem,
    rowsOf_self, rowsNotOf_self, app_nil_r.
  split; reflexivity.
Qed.

Lemma upsertCellVibes_replaces_witness :
  exists w',
    upsertCellVibes (vibesStore false false) (blankRow "a" 7) false
      (worldWith [blankRow "a" 1; blankRow "b" 2]) = (Ok tt, w') /\
    rowsOf (grid_cell_id (blankRow "a" 7)) (cell_vibes w') = [blankRow "a" 7] /\
    rowsNotOf (grid_cell_id (blankRow "a" 7)) (cell_vibes w')
    = rowsNotOf (grid_cell_id (blankRow "a" 7))
        (cell_vibes (worldWith [blankRow "a" 1; blankRow "b" 2])).
Proof.
  apply (upsertCellVibes_replaces (vibesStore false false) (blankRow "a" 7)
           (worldWith [blankRow "a" 1; blankRow "b" 2])).
  - reflexivity.
  - reflexivity.
Defined.

(** X20.  The answer of the store to the deletion is not looked at: when
    the deletion is rejected and the insertion accepted, [upsertCellVibes]
    returns normally and the table holds the old rows of the cell and the
    new row beside them. *)
Theorem upsertCellVibes_delete_unchecked (svc : Services) (vibes : CellVibeData)
  (w : World) (e : Error) :
  db_delete_vibes svc (tick w) (grid_cell_id vibes) = Some e ->
  db_insert_vibes svc (S (tick w)) vibes = None ->
  exists w',
    upsertCellVibes svc vibes false w = (Ok tt, w') /\
    cell_vibes w' = cell_vibes w ++ [vibes] /\
    rowsOf (grid_cell_id vibes) (cell_vibes w')
    = rowsOf (grid_cell_id vibes) (cell_vibes w) ++ [vibes].
Proof.
  intros Hdel Hins.
  destruct (upsertCellVibes_table svc vibes w) as (w' & Hw & _ & _ & Hrows & Hres).
  rewrite Hdel, Hins in Hrows. rewrite Hins in Hres.
  exists w'. split.
  { destruct (upsertCellVibes svc vibes false w). cbn [fst snd] in *. congruence. }
  split; [exact Hrows|]. now rewrite Hrows, rowsOf_app, rowsOf_self.
Qed.

Lemma upsertCellVibes_delete_unchecked_witness :
  exists w',
    upsertCellVibes (vibesStore true false) (blankRow "a" 7) false
      (worldWith [blankRow "a" 1]) = (Ok tt, w') /\
    cell_vibes w' = cell_vibes (worldWith [blankRow "a" 1]) ++ [blankRow "a" 7] /\
    rowsOf (grid_cell_id (blankRow "a" 7)) (cell_vibes w')
    = rowsOf (grid_cell_id (blankRow "a" 7)) (cell_vibes (worldWith [blankRow "a" 1]))
      ++ [blankRow "a" 7].
Proof.
  apply (upsertCellVibes_delete_unchecked (vibesStore true false) (blankRow "a" 7)
           (worldWith [blankRow "a" 1]) storeError).
  - reflexivity.
  - reflexivity.
Defined.

(** X21.  Deletion and insertion are two requests: when the store accepts
    the deletion and rejects the insertion, [upsertCellVibes] throws the
    error of the insertion and the cell is left with no row at all, also
    when it had one before. *)
Theorem upsertCellVibes_insert_rejected (svc : Services) (vibes : CellVibeData)
  (w : World) (e : Error) :
  db_delete_vibes svc (tick w) (grid_cell_id vibes) = None ->
  db_insert_vibes svc (S (tick w)) vibes = Some e ->
  exists w',
    upsertCellVibes svc vibes false w = (Throw (TErr e), w') /\
    rowsOf (grid_cell_id vibes) (cell_vibes w') = [] /\
    rowsNotOf (grid_cell_id vibes) (cell_vibes w')
    = rowsNotOf (grid_cell_id vibes) (cell_vibes w).
Proof.
  intros Hdel Hins.
  destruct (upsertCellVibes_table svc vibes w) as (w' & Hw & _ & _ & Hrows & Hres).
  rewrite Hdel, Hins in Hrows. rewrite Hins in Hres.
  exists w'. split.
  { destruct (upsertCellVibes svc vibes false w). cbn [fst snd] in *. congruence. }
  rewrite Hrows, app_nil_r, rowsOf_rowsNotOf, rowsNotOf_idem. split; reflexivity.
Qed.

Lemma upsertCellVibes_insert_rejected_witness :
  exists w',
    upsertCellVibes (vibesStore false true) (blankRow "a" 7) false
      (worldWith [blankRow "a" 1; blankRow "b" 2]) = (Throw (TErr storeError), w') /\
    rowsOf (grid_cell_id (blankRow "a" 7)) (cell_vibes w') = [] /\
    rowsNotOf (grid_cell_id (blankRow "a" 7)) (cell_vibes w')
    = rowsNotOf (grid_cell_id (blankRow "a" 7))
        (cell_vibes (worldWith [blankRow "a" 1; blankRow "b" 2])).
Proof.
  apply (upsertCellVibes_insert_rejected (vibesStore false true) (blankRow "a" 7)
           (worldWith [blankRow "a" 1; blankRow "b" 2]) storeError).
  - reflexivity.
  - reflexivity.
Defined.

(** ** A cell once scored is skipped *)

Section Resume.

Variable svc : Services.

Lemma upsertCellVibes_ok_row vibes w w' :
  upsertCellVibes svc vibes false w = (Ok tt, w') -> vibes ∈ cell_vibes w'.
Proof.
  intros Hrun.
  destruct (upsertCellVibes_table svc vibes w) as (w0 & Hw & _ & _ & Hrows & Hres).
  rewrite Hrun in Hw, Hres. cbn [fst snd] in *. subst w0.
  destruct (db_insert_vibes svc (S (tick w)) vibes); [discriminate|].
  rewrite Hrows. apply elem_of_app. right. apply list_elem_of_here.
Qed.

Lemma scoreCell_ok_row cell options topVenues w w' :
  dryRun options = false ->
  scoreCell svc cell options topVenues w = (Ok tt, w') ->
  exists row, row ∈ cell_vibes w' /\ grid_cell_id row = cell_id cell.
Proof.
  intros Hdry. unfold scoreCell. rewrite Hdry. destruct topVenues as [|v top].
  - unfold bind, now. intros Hrun. eexists. split; [eapply upsertCellVibes_ok_row, Hrun|].
    reflexivity.
  - unfold bind at 1.
    destruct (fetchTopDetails svc (v :: top) [] w) as [[placeDetails|t] w1]; [|discriminate].
    unfold bind at 1.
    destruct (match agg_text (aggregateReviews placeDetails) with
              | [] => ret emptyVibeScores
              | _ :: _ => _
              end w1) as [[vibeScores|t] w2]; [|discriminate].
    unfold bind, now. intros Hrun.
    eexists. split; [eapply upsertCellVibes_ok_row, Hrun|]. reflexivity.
Qed.

Lemma processCell_ok_row cell options w w' :
  dryRun options = false ->
  processCell svc cell options w = (Ok tt, w') ->
  exists row, row ∈ cell_vibes w' /\ grid_cell_id row = cell_id cell.
Proof.
  intros Hdry. unfold processCell.
  destruct (parsePointWKT (centroid cell)) as [coords|]; [|discriminate].
  unfold bind at 1.
  destruct (searchAllTypes svc (lat coords) (lng coords) PLACE_TYPES w)
    as [[allPlaces|t] w1]; [|discriminate].
  unfold bind at 1.
  destruct (upsertVenues svc _ (dryRun options) w1) as [[[]|t] w2]; [|discriminate].
  now apply scoreCell_ok_row.
Qed.

End Resume.

(** X22.  The run can be resumed: once [processCell] has returned for a
    cell in a run that is not dry, the table of scores holds a row for the
    cell, and a later load of the cells without [--force], on any world
    with that table, does not return the cell. *)
Theorem processCell_then_skipped (svc svc' : Services) (cell : GridCell)
  (options options' : CliOptions) (w w' later : World) (cityId : jsstring)
  (centroidData cells : list GridCell) :
  dryRun options = false ->
  processCell svc cell options w = (Ok tt, w') ->
  cell_vibes later = cell_vibes w' ->
  db_centroids svc' (tick later) cityId = Some centroidData ->
  db_select_vibes_fails svc' (S (tick later)) = false ->
  force options' = false ->
  match limit options' with
  | Some n => 0 < n
  | None => True
  end ->
  fst (getGridCells svc' cityId options' later) = Some cells ->
  (exists row, row ∈ cell_vibes w' /\ grid_cell_id row = cell_id cell) /\
  forall c, c ∈ cells -> cell_id c <> cell_id cell.
Proof.
  intros Hdry Hrun Hlater Hdata Hselect Hforce Hlimit Hcells.
  destruct (processCell_ok_row svc cell options w w' Hdry Hrun) as (row & Hrow & Hid).
  split; [now exists row|].
  rewrite (getGridCells_limit_only svc' cityId options' later centroidData
             Hdata Hselect Hlimit) in Hcells.
  rewrite Hforce in Hcells. cbv zeta in Hcells. injection Hcells as <-.
  intros c Hc.
  assert (c ∈ unscored later centroidData) as Hun.
  { destruct (limit options'); [now apply subseteq_take in Hc|exact Hc]. }
  unfold unscored in Hun.
  apply list_elem_of_In, filter_In in Hun. destruct Hun as [_ Hun].
  apply negb_true_iff, bool_decide_eq_false in Hun.
  intros Heq. apply Hun. rewrite Hlater, Heq, <- Hid.
  apply list_elem_of_fmap. now exists row.
Qed.

Lemma processCell_then_skipped_witness :
  (exists row,
     row ∈ cell_vibes (snd (processCell (gridOf [cellNamed "a"; cellNamed "b"])
                              (cellNamed "a") plainOptions emptyWorld)) /\
     grid_cell_id row = cell_id (cellNamed "a")) /\
  forall c, c ∈ [cellNamed "b"] -> cell_id c <> cell_id (cellNamed "a").
Proof.
  apply (processCell_then_skipped (gridOf [cellNamed "a"; cellNamed "b"])
           (gridOf [cellNamed "a"; cellNamed "b"]) (cellNamed "a") plainOptions plainOptions
           emptyWorld
           (snd (processCell (gridOf [cellNamed "a"; cellNamed "b"]) (cellNamed "a")
                   plainOptions emptyWorld))
           (snd (processCell (gridOf [cellNamed "a"; cellNamed "b"]) (cellNamed "a")
                   plainOptions emptyWorld))
           (lit "city") [cellNamed "a"; cellNamed "b"] [cellNamed "b"]).
  - reflexivity.
  - vm_compute. reflexivity.
  - reflexivity.
  - reflexivity.
  - reflexivity.
  - reflexivity.
  - simpl. exact I.
  - vm_compute. reflexivity.
Defined.

(** ** Dry runs *)

#[global] Instance tablesKept_effects P : Effects (tablesKept P) P.
Proof.
  split.
  - intros w. split; [reflexivity|]. split; [reflexivity|apply traceAdds_refl].
  - intros a b c (V1 & C1 & T1) (V2 & C2 & T2).
    split; [congruence|]. split; [congruence|eapply traceAdds_trans; eauto].
  - intros e w He. split; [reflexivity|]. split; [reflexivity|now apply traceAdds_emit].
Qed.

Lemma retryNoise_notStoreWrite e : retryNoise e -> notStoreWrite e.
Proof. destruct e; cbn; tauto. Qed.

Lemma lookupEvent_notStoreWrite e : lookupEvent e -> notStoreWrite e.
Proof. destruct e; cbn; tauto. Qed.

Lemma tablesKept_weaken (P Q : Event -> Prop) w w' :
  (forall e, P e -> Q e) -> tablesKept P w w' -> tablesKept Q w w'.
Proof.
  intros HPQ (Hv & Hc & Ht). split; [exact Hv|]. split; [exact Hc|].
  eapply traceAdds_weaken; eauto.
Qed.

Section DryRun.

Variable svc : Services.

Local Abbreviation kept := (tablesKept notStoreWrite).

Lemma nearbySearch_tables lat lng placeType :
  preserves kept (nearbySearch svc lat lng placeType).
Proof.
  unfold nearbySearch, acquire.
  apply preserves_bind; [now apply preserves_perform|]. intros _.
  apply preserves_bind.
  - apply preserves_logged; [|apply retryNoise_notStoreWrite].
    now apply preserves_fetchWithError.
  - intros response. apply preserves_bind.
    + apply preserves_liftOutcome.
    + intros data. apply preserves_ret.
Qed.

Lemma searchTypes_tables lat lng placeTypes : forall allPlaces seenIds,
  preserves kept (searchTypes svc lat lng placeTypes allPlaces seenIds).
Proof.
  induction placeTypes as [|ty rest IH]; intros allPlaces seenIds; cbn [searchTypes].
  - apply preserves_ret.
  - apply preserves_bind; [apply nearbySearch_tables|].
    intros found. destruct (addUnseen found allPlaces seenIds). apply IH.
Qed.

Lemma scoreVibes_tables reviewText : preserves kept (scoreVibes svc reviewText).
Proof.
  unfold scoreVibes, acquire.
  apply preserves_bind; [now apply preserves_perform|]. intros _.
  apply preserves_bind.
  - apply preserves_logged; [|apply retryNoise_notStoreWrite].
    intros w. now apply effects_emit.
  - intros outputText. apply preserves_liftOutcome.
Qed.

Lemma getPlaceDetails_tables placeId : preserves kept (getPlaceDetails svc placeId).
Proof.
  intros w. unfold getPlaceDetails.
  destruct (detailsCache w !! placeId) as [cached|]; [apply effects_refl|].
  match goal with
  | |- tablesKept _ _ (snd (?m w)) => assert (preserves kept m) as H; [|apply H]
  end.
  unfold acquire.
  apply preserves_bind; [now apply preserves_perform|]. intros _.
  apply preserves_tryCatch.
  - apply preserves_bind.
    + apply preserves_logged; [|apply retryNoise_notStoreWrite].
      now apply preserves_fetchWithError.
    + intros response. apply preserves_bind; [apply preserves_liftOutcome|].
      intros data. apply preserves_bind; [|intros _; apply preserves_ret].
      intros w0. unfold tablesKept, cacheSet. cbn [snd venues cell_vibes].
      split; [reflexivity|]. split; [reflexivity|].
      exists []. cbn [snd trace]. split; [now rewrite app_nil_r|constructor].
  - intros [e|]; [apply preserves_ret|apply preserves_throw].
Qed.

Lemma fetchTopDetails_tables topVenues : forall placeDetails,
  preserves kept (fetchTopDetails svc topVenues placeDetails).
Proof.
  induction topVenues as [|venue rest IH]; intros placeDetails; cbn [fetchTopDetails].
  - apply preserves_ret.
  - apply preserves_bind; [apply getPlaceDetails_tables|]. intros details. apply IH.
Qed.

Lemma upsertCellVibes_dry vibes w : upsertCellVibes svc vibes true w = (Ok tt, w).
Proof. reflexivity. Qed.

Lemma scoreCell_tables cell options topVenues :
  dryRun options = true -> preserves kept (scoreCell svc cell options topVenues).
Proof.
  intros Hdry. unfold scoreCell. rewrite Hdry. destruct topVenues as [|v top].
  - apply preserves_bind; [apply (preserves_now svc (P := notStoreWrite))|]. intros computed w.
    change (kept w w). apply effects_refl.
  - apply preserves_bind; [apply fetchTopDetails_tables|].
    intros placeDetails. apply preserves_bind.
    + destruct (agg_text _); [apply preserves_ret|apply scoreVibes_tables].
    + intros vibeScores. apply preserves_bind; [apply (preserves_now svc (P := notStoreWrite))|].
      intros computed w.
    change (kept w w). apply effects_refl.
Qed.

Lemma processCell_tables cell options :
  dryRun options = true -> preserves kept (processCell svc cell options).
Proof.
  intros Hdry. unfold processCell.
  destruct (parsePointWKT (centroid cell)) as [coords|]; [|apply preserves_throw].
  apply preserves_bind; [apply searchTypes_tables|].
  intros allPlaces. apply preserves_bind.
  - intros w. unfold upsertVenues. rewrite Hdry. change (kept w w). apply effects_refl.
  - intros _. now apply scoreCell_tables.
Qed.

Lemma processCells_tables options total cells : forall processed failedCells,
  dryRun options = true ->
  preserves kept (processCells svc options total cells processed failedCells).
Proof.
  induction cells as [|cell rest IH]; intros processed failedCells Hdry;
    cbn [processCells].
  - apply preserves_ret.
  - apply preserves_bind.
    + apply preserves_tryCatch.
      * apply preserves_bind; [now apply processCell_tables|]. intros _. apply preserves_ret.
      * intros [e|]; cbn [recordFailure]; [|apply preserves_throw].
        apply preserves_bind; [apply (preserves_now svc (P := notStoreWrite))|]. intros stamp. apply preserves_ret.
    + intros failedCells'. apply preserves_bind; [|intros _; now apply IH].
      destruct (_ <? _); [now apply preserves_perform|apply preserves_ret].
Qed.

(** The lookups of the city and of the cells change neither the tables
    nor the cache. *)
Lemma getCityId_lookup slug w :
  tablesKept lookupEvent w (snd (getCityId svc slug w)) /\
  cacheKept lookupEvent w (snd (getCityId svc slug w)).
Proof. split; now apply effects_emit. Qed.

Lemma getGridCells_lookup cityId options w :
  tablesKept lookupEvent w (snd (getGridCells svc cityId options w)) /\
  cacheKept lookupEvent w (snd (getGridCells svc cityId options w)).
Proof.
  unfold getGridCells.
  destruct (db_centroids svc (tick w) cityId) as [centroidData|];
    [|split; now apply effects_emit].
  destruct (force options); [split; now apply effects_emit|].
  unfold selectExistingVibes. cbn [snd].
  split; (eapply effects_trans; [|apply effects_emit]); try (apply effects_emit); exact I.
Qed.

Lemma parseArgs_dryRun args options :
  parseArgs args = Some options ->
  dryRun options = bool_decide (lit "--dry-run" ∈ args).
Proof.
  unfold parseArgs. destruct args as [|a0 rest]; [discriminate|].
  destruct (startsWith a0 (lit "-")); [discriminate|].
  destruct (argAfter (lit "--limit") (a0 :: rest)) as [[[|c v]|]|].
  1,3,4: now intros [= <-].
  destruct (parseInt (c :: v)) as [n|]; [|discriminate].
  destruct (n <=? 0); [discriminate|]. now intros [= <-].
Qed.

End DryRun.

(** X23.  With [--dry-run] among the arguments the run changes neither
    table, however it ends: whatever the catalogue, the classifier and the
    store answer, [venues] and [cell_vibes] are afterwards as they were,
    and no upsert, deletion or insertion has been sent. *)
Theorem main_dry_run (svc : Services) (env : Env) (args : list jsstring) (w : World) :
  lit "--dry-run" ∈ args ->
  venues (snd (main svc env args w)) = venues w /\
  cell_vibes (snd (main svc env args w)) = cell_vibes w /\
  exists added,
    trace (snd (main svc env args w)) = trace w ++ added /\ Forall notStoreWrite added.
Proof.
  intros Hflag.
  change (tablesKept notStoreWrite w (snd (main svc env args w))).
  unfold main.
  destruct (negb (validateEnv env)); [apply effects_refl|].
  destruct (parseArgs args) as [options|] eqn:Hargs; [|apply effects_refl].
  assert (dryRun options = true) as Hdry.
  { rewrite (parseArgs_dryRun args options Hargs). now apply bool_decide_eq_true. }
  destruct (getCityId_lookup svc (citySlug options) w) as [Hcity _].
  apply (tablesKept_weaken _ _ _ _ lookupEvent_notStoreWrite) in Hcity.
  destruct (getCityId svc (citySlug options) w) as [[cityId|] w1]; cbn [snd] in *;
    [|exact Hcity].
  destruct (getGridCells_lookup svc cityId options w1) as [Hgrid _].
  apply (tablesKept_weaken _ _ _ _ lookupEvent_notStoreWrite) in Hgrid.
  pose proof (effects_trans _ _ _ Hcity Hgrid) as H2.
  destruct (getGridCells svc cityId options w1) as [[cells|] w2]; cbn [snd] in *;
    [|exact H2].
  destruct cells as [|cell cells]; [exact H2|].
  pose proof (processCells_tables svc options (Z.of_nat (length (cell :: cells)))
                (cell :: cells) 0 [] Hdry w2) as H3.
  pose proof (effects_trans _ _ _ H2 H3) as H4.
  destruct (processCells svc options _ (cell :: cells) 0 [] w2) as [[[processed failedCells]|t] w3];
    cbn [snd] in *; [|exact H4].
  assert (tablesKept notStoreWrite w3 (snd (saveFailedCells failedCells w3))) as H5.
  { unfold saveFailedCells. destruct failedCells; [apply effects_refl|].
    now apply effects_emit. }
  destruct (saveFailedCells failedCells w3) as [r w4]; cbn [snd] in *.
  exact (effects_trans _ _ _ H4 H5).
Qed.

Lemma main_dry_run_witness :
  venues (snd (main (gridOf [cellNamed "a"]) sampleEnv
                 [lit "san-francisco"; lit "--dry-run"] emptyWorld)) = venues emptyWorld /\
  cell_vibes (snd (main (gridOf [cellNamed "a"]) sampleEnv
                     [lit "san-francisco"; lit "--dry-run"] emptyWorld))
  = cell_vibes emptyWorld /\
  exists added,
    trace (snd (main (gridOf [cellNamed "a"]) sampleEnv
                  [lit "san-francisco"; lit "--dry-run"] emptyWorld))
    = trace emptyWorld ++ added /\ Forall notStoreWrite added.
Proof.
  apply (main_dry_run (gridOf [cellNamed "a"]) sampleEnv
           [lit "san-francisco"; lit "--dry-run"] emptyWorld).
  apply list_elem_of_further, list_elem_of_here.
Defined.

(** ** Runs that stop before the first cell *)

(** X24.  When the run exits (variables of the environment missing, bad
    arguments, city not found, centroids not available), the exit code is
    1 and nothing has been processed: the cache and both tables are as they
    were, and the only requests sent are the lookups of the city, of the
    centroids and of the existing scores. *)
Theorem main_exit_untouched (svc : Services) (env : Env) (args : list jsstring)
  (w : World) (code : Z) :
  fst (main svc env args w) = Exit code ->
  code = 1 /\
  detailsCache (snd (main svc env args w)) = detailsCache w /\
  venues (snd (main svc env args w)) = venues w /\
  cell_vibes (snd (main svc env args w)) = cell_vibes w /\
  exists added,
    trace (snd (main svc env args w)) = trace w ++ added /\ Forall lookupEvent added.
Proof.
  assert (forall w', cacheKept lookupEvent w w' -> tablesKept lookupEvent w w' ->
            detailsCache w' = detailsCache w /\ venues w' = venues w /\
            cell_vibes w' = cell_vibes w /\
            exists added, trace w' = trace w ++ added /\ Forall lookupEvent added) as Hpack.
  { intros w' [Hc _] (Hv & Hr & Ht). auto. }
  unfold main.
  destruct (negb (validateEnv env)).
  { cbn [fst snd]. intros [= <-]. split; [reflexivity|]. apply Hpack; apply effects_refl. }
  destruct (parseArgs args) as [options|].
  2: { cbn [fst snd]. intros [= <-]. split; [reflexivity|]. apply Hpack; apply effects_refl. }
  destruct (getCityId_lookup svc (citySlug options) w) as [Ht1 Hc1].
  destruct (getCityId svc (citySlug options) w) as [[cityId|] w1]; cbn [snd] in *.
  2: { cbn [fst snd]. intros [= <-]. split; [reflexivity|]. now apply Hpack. }
  destruct (getGridCells_lookup svc cityId options w1) as [Ht2 Hc2].
  destruct (getGridCells svc cityId options w1) as [[cells|] w2]; cbn [snd] in *.
  2: { cbn [fst snd]. intros [= <-]. split; [reflexivity|].
       apply Hpack; eapply effects_trans; eauto. }
  destruct cells as [|cell cells]; [discriminate|].
  destruct (processCells svc options _ (cell :: cells) 0 [] w2) as [[[processed failed]|t] w3];
    [|discriminate].
  destruct (saveFailedCells failed w3). discriminate.
Qed.

Lemma main_exit_untouched_witness :
  1 = 1 /\
  detailsCache (snd (main (detailsAlways 404) sampleEnv [lit "atlantis"] emptyWorld))
  = detailsCache emptyWorld /\
  venues (snd (main (detailsAlways 404) sampleEnv [lit "atlantis"] emptyWorld))
  = venues emptyWorld /\
  cell_vibes (snd (main (detailsAlways 404) sampleEnv [lit "atlantis"] emptyWorld))
  = cell_vibes emptyWorld /\
  exists added,
    trace (snd (main (detailsAlways 404) sampleEnv [lit "atlantis"] emptyWorld))
    = trace emptyWorld ++ added /\ Forall lookupEvent added.
Proof.
  apply (main_exit_untouched (detailsAlways 404) sampleEnv [lit "atlantis"] emptyWorld 1).
  vm_compute. reflexivity.
Defined.

(** ** What a cell can cost *)

Lemma countOf_app p a b : (countOf p (a ++ b) = countOf p a + countOf p b)%nat.
Proof. unfold countOf. now rewrite List.filter_app, length_app. Qed.

Lemma countOf_none (P : Event -> Prop) p l :
  (forall e, P e -> p e = false) -> Forall P l -> countOf p l = 0%nat.
Proof.
  intros HP. induction 1 as [|e l He _ IH]; [reflexivity|].
  unfold countOf in *. cbn [List.filter]. now rewrite (HP e He).
Qed.

Lemma countOf_one p e : (countOf p [e] <= 1)%nat.
Proof. unfold countOf. cbn [List.filter]. destruct (p e); cbn; lia. Qed.

Section Spends.

Variable p : Event -> bool.

Lemma spends_weaken {A} n n' (m : M A) : (n <= n')%nat -> spends p n m -> spends p n' m.
Proof. intros Hn Hm w. destruct (Hm w) as (added & E & Hc). exists added. split; [exact E|lia]. Qed.

Lemma spends_nothing {A} (m : M A) :
  (forall w, trace (snd (m w)) = trace w) -> spends p 0 m.
Proof.
  intros Hm w. exists []. rewrite Hm, app_nil_r. split; [reflexivity|]. cbn. lia.
Qed.

Lemma spends_perform e : spends p (countOf p [e]) (perform e).
Proof. intros w. exists [e]. split; [reflexivity|lia]. Qed.

Lemma spends_bind {A B} n k (m : M A) (f : A -> M B) :
  spends p n m -> (forall a, spends p k (f a)) -> spends p (n + k) (bind m f).
Proof.
  intros Hm Hf w. unfold bind. destruct (Hm w) as (a1 & E1 & C1).
  destruct (m w) as [[a|t] w1]; cbn [snd] in *.
  - destruct (Hf a w1) as (a2 & E2 & C2). exists (a1 ++ a2).
    rewrite E2, E1, app_assoc, countOf_app. split; [reflexivity|lia].
  - exists a1. split; [exact E1|lia].
Qed.

Lemma spends_tryCatch {A} n k (m : M A) (handler : Thrown -> M A) :
  spends p n m -> (forall t, spends p k (handler t)) -> spends p (n + k) (tryCatch m handler).
Proof.
  intros Hm Hh w. unfold tryCatch. destruct (Hm w) as (a1 & E1 & C1).
  destruct (m w) as [[a|t] w1]; cbn [snd] in *.
  - exists a1. split; [exact E1|lia].
  - destruct (Hh t w1) as (a2 & E2 & C2). exists (a1 ++ a2).
    rewrite E2, E1, app_assoc, countOf_app. split; [reflexivity|lia].
Qed.

Hypothesis noise_free : forall e, retryNoise e -> p e = false.

Lemma spends_noise e : retryNoise e -> spends p 0 (perform e).
Proof.
  intros He. eapply spends_weaken; [|apply spends_perform].
  unfold countOf. cbn [List.filter]. now rewrite (noise_free e He).
Qed.

(** Each iteration of the loop of [withRetry] costs what the operation
    costs. *)
Lemma spends_retryLoop {T} (fn : M T) what c :
  spends p c fn ->
  forall iterations attempt lastError,
    spends p (iterations * c)
      (retryLoop fn (retryLogging what) iterations attempt lastError).
Proof.
  intros Hfn. induction iterations as [|n IH]; intros attempt lastError.
  - now apply spends_nothing.
  - cbn [retryLoop]. replace (S n * c)%nat with (c + n * c)%nat by lia.
    apply spends_tryCatch; [exact Hfn|]. intros t.
    destruct (negb _ || _); [apply spends_weaken with 0%nat; [lia|now apply spends_nothing]|].
    replace (n * c)%nat with (0 + (0 + n * c))%nat by lia.
    apply spends_bind; [now apply spends_noise|]. intros _.
    apply spends_bind; [now apply spends_noise|]. intros _. apply IH.
Qed.

Lemma spends_logged {T} (fn : M T) what c :
  spends p c fn -> spends p (4 * c) (withRetry fn (retryLogging what)).
Proof. intros Hfn. unfold withRetry. now apply (spends_retryLoop fn what c Hfn 4). Qed.

Lemma spends_fetchWithError {B} request (answer : nat -> HttpAnswer B) :
  spends p (countOf p [request]) (fetchWithError request answer).
Proof.
  intros w. exists [request]. split; [|lia]. unfold fetchWithError.
  destruct (answer (tick w)) as [e|r]; [reflexivity|].
  destruct (response_ok _); reflexivity.
Qed.

Variable svc : Services.
Variables nearbyCost detailsCost classifyCost placesCost openaiCost : nat.

Hypothesis nearby_cost :
  forall lat lng ty, (countOf p [EvFetchNearby lat lng ty] <= nearbyCost)%nat.
Hypothesis details_cost : forall id, (countOf p [EvFetchDetails id] <= detailsCost)%nat.
Hypothesis classify_cost : forall input, (countOf p [EvClassify input] <= classifyCost)%nat.
Hypothesis places_cost : (countOf p [EvAcquire PlacesLimiter] <= placesCost)%nat.
Hypothesis openai_cost : (countOf p [EvAcquire OpenAILimiter] <= openaiCost)%nat.
Hypothesis store_free : forall e, p e = true -> notStoreWrite e.

Lemma nearbySearch_spends lat lng placeType :
  spends p (placesCost + 4 * nearbyCost) (nearbySearch svc lat lng placeType).
Proof.
  unfold nearbySearch, acquire.
  apply spends_bind; [eapply spends_weaken; [apply places_cost|apply spends_perform]|].
  intros _. replace (4 * nearbyCost)%nat with (4 * nearbyCost + (0 + 0))%nat by lia.
  apply spends_bind.
  - apply spends_logged.
    eapply spends_weaken; [apply nearby_cost|apply spends_fetchWithError].
  - intros response. apply spends_bind; [now apply spends_nothing|].
    intros data. now apply spends_nothing.
Qed.

Lemma searchTypes_spends lat lng placeTypes : forall allPlaces seenIds,
  spends p (length placeTypes * (placesCost + 4 * nearbyCost))
    (searchTypes svc lat lng placeTypes allPlaces seenIds).
Proof.
  induction placeTypes as [|ty rest IH]; intros allPlaces seenIds; cbn [searchTypes length].
  - now apply spends_nothing.
  - replace (S (length rest) * (placesCost + 4 * nearbyCost))%nat
      with ((placesCost + 4 * nearbyCost)
            + length rest * (placesCost + 4 * nearbyCost))%nat by lia.
    apply spends_bind; [apply nearbySearch_spends|].
    intros found. destruct (addUnseen found allPlaces seenIds). apply IH.
Qed.

Lemma scoreVibes_spends reviewText :
  spends p (openaiCost + 4 * classifyCost) (scoreVibes svc reviewText).
Proof.
  unfold scoreVibes, acquire.
  apply spends_bind; [eapply spends_weaken; [apply openai_cost|apply spends_perform]|].
  intros _. replace (4 * classifyCost)%nat with (4 * classifyCost + 0)%nat by lia.
  apply spends_bind.
  - apply spends_logged. intros w. eexists. split; [reflexivity|apply classify_cost].
  - intros outputText. now apply spends_nothing.
Qed.

Lemma getPlaceDetails_spends placeId :
  spends p (placesCost + 4 * detailsCost) (getPlaceDetails svc placeId).
Proof.
  intros w. unfold getPlaceDetails.
  destruct (detailsCache w !! placeId) as [cached|].
  { exists []. rewrite app_nil_r. split; [reflexivity|cbn; lia]. }
  match goal with
  | |- exists added, trace (snd (?m w)) = _ /\ _ =>
      assert (spends p (placesCost + 4 * detailsCost) m) as H; [|apply H]
  end.
  unfold acquire.
  apply spends_bind; [eapply spends_weaken; [apply places_cost|apply spends_perform]|].
  intros _. replace (4 * detailsCost)%nat with (4 * detailsCost + 0)%nat by lia.
  apply spends_tryCatch.
  - replace (4 * detailsCost)%nat with (4 * detailsCost + (0 + (0 + 0)))%nat by lia.
    apply spends_bind.
    + apply spends_logged.
      eapply spends_weaken; [apply details_cost|apply spends_fetchWithError].
    + intros response. apply spends_bind; [now apply spends_nothing|].
      intros data. apply spends_bind; [now apply spends_nothing|].
      intros _. now apply spends_nothing.
  - intros [e|]; apply spends_nothing; reflexivity.
Qed.

Lemma fetchTopDetails_spends topVenues : forall placeDetails,
  spends p (length topVenues * (placesCost + 4 * detailsCost))
    (fetchTopDetails svc topVenues placeDetails).
Proof.
  induction topVenues as [|venue rest IH]; intros placeDetails;
    cbn [fetchTopDetails length].
  - now apply spends_nothing.
  - replace (S (length rest) * (placesCost + 4 * detailsCost))%nat
      with ((placesCost + 4 * detailsCost)
            + length rest * (placesCost + 4 * detailsCost))%nat by lia.
    apply spends_bind; [apply getPlaceDetails_spends|]. intros details. apply IH.
Qed.

Lemma store_write_free (P : Event -> Prop) e :
  (forall e', P e' -> ~ notStoreWrite e') -> P e -> p e = false.
Proof.
  intros HP He. destruct (p e) eqn:E; [|reflexivity].
  exfalso. exact (HP e He (store_free e E)).
Qed.

Lemma upsertCellVibes_spends vibes dryRun :
  spends p 0 (upsertCellVibes svc vibes dryRun).
Proof.
  intros w. destruct (upsertCellVibes_footprint svc vibes dryRun w) as [_ (added & E & F)].
  exists added. split; [exact E|].
  rewrite (countOf_none (vibesWrite (grid_cell_id vibes)) p added); [lia| |exact F].
  intros e He. apply (store_write_free (vibesWrite (grid_cell_id vibes))); [|exact He].
  intros e' Hw Hn. destruct e'; cbn in *; tauto.
Qed.

Lemma upsertVenues_spends rows dryRun : spends p 0 (upsertVenues svc rows dryRun).
Proof.
  intros w. destruct (upsertVenues_effect svc rows dryRun w) as (w' & -> & _ & _ & Ht & _).
  cbn [snd]. eexists. split; [exact Ht|].
  destruct (_ || _); [cbn; lia|].
  unfold countOf. cbn [List.filter].
  destruct (p (EvUpsertVenues rows)) eqn:E; [|cbn; lia].
  apply store_free in E. destruct E.
Qed.

Lemma scoreCell_spends cell options topVenues :
  spends p (length topVenues * (placesCost + 4 * detailsCost)
            + (openaiCost + 4 * classifyCost))
    (scoreCell svc cell options topVenues).
Proof.
  unfold scoreCell. destruct topVenues as [|v top].
  - eapply spends_weaken with (0 + 0)%nat; [lia|].
    apply spends_bind; [now apply spends_nothing|]. intros computed.
    apply upsertCellVibes_spends.
  - apply spends_bind; [apply fetchTopDetails_spends|].
    intros placeDetails.
    replace (openaiCost + 4 * classifyCost)%nat
      with ((openaiCost + 4 * classifyCost) + (0 + 0))%nat by lia.
    apply spends_bind.
    + destruct (agg_text _);
        [apply spends_weaken with 0%nat; [lia|now apply spends_nothing]
        |apply scoreVibes_spends].
    + intros vibeScores. apply spends_bind; [now apply spends_nothing|].
      intros computed. apply upsertCellVibes_spends.
Qed.

Lemma processCell_spends cell options :
  spends p (6 * (placesCost + 4 * nearbyCost)
            + (5 * (placesCost + 4 * detailsCost) + (openaiCost + 4 * classifyCost)))
    (processCell svc cell options).
Proof.
  unfold processCell.
  destruct (parsePointWKT (centroid cell)) as [coords|];
    [|apply spends_weaken with 0%nat; [lia|now apply spends_nothing]].
  apply spends_bind; [apply (searchTypes_spends _ _ PLACE_TYPES)|].
  intros allPlaces.
  replace (5 * (placesCost + 4 * detailsCost) + (openaiCost + 4 * classifyCost))%nat
    with (0 + (5 * (placesCost + 4 * detailsCost) + (openaiCost + 4 * classifyCost)))%nat
    by lia.
  apply spends_bind; [apply upsertVenues_spends|]. intros _.
  eapply spends_weaken; [|apply scoreCell_spends].
  apply Nat.add_le_mono_r, Nat.mul_le_mono_r.
  rewrite length_take. unfold TOP_VENUES_PER_CELL. lia.
Qed.

End Spends.

(** X25.  What one cell can cost, whatever the catalogue, the classifier
    and the store answer and however [processCell] ends: at most 24
    nearby searches (6 place types, each tried up to 4 times), at most 20
    detail requests (5 venues, each tried up to 4 times), at most 4
    requests to the classifier, at most 11 admissions by the limiter of
    the catalogue and at most one by the limiter of the classifier. *)
Theorem processCell_cost (svc : Services) (cell : GridCell) (options : CliOptions)
  (w : World) :
  exists added,
    trace (snd (processCell svc cell options w)) = trace w ++ added /\
    (countOf isNearbyFetch added <= 24)%nat /\
    (countOf isDetailsFetch added <= 20)%nat /\
    (countOf isClassify added <= 4)%nat /\
    (countOf (isAcquire PlacesLimiter) added <= 11)%nat /\
    (countOf (isAcquire OpenAILimiter) added <= 1)%nat.
Proof.
  assert (forall p n d c a o,
    (forall e, retryNoise e -> p e = false) ->
    (forall lat lng ty, (countOf p [EvFetchNearby lat lng ty] <= n)%nat) ->
    (forall id, (countOf p [EvFetchDetails id] <= d)%nat) ->
    (forall input, (countOf p [EvClassify input] <= c)%nat) ->
    (countOf p [EvAcquire PlacesLimiter] <= a)%nat ->
    (countOf p [EvAcquire OpenAILimiter] <= o)%nat ->
    (forall e, p e = true -> notStoreWrite e) ->
    forall added, trace (snd (processCell svc cell options w)) = trace w ++ added ->
    (countOf p added <= 6 * (a + 4 * n) + (5 * (a + 4 * d) + (o + 4 * c)))%nat) as Hcost.
  { intros p n d c a o H1 H2 H3 H4 H5 H6 H7 added Hadded.
    destruct (processCell_spends p H1 svc n d c a o H2 H3 H4 H5 H6 H7 cell options w)
      as (added' & E & Hc).
    rewrite Hadded in E. apply app_inv_head in E. now subst added'. }
  destruct (processCell_footprint svc cell options w) as [_ (added & Hadded & _)].
  exists added. split; [exact Hadded|].
  split; [|split; [|split; [|split]]].
  - apply (Hcost isNearbyFetch 1 0 0 0 0)%nat; try exact Hadded;
      try (intros; cbn; lia); intros e; destruct e; cbn; (discriminate || tauto).
  - apply (Hcost isDetailsFetch 0 1 0 0 0)%nat; try exact Hadded;
      try (intros; cbn; lia); intros e; destruct e; cbn; (discriminate || tauto).
  - apply (Hcost isClassify 0 0 1 0 0)%nat; try exact Hadded;
      try (intros; cbn; lia); intros e; destruct e; cbn; (discriminate || tauto).
  - apply (Hcost (isAcquire PlacesLimiter) 0 0 0 1 0)%nat; try exact Hadded;
      try (intros; cbn; lia); intros e; destruct e as [[]| | | | | | | | | | | | |];
      cbn; (discriminate || tauto).
  - apply (Hcost (isAcquire OpenAILimiter) 0 0 0 0 1)%nat; try exact Hadded;
      try (intros; cbn; lia); intros e; destruct e as [[]| | | | | | | | | | | | |];
      cbn; (discriminate || tauto).
Qed.

(** ** The rows of scores *)

Lemma parseVibeScores_range text s : parseVibeScores text = Ok s -> scoresInUnitRange s.
Proof.
  unfold parseVibeScores.
  destruct (parseVibeScores_try text emptyVibeScores) as [thrown s'] eqn:E.
  apply parseVibeScores_try_spec in E. destruct E as [_ Hs].
  intros Hok. assert (s' = s) as -> by (destruct thrown as [[e|]|]; congruence).
  intros d v Hd. destruct (Hs d v Hd) as (_ & parsed & _ & _ & x & _ & Hx & ->).
  apply inUnitRange_value. now apply roundTwoPlaces_range.
Qed.

Lemma aggregateReviews_count placeDetails :
  0 <= agg_count (aggregateReviews placeDetails) /\
  (agg_text (aggregateReviews placeDetails) <> [] ->
   0 < agg_count (aggregateReviews placeDetails)).
Proof.
  unfold aggregateReviews. rewrite collectPlaces_spec. cbn [app agg_text agg_count].
  split; [lia|]. destruct (snippetsOf placeDetails); [|cbn [length]; lia].
  cbn. congruence.
Qed.

Lemma preserves_bind_post {R : World -> World -> Prop} {P : Event -> Prop}
  `{!Effects R P} {A B} (Q : A -> Prop) (m : M A) (k : A -> M B) :
  preserves R m ->
  (forall w a w1, m w = (Ok a, w1) -> Q a) ->
  (forall a, Q a -> preserves R (k a)) ->
  preserves R (bind m k).
Proof.
  intros Hm Hpost Hk w. unfold bind. specialize (Hm w). specialize (Hpost w).
  destruct (m w) as [[a|t] w1]; cbn [snd] in *; [|exact Hm].
  eapply effects_trans; [exact Hm|]. apply Hk. now apply (Hpost a w1).
Qed.

Section ScoreRows.

Variable svc : Services.

Lemma scoreVibes_range reviewText w s w' :
  scoreVibes svc reviewText w = (Ok s, w') -> scoresInUnitRange s.
Proof.
  unfold scoreVibes. unfold bind at 1, acquire, perform. unfold bind.
  destruct (withRetry _ _ _) as [[outputText|t] w1]; [|discriminate].
  unfold liftOutcome. intros [= H _]. now apply parseVibeScores_range in H.
Qed.

Lemma upsertCellVibes_inserts (Q : CellVibeData -> Prop) vibes dryRun :
  Q vibes -> preserves (footprint (insertsOnly Q)) (upsertCellVibes svc vibes dryRun).
Proof.
  intros HQ w. unfold upsertCellVibes. destruct dryRun; [apply effects_refl|].
  assert (H : cacheKept (insertsOnly Q) w
                (emit (EvInsertVibes vibes)
                   (emit (EvDeleteVibes (grid_cell_id vibes)) w))).
  { eapply effects_trans; apply effects_emit; [exact I|exact HQ]. }
  apply cacheKept_footprint. destruct H as [Hc (l & El & Fl)].
  destruct (db_delete_vibes svc (tick w) (grid_cell_id vibes));
    destruct (db_insert_vibes svc _ vibes); cbn [snd];
    (split; [exact Hc|exists l; split; [exact El|exact Fl]]).
Qed.

Lemma scoreCell_inserts cell options topVenues :
  preserves (footprint (insertsOnly (wellFormedRow (cell_id cell))))
    (scoreCell svc cell options topVenues).
Proof.
  assert (scoresInUnitRange emptyVibeScores) as Hempty.
  { intros d v Hd. now rewrite getScore_empty in Hd. }
  unfold scoreCell. destruct topVenues as [|v top].
  - apply preserves_bind; [apply (preserves_now svc (P := insertsOnly _))|].
    intros computed. apply upsertCellVibes_inserts.
    unfold wellFormedRow. cbn [grid_cell_id scores source_review_count model_name].
    split; [reflexivity|]. split; [exact Hempty|]. split; [lia|].
    split; [reflexivity|discriminate].
  - apply preserves_bind.
    + intros w. eapply footprint_weaken; [|apply fetchTopDetails_footprint].
      intros e He. destruct e; cbn in *; tauto.
    + intros placeDetails.
      destruct (aggregateReviews_count placeDetails) as [Hcount Hpos].
      apply (preserves_bind_post
               (fun s => scoresInUnitRange s /\
                         (agg_text (aggregateReviews placeDetails) = [] ->
                          s = emptyVibeScores))).
      * destruct (agg_text _); [apply preserves_ret|].
        intros w. apply cacheKept_footprint.
        eapply cacheKept_weaken; [|apply scoreVibes_footprint].
        intros e He. destruct e as [[]| | | | | | | | | | | | |]; cbn in *; tauto.
      * intros w s w1. destruct (agg_text _) eqn:Etext.
        -- intros [= <- _]. split; [exact Hempty|reflexivity].
        -- intros H. apply scoreVibes_range in H. split; [exact H|discriminate].
      * intros s [Hrange Hnone].
        apply preserves_bind; [apply (preserves_now svc (P := insertsOnly _))|].
        intros computed. apply upsertCellVibes_inserts.
        unfold wellFormedRow. cbn [grid_cell_id scores source_review_count model_name].
        split; [reflexivity|]. split; [exact Hrange|]. split; [exact Hcount|].
        destruct (agg_text (aggregateReviews placeDetails)) eqn:Etext.
        -- split; [intros _; now apply Hnone|discriminate].
        -- split; [discriminate|]. intros m [= <-]. split; [reflexivity|].
           apply Hpos. discriminate.
Qed.

Lemma processCell_inserts cell options :
  preserves (footprint (insertsOnly (wellFormedRow (cell_id cell))))
    (processCell svc cell options).
Proof.
  unfold processCell. destruct (parsePointWKT (centroid cell)) as [coords|];
    [|apply preserves_throw].
  apply preserves_bind.
  - intros w. apply cacheKept_footprint.
    eapply cacheKept_weaken; [|apply searchTypes_footprint].
    intros e He. destruct e as [[]| | | | | | | | | | | | |]; cbn in *; tauto.
  - intros allPlaces. apply preserves_bind; [|intros _; apply scoreCell_inserts].
    intros w. destruct (upsertVenues_effect svc (toVenueData cell coords <$>
                rankVenues (filterQualifiedVenues allPlaces MIN_REVIEW_COUNT))
                (dryRun options) w) as (w' & -> & Hc & _ & Ht & _).
    cbn [snd]. apply cacheKept_footprint. split; [exact Hc|].
    eexists. split; [exact Ht|]. destruct (_ || _); repeat constructor.
Qed.

End ScoreRows.

(** X26.  Every row of scores that [processCell] sends to the store is
    well formed, whatever the catalogue and the classifier answer: it names
    the cell; each of its scores is absent or between 0 and 1, so that the
    checks of the table cannot fail; its review count is not negative;
    without a model it has no score at all; and with a model, the model is
    [LLM_MODEL] and the review count is positive. *)
Theorem processCell_rows_well_formed (svc : Services) (cell : GridCell)
  (options : CliOptions) (w : World) (added : list Event) (row : CellVibeData) :
  trace (snd (processCell svc cell options w)) = trace w ++ added ->
  EvInsertVibes row ∈ added ->
  wellFormedRow (cell_id cell) row.
Proof.
  intros Hadded Hrow.
  destruct (processCell_inserts svc cell options w) as [_ (added' & E & F)].
  rewrite Hadded in E. apply app_inv_head in E. subst added'.
  rewrite Forall_forall in F. exact (F _ Hrow).
Qed.

Lemma processCell_rows_well_formed_witness :
  wellFormedRow (cell_id (cellNamed "a")) (blankRow "a" 12).
Proof.
  apply (processCell_rows_well_formed (gridOf [cellNamed "a"]) (cellNamed "a") plainOptions
           emptyWorld
           (trace (snd (processCell (gridOf [cellNamed "a"]) (cellNamed "a") plainOptions
                          emptyWorld)))
           (blankRow "a" 12)).
  - reflexivity.
  - vm_compute. repeat first [apply list_elem_of_here | apply list_elem_of_further].
Defined.

(** ** The failure ledger *)

(** X27.  The ledger that the loop of [main] builds follows the cells:
    the cells named by the records it adds are, in order, cells of the
    list, each cell at most once per occurrence.  So the number of failures
    never exceeds the number of cells processed. *)
Theorem processCells_ledger (svc : Services) (options : CliOptions) (total : Z)
  (cells : list GridCell) (processed : Z) (failedCells : list FailedCell) (w : World) :
  exists added w',
    processCells svc options total cells processed failedCells w
    = (Ok (processed + Z.of_nat (length cells), failedCells ++ added), w') /\
    cellId <$> added `sublist_of` cell_id <$> cells /\
    (length added <= length cells)%nat.
Proof.
  revert processed failedCells w.
  induction cells as [|cell rest IH]; intros processed failedCells w.
  - exists [], w. cbn [processCells length]. rewrite app_nil_r, Z.add_0_r.
    split; [reflexivity|]. split; [constructor|lia].
  - rewrite processCells_step.
    pose proof (throwsOnlyErrors_processCell svc cell options w) as Hnull.
    destruct (processCell svc cell options w) as [[[]|[e|]] w1]; cbn [fst] in Hnull;
      [| |congruence].
    + destruct (IH (processed + 1) failedCells
                  (pauseBetweenCells (processed + 1) total w1))
        as (added & w' & Hrun & Hsub & Hlen).
      exists added, w'. rewrite Hrun. cbn [length fmap list_fmap].
      replace (processed + Z.of_nat (S (length rest)))
        with (processed + 1 + Z.of_nat (length rest)) by lia.
      split; [reflexivity|]. split; [now apply sublist_cons|lia].
    + destruct (IH (processed + 1) (failedCells ++ [failureRecord svc cell e w1])
                  (pauseBetweenCells (processed + 1) total w1))
        as (added & w' & Hrun & Hsub & Hlen).
      exists (failureRecord svc cell e w1 :: added), w'. rewrite Hrun.
      cbn [length fmap list_fmap].
      replace (processed + Z.of_nat (S (length rest)))
        with (processed + 1 + Z.of_nat (length rest)) by lia.
      split; [now rewrite <- app_assoc|].
      split; [now apply sublist_skip|lia].
Qed.

(** ** A search that fails *)

(** X28.  When the search of the places fails for a cell, [processCell]
    fails with the same error and has written nothing: no venue of the
    types already searched is recorded, no row of scores is written, the
    cache is as it was, and nothing but searches was requested. *)
Theorem processCell_search_failure (svc : Services) (cell : GridCell)
  (options : CliOptions) (coords : Coords) (w w1 : World) (t : Thrown) :
  parsePointWKT (centroid cell) = Some coords ->
  searchAllTypes svc (lat coords) (lng coords) PLACE_TYPES w = (Throw t, w1) ->
  processCell svc cell options w = (Throw t, w1) /\
  venues w1 = venues w /\
  cell_vibes w1 = cell_vibes w /\
  detailsCache w1 = detailsCache w /\
  exists added, trace w1 = trace w ++ added /\ Forall searchEvent added.
Proof.
  intros Hcoords Hsearch. split.
  { unfold processCell. rewrite Hcoords. unfold bind at 1. now rewrite Hsearch. }
  pose proof (searchTypes_tables svc (lat coords) (lng coords) PLACE_TYPES [] ∅ w) as Ht.
  pose proof (searchTypes_footprint svc (lat coords) (lng coords) PLACE_TYPES [] ∅ w) as Hf.
  unfold searchAllTypes in Hsearch. rewrite Hsearch in Ht, Hf. cbn [snd] in Ht, Hf.
  destruct Ht as (Hv & Hc & _). destruct Hf as [Hcache Htrace]. auto.
Qed.

Lemma processCell_search_failure_witness :
  processCell (catalogDown 400) sampleCell plainOptions emptyWorld
  = (Throw (TErr {| message := lit "HTTP " ++ string_of_Z 400 ++ lit ": " ++ lit "down";
                    status := Some 400 |}),
     emit (EvFetchNearby (Some 2%Q) (Some 1%Q) restaurant)
       (emit (EvAcquire PlacesLimiter) emptyWorld)) /\
  venues (emit (EvFetchNearby (Some 2%Q) (Some 1%Q) restaurant)
            (emit (EvAcquire PlacesLimiter) emptyWorld)) = venues emptyWorld /\
  cell_vibes (emit (EvFetchNearby (Some 2%Q) (Some 1%Q) restaurant)
                (emit (EvAcquire PlacesLimiter) emptyWorld)) = cell_vibes emptyWorld /\
  detailsCache (emit (EvFetchNearby (Some 2%Q) (Some 1%Q) restaurant)
                  (emit (EvAcquire PlacesLimiter) emptyWorld)) = detailsCache emptyWorld /\
  exists added,
    trace (emit (EvFetchNearby (Some 2%Q) (Some 1%Q) restaurant)
             (emit (EvAcquire PlacesLimiter) emptyWorld))
    = trace emptyWorld ++ added /\ Forall searchEvent added.
Proof.
  apply (processCell_search_failure (catalogDown 400) sampleCell plainOptions sampleCoords
           emptyWorld).
  - vm_compute. reflexivity.
  - vm_compute. reflexivity.
Defined.
